(** * PowerTrader backtest data engine

    A shallow embedding of [backtest_feed.py] (the CSV price replay) and
    [pt_backtest.py] (dataset discovery, history parsing, metrics and the
    orchestrating [main]), with the properties of the engine proved about it.

    Python [float] is IEEE binary64, which is what the kernel's primitive
    [float] implements, so prices and timestamps are primitive floats and
    comparisons, differences and quotients round as CPython's do. What the
    interpreter and the operating system provide ([ast.literal_eval],
    [float] on text, [sum], directory listings, the trainer's loader) is
    taken as two interfaces, [Builtins] and [Host]; the theorems hold for
    every implementation of them, and the concrete runs use a reader for
    plain literals and an in-memory data directory. Dictionaries are stdpp
    finite maps; the generator behind [next_price] is a small state machine
    whose store is shared with its owner. *)

From Stdlib Require Import ZArith List String Ascii Floats Lia Bool.
From Stdlib Require Import Sorting.Sorted Sorting.Permutation.
From stdpp Require Import gmap strings list pretty.

Local Open Scope string_scope.
Local Open Scope list_scope.

(** ** Python values, exceptions and the built-ins the engine calls *)

Module Py.

(** The exceptions the modelled operations raise. Every one derives from
    [Exception], so an [except Exception] clause catches each of them. *)
Inductive exn : Type :=
| SyntaxError | ValueError | TypeError | IndexError | KeyError
| OverflowError | RecursionError | MemoryError
| StopIteration | RuntimeError
| FileNotFoundError | NotADirectoryError | IsADirectoryError | PermissionError
| OSError.

Definition result (A : Type) : Type := exn + A.

Definition ret {A} (a : A) : result A := inr a.
Definition raise {A} (e : exn) : result A := inl e.

Definition bind {A B} (k : A -> result B) (m : result A) : result B :=
  match m with
  | inl e => inl e
  | inr a => k a
  end.

#[global] Instance result_bind : MBind result := @bind.
#[global] Instance result_ret : MRet result := @ret.

(** What [ast.literal_eval] can return. A [str] is a sequence of
    characters and a [bytes] a sequence of octets; both are [string]s here,
    one [ascii] per item. *)
#[warnings="-register-all"] Inductive value : Type :=
| VNone
| VEllipsis
| VBool (b : bool)
| VInt (z : Z)
| VFloat (f : float)
| VComplex (re im : float)
| VStr (s : string)
| VBytes (s : string)
| VList (items : list value)
| VTuple (items : list value)
| VSet (items : list value)
| VDict (entries : list (value * value)).

(** [float(n)] for an [int]: nearest binary64, ties to even. *)
Definition float_of_Z (z : Z) : float :=
  SF2Prim (binary_normalize prec emax z 0 false).

Definition is_infinite (f : float) : bool :=
  match classify f with
  | PInf | NInf => true
  | _ => false
  end.

(** [math.isnan(f)], that is [f != f]. *)
Definition is_nan (f : float) : bool := negb (PrimFloat.eqb f f).

(** [int.__float__]: an [int] beyond the binary64 range raises. *)
Definition int_to_float (z : Z) : result float :=
  let f := float_of_Z z in
  if is_infinite f then raise OverflowError else ret f.

(** [a / b] on two [int]s with [b] positive and [a] non-negative: the
    quotient correctly rounded (CPython's [long_true_divide]). *)
Definition int_truediv (a b : Z) : float :=
  match a, b with
  | Z0, Zpos _ => 0%float
  | Zpos p, Zpos q =>
      SF2Prim (SFdiv prec emax (S754_finite false p 0) (S754_finite false q 0))
  | _, _ => nan
  end.

(** [k == i] for a dictionary key [k] and a small [int] [i]. *)
Definition key_eq_int (k : value) (i : nat) : bool :=
  match k with
  | VInt z => Z.eqb z (Z.of_nat i)
  | VBool b => Z.eqb (Z.b2z b) (Z.of_nat i)
  | VFloat f => PrimFloat.eqb f (float_of_Z (Z.of_nat i))
  | VComplex re im =>
      PrimFloat.eqb re (float_of_Z (Z.of_nat i)) && PrimFloat.eqb im 0%float
  | _ => false
  end.

(** [v[i]] for a constant index [i >= 0]. *)
Definition getitem (v : value) (i : nat) : result value :=
  match v with
  | VList items | VTuple items =>
      match nth_error items i with
      | Some x => ret x
      | None => raise IndexError
      end
  | VStr s =>
      match String.get i s with
      | Some c => ret (VStr (String c EmptyString))
      | None => raise IndexError
      end
  | VBytes s =>
      match String.get i s with
      | Some c => ret (VInt (Z.of_N (N_of_ascii c)))
      | None => raise IndexError
      end
  | VDict entries =>
      match List.find (fun kv => key_eq_int (fst kv) i) entries with
      | Some kv => ret (snd kv)
      | None => raise KeyError
      end
  | VNone | VEllipsis | VBool _ | VInt _ | VFloat _ | VComplex _ _ | VSet _ =>
      raise TypeError
  end.

(** [len(v)] for the sequence types, the ones indexed by position. *)
Definition seq_len (v : value) : option nat :=
  match v with
  | VList items | VTuple items => Some (List.length items)
  | VStr s | VBytes s => Some (String.length s)
  | _ => None
  end.

(** [len(v)]: the number of elements of a container; the others have
    none. A set has its elements once, a dictionary one entry per key. *)
Definition len (v : value) : option nat :=
  match v with
  | VList items | VTuple items | VSet items => Some (List.length items)
  | VStr s | VBytes s => Some (String.length s)
  | VDict entries => Some (List.length entries)
  | VNone | VEllipsis | VBool _ | VInt _ | VFloat _ | VComplex _ _ => None
  end.


(** [sorted(l, key=key)] / [list.sort(key=key)] when [<] orders the keys:
    a stable sort that compares keys with [<] only. Each item is inserted
    in front of the already sorted items that follow it in the input,
    after every item whose key is smaller and before the first whose key is
    not. Names, and floats none of which is NaN, are so ordered; the result
    is then the one arrangement a stable sort can give. *)
Section Sorting.
Context {A K : Type} (key : A -> K) (lt : K -> K -> bool).

Fixpoint insort (x : A) (l : list A) : list A :=
  match l with
  | [] => [x]
  | y :: l' => if lt (key y) (key x) then y :: insort x l' else x :: y :: l'
  end.

Definition sorted (l : list A) : list A := List.fold_right insort [] l.
End Sorting.

(** The interpreter services the engine relies on but does not define:
    [ast.literal_eval], [float] applied to text, [sum] over a list of
    floats (a plain left-to-right sum before CPython 3.12, a compensated
    one since; the two agree whenever the partial sums are exact),
    [str.upper], [str.strip] and [list.sort] keyed by the first component
    of a pair of floats. Text is any [str]: what [str.upper] and
    [str.strip] do to characters outside ASCII is theirs to say. Of the two
    all that is used is that each, done twice, is done once, that they can
    be done in either order, and that upper-casing leaves no text empty; of
    the sort, that it rearranges its items, and that it is the stable sort
    when no key is NaN (with a NaN among the keys [<] is no order, and
    where the items land is the interpreter's business). *)
Class Builtins : Type := {
  literal_eval : string -> result value;
  str_to_float : string -> result float;
  bytes_to_float : string -> result float;
  float_sum : list float -> float;
  str_upper : string -> string;
  str_strip : string -> string;
  sort_by_first : list (float * float) -> list (float * float);
  str_upper_idem : forall s, str_upper (str_upper s) = str_upper s;
  str_strip_idem : forall s, str_strip (str_strip s) = str_strip s;
  str_upper_strip : forall s, str_upper (str_strip s) = str_strip (str_upper s);
  str_upper_empty : forall s, str_upper s = EmptyString -> s = EmptyString;
  sort_by_first_perm : forall l, Permutation (sort_by_first l) l;
  sort_by_first_ordered :
    forall l,
      (forall item, In item l -> is_nan (fst item) = false) ->
      sort_by_first l = sorted fst PrimFloat.ltb l
}.

(** [float(v)]. *)
Definition to_float `{Builtins} (v : value) : result float :=
  match v with
  | VFloat f => ret f
  | VInt z => int_to_float z
  | VBool b => ret (if b then 1%float else 0%float)
  | VStr s => str_to_float s
  | VBytes s => bytes_to_float s
  | VNone | VEllipsis | VComplex _ _ | VList _ | VTuple _ | VSet _ | VDict _ =>
      raise TypeError
  end.

(** [max(a, b)]: keeps [a] unless [b > a]. *)
Definition max2 (a b : float) : float :=
  if PrimFloat.ltb a b then b else a.

(** Adding floats left to right from zero. *)
Definition fold_sum (xs : list float) : float :=
  List.fold_left PrimFloat.add xs 0%float.

(** [s.upper()] and [s.strip()] on ASCII text, as the reader of the
    concrete runs does them. *)
Definition upper_char (c : ascii) : ascii :=
  let n := nat_of_ascii c in
  if (97 <=? n)%nat && (n <=? 122)%nat then ascii_of_nat (n - 32) else c.

Fixpoint upper (s : string) : string :=
  match s with
  | EmptyString => EmptyString
  | String c s' => String (upper_char c) (upper s')
  end.

Definition is_space (c : ascii) : bool :=
  let n := nat_of_ascii c in
  ((9 <=? n)%nat && (n <=? 13)%nat) || ((28 <=? n)%nat && (n <=? 32)%nat).

Fixpoint lstrip (s : string) : string :=
  match s with
  | EmptyString => EmptyString
  | String c s' => if is_space c then lstrip s' else s
  end.

Fixpoint rstrip (s : string) : string :=
  match s with
  | EmptyString => EmptyString
  | String c s' =>
      match rstrip s' with
      | EmptyString => if is_space c then EmptyString else String c EmptyString
      | t => String c t
      end
  end.

Definition strip (s : string) : string := rstrip (lstrip s).

(** [os.path.join(a, b)] on POSIX. *)
Definition path_join (a b : string) : string :=
  match b with
  | String "/" _ => b
  | _ =>
      if String.eqb a "" then b
      else if String.eqb (substring (String.length a - 1) 1 a) "/" then a ++ b
      else a ++ "/" ++ b
  end.

End Py.

(** ** A reader for plain Python literals

    [ast.literal_eval] and [float] on the literals a CSV loader emits:
    displays of lists and tuples, nested or bare, whose items are decimal
    numbers, quoted text without escapes, [None], [True] and [False], and
    displays of dictionaries whose keys are integers, [True], [False] or
    quoted text. Anything else (sets, dictionaries with other keys,
    escapes, adjacent text literals, digit separators, other bases) is
    reported as an error; the concrete runs below stay inside this
    fragment, where the reader agrees with CPython, and the general
    theorems hold for every [Builtins]. *)

Module Literal.
Import Py.

Definition is_digit (c : ascii) : bool :=
  let n := nat_of_ascii c in (48 <=? n)%nat && (n <=? 57)%nat.

Definition is_alpha (c : ascii) : bool :=
  let n := nat_of_ascii c in
  ((65 <=? n)%nat && (n <=? 90)%nat) || ((97 <=? n)%nat && (n <=? 122)%nat)
  || (n =? 95)%nat.

Definition is_blank (c : ascii) : bool :=
  let n := nat_of_ascii c in
  (n =? 32)%nat || (n =? 9)%nat || (n =? 10)%nat || (n =? 13)%nat || (n =? 12)%nat.

(** The two quote characters: the apostrophe and the double quote. *)
Definition is_quote (c : ascii) : bool :=
  let n := nat_of_ascii c in (n =? 39)%nat || (n =? 34)%nat.

Definition digit_val (c : ascii) : Z := (Z.of_nat (nat_of_ascii c) - 48)%Z.

(** Reads a run of digits: the number read so far, how many digits were
    read, and what follows. *)
Fixpoint digits (acc : Z) (n : nat) (s : string) : Z * nat * string :=
  match s with
  | String c s' =>
      if is_digit c then digits (acc * 10 + digit_val c)%Z (S n) s' else (acc, n, s)
  | EmptyString => (acc, n, s)
  end.

(** The binary64 nearest to [m * 10 ^ e10], for [m >= 0]. *)
Definition decimal (m e10 : Z) : float :=
  match m with
  | Zpos p =>
      match e10 with
      | Zneg k =>
          SF2Prim (SFdiv prec emax (S754_finite false p 0)
                     (S754_finite false (10 ^ k)%positive 0))
      | _ => float_of_Z (m * 10 ^ e10)
      end
  | _ => 0%float
  end.

(** A scanned number: its digits as an integer, the power of ten that
    scales them, whether it was written as a float, and whether its
    integer part is written with a redundant leading zero. *)
Record scanned : Type := {
  mantissa : Z;
  exp10 : Z;
  floating : bool;
  leading_zero : bool
}.

Definition scan_exponent (m : Z) (nfrac : nat) (floating lz : bool) (s : string)
  : option (scanned * string) :=
  let plain :=
    Some ({| mantissa := m; exp10 := - Z.of_nat nfrac;
             floating := floating; leading_zero := lz |}, s) in
  match s with
  | String c s' =>
      if Ascii.eqb c "e" || Ascii.eqb c "E" then
        let '(neg, s'') :=
          match s' with
          | String "-" t => (true, t)
          | String "+" t => (false, t)
          | _ => (false, s')
          end in
        let '(x, nx, rest) := digits 0 0 s'' in
        if (nx =? 0)%nat then None
        else
          Some ({| mantissa := m;
                   exp10 := (if neg then - x else x) - Z.of_nat nfrac;
                   floating := true; leading_zero := lz |}, rest)
      else plain
  | EmptyString => plain
  end.

Definition scan_number (s : string) : option (scanned * string) :=
  let '(ip, ni, r1) := digits 0 0 s in
  let lz :=
    match s with
    | String "0" _ => (1 <? ni)%nat && negb (ip =? 0)%Z
    | _ => false
    end in
  match r1 with
  | String "." r2 =>
      let '(m, nf, r3) := digits ip 0 r2 in
      if (ni =? 0)%nat && (nf =? 0)%nat then None
      else scan_exponent m nf true lz r3
  | _ => if (ni =? 0)%nat then None else scan_exponent ip 0 false lz r1
  end.

Inductive token : Type :=
| TOpen (square : bool)
| TClose (square : bool)
| TBrace (opening : bool)
| TColon
| TComma
| TSign (negative : bool)
| TNum (v : value)
| TStr (s : string)
| TName (s : string).

(** The text of a quoted literal up to its closing quote; escapes and line
    breaks are outside the fragment. *)
Fixpoint scan_quoted (q : ascii) (s : string) : option (string * string) :=
  match s with
  | EmptyString => None
  | String c s' =>
      if Ascii.eqb c q then Some (EmptyString, s')
      else if (nat_of_ascii c =? 92)%nat || (nat_of_ascii c =? 10)%nat then None
      else
        match scan_quoted q s' with
        | Some (body, rest) => Some (String c body, rest)
        | None => None
        end
  end.

Fixpoint scan_name (s : string) : string * string :=
  match s with
  | String c s' =>
      if is_alpha c || is_digit c then
        let '(name, rest) := scan_name s' in (String c name, rest)
      else (EmptyString, s)
  | EmptyString => (EmptyString, s)
  end.

Definition starts_word (s : string) : bool :=
  match s with
  | String c _ => is_alpha c || is_digit c || Ascii.eqb c "."
  | EmptyString => false
  end.

Definition starts_quote (s : string) : bool :=
  match s with
  | String c _ => is_quote c
  | EmptyString => false
  end.

Fixpoint lex (fuel : nat) (s : string) : option (list token) :=
  match fuel with
  | O => None
  | S fuel =>
      match s with
      | EmptyString => Some []
      | String c s' =>
          if is_blank c then lex fuel s'
          else if Ascii.eqb c "[" then cons (TOpen true) <$> lex fuel s'
          else if Ascii.eqb c "]" then cons (TClose true) <$> lex fuel s'
          else if Ascii.eqb c "(" then cons (TOpen false) <$> lex fuel s'
          else if Ascii.eqb c ")" then cons (TClose false) <$> lex fuel s'
          else if Ascii.eqb c "{" then cons (TBrace true) <$> lex fuel s'
          else if Ascii.eqb c "}" then cons (TBrace false) <$> lex fuel s'
          else if Ascii.eqb c ":" then cons TColon <$> lex fuel s'
          else if Ascii.eqb c "," then cons TComma <$> lex fuel s'
          else if Ascii.eqb c "-" then cons (TSign true) <$> lex fuel s'
          else if Ascii.eqb c "+" then cons (TSign false) <$> lex fuel s'
          else if is_quote c then
            match scan_quoted c s' with
            | Some (body, rest) =>
                if starts_quote rest then None
                else cons (TStr body) <$> lex fuel rest
            | None => None
            end
          else if is_digit c || Ascii.eqb c "." then
            match scan_number s with
            | Some (n, rest) =>
                if starts_word rest || leading_zero n && negb (floating n) then None
                else
                  let v :=
                    if floating n then VFloat (decimal (mantissa n) (exp10 n))
                    else VInt (mantissa n) in
                  cons (TNum v) <$> lex fuel rest
            | None => None
            end
          else if is_alpha c then
            let '(name, rest) := scan_name s in
            cons (TName name) <$> lex fuel rest
          else None
      end
  end.

(** [-x] for a numeric literal. *)
Definition negate (v : value) : value :=
  match v with
  | VInt z => VInt (- z)
  | VFloat f => VFloat (- f)
  | _ => v
  end.

(** The three names that are literals. *)
Definition is_constant (name : string) : bool :=
  String.eqb name "None" || String.eqb name "True" || String.eqb name "False".

(** The value of a name; a name that is no literal parses, and is refused
    afterwards (see [eval]). *)
Definition constant (name : string) : value :=
  if String.eqb name "True" then VBool true
  else if String.eqb name "False" then VBool false
  else VNone.

Definition known (t : token) : bool :=
  match t with
  | TName name => is_constant name
  | _ => true
  end.

Definition display (square : bool) (items : list value) : value :=
  if square then VList items else VTuple items.

(** The keys of the dictionaries the reader builds. *)
Definition is_key (k : value) : bool :=
  match k with
  | VInt _ | VBool _ | VStr _ => true
  | _ => false
  end.

(** [a == b] for two such keys: [True] is 1 and [False] is 0. *)
Definition same_key (a b : value) : bool :=
  match a, b with
  | VStr s, VStr t => String.eqb s t
  | VInt x, VInt y => Z.eqb x y
  | VInt x, VBool y => Z.eqb x (Z.b2z y)
  | VBool x, VInt y => Z.eqb (Z.b2z x) y
  | VBool x, VBool y => Bool.eqb x y
  | _, _ => false
  end.

(** [d[k] = v]: a key already there keeps its place and takes the value. *)
Fixpoint dict_set (k v : value) (d : list (value * value)) : list (value * value) :=
  match d with
  | [] => [(k, v)]
  | (k', v') :: d' =>
      if same_key k' k then (k', v) :: d' else (k', v') :: dict_set k v d'
  end.

(** [dict(entries)], entered in order. *)
Definition dict_of (entries : list (value * value)) : option value :=
  if List.forallb (fun kv => is_key (fst kv)) entries then
    Some (VDict (List.fold_left (fun d kv => dict_set (fst kv) (snd kv) d) entries []))
  else None.

(** [parse_value] reads one literal; [parse_items] reads the items of a
    display up to its closing bracket ([Some square]) or, for a bare
    tuple, up to the end of the input ([None]). It returns the items, and
    whether a comma was seen. [parse_entries] reads the entries of a
    dictionary display up to its closing brace. *)
Fixpoint parse_value (fuel : nat) (ts : list token) : option (value * list token) :=
  match fuel with
  | O => None
  | S fuel =>
      match ts with
      | TNum v :: rest => Some (v, rest)
      | TSign negative :: TNum v :: rest =>
          Some (if negative then negate v else v, rest)
      | TStr body :: rest => Some (VStr body, rest)
      | TName name :: rest => Some (constant name, rest)
      | TOpen square :: rest =>
          match parse_items fuel (Some square) rest with
          | Some (items, comma, rest') =>
              match square, comma, items with
              | false, false, [v] => Some (v, rest')
              | _, _, _ => Some (display square items, rest')
              end
          | None => None
          end
      | TBrace true :: rest =>
          match parse_entries fuel rest with
          | Some (entries, rest') =>
              match dict_of entries with
              | Some d => Some (d, rest')
              | None => None
              end
          | None => None
          end
      | _ => None
      end
  end
with parse_items (fuel : nat) (closing : option bool) (ts : list token)
  : option (list value * bool * list token) :=
  match fuel with
  | O => None
  | S fuel =>
      match closing, ts with
      | None, [] => Some ([], false, [])
      | Some square, TClose square' :: rest =>
          if Bool.eqb square square' then Some ([], false, rest) else None
      | _, _ =>
          match parse_value fuel ts with
          | Some (v, TComma :: rest) =>
              match parse_items fuel closing rest with
              | Some (items, _, rest') => Some (v :: items, true, rest')
              | None => None
              end
          | Some (v, rest) =>
              match closing, rest with
              | None, [] => Some ([v], false, [])
              | Some square, TClose square' :: rest' =>
                  if Bool.eqb square square' then Some ([v], false, rest') else None
              | _, _ => None
              end
          | None => None
          end
      end
  end
with parse_entries (fuel : nat) (ts : list token)
  : option (list (value * value) * list token) :=
  match fuel with
  | O => None
  | S fuel =>
      match ts with
      | TBrace false :: rest => Some ([], rest)
      | _ =>
          match parse_value fuel ts with
          | Some (k, TColon :: rest) =>
              match parse_value fuel rest with
              | Some (v, TComma :: rest') =>
                  match parse_entries fuel rest' with
                  | Some (entries, rest'') => Some ((k, v) :: entries, rest'')
                  | None => None
                  end
              | Some (v, TBrace false :: rest') => Some ([(k, v)], rest')
              | _ => None
              end
          | _ => None
          end
      end
  end.

(** [ast.literal_eval(s)] on the fragment: text that does not parse is a
    [SyntaxError], text that parses but names something is a
    [ValueError]. *)
Definition eval (s : string) : result value :=
  let fuel := S (S (String.length s)) in
  match lex fuel s with
  | Some [] => raise SyntaxError
  | Some ts =>
      match parse_items (fuel + fuel) None ts with
      | Some ([v], false, _) =>
          if List.forallb known ts then ret v else raise ValueError
      | Some (items, true, _) =>
          if List.forallb known ts then ret (VTuple items) else raise ValueError
      | _ => raise SyntaxError
      end
  | None => raise SyntaxError
  end.

(** [float(s)] on text: surrounding blanks, a sign, then a decimal number,
    [inf], [infinity] or [nan] in any case. *)
Definition to_float (s : string) : result float :=
  let t := strip s in
  let '(negative, body) :=
    match t with
    | String "-" r => (true, r)
    | String "+" r => (false, r)
    | _ => (false, t)
    end in
  let signed (x : float) : float := if negative then (- x)%float else x in
  let word := upper body in
  if String.eqb word "INF" || String.eqb word "INFINITY" then ret (signed infinity)
  else if String.eqb word "NAN" then ret nan
  else
    match scan_number body with
    | Some (n, EmptyString) => ret (signed (decimal (mantissa n) (exp10 n)))
    | _ => raise ValueError
    end.

(** *** The reader keeps the laws of the services

    Its [upper] and [strip] are those of ASCII text, its sort the stable
    insertion sort. *)

(** Text that is empty or starts with a character that is no blank. *)
Definition starts_clean (s : string) : bool :=
  match s with
  | EmptyString => true
  | String c _ => negb (is_space c)
  end.

Lemma upper_char_idem (c : ascii) : upper_char (upper_char c) = upper_char c.
Proof. destruct c as [[] [] [] [] [] [] [] []]; reflexivity. Qed.

Lemma is_space_upper (c : ascii) : is_space (upper_char c) = is_space c.
Proof. destruct c as [[] [] [] [] [] [] [] []]; reflexivity. Qed.

Lemma upper_idem (s : string) : upper (upper s) = upper s.
Proof.
  induction s as [|c s IH]; simpl; [reflexivity|].
  now rewrite upper_char_idem, IH.
Qed.

Lemma upper_lstrip (s : string) : upper (lstrip s) = lstrip (upper s).
Proof.
  induction s as [|c s IH]; simpl; [reflexivity|].
  rewrite is_space_upper. now destruct (is_space c).
Qed.

Lemma upper_rstrip (s : string) : upper (rstrip s) = rstrip (upper s).
Proof.
  induction s as [|c s IH]; simpl; [reflexivity|].
  rewrite <- IH, is_space_upper.
  destruct (rstrip s) as [|d u]; simpl; [now destruct (is_space c) | reflexivity].
Qed.

Lemma upper_strip (s : string) : upper (strip s) = strip (upper s).
Proof. unfold strip. now rewrite upper_rstrip, upper_lstrip. Qed.

Lemma upper_empty (s : string) : upper s = EmptyString -> s = EmptyString.
Proof. now destruct s. Qed.

Lemma lstrip_clean (s : string) : starts_clean (lstrip s) = true.
Proof.
  induction s as [|c s IH]; simpl; [reflexivity|].
  destruct (is_space c) eqn:E; [exact IH|]. simpl. now rewrite E.
Qed.

Lemma lstrip_fixed (s : string) : starts_clean s = true -> lstrip s = s.
Proof.
  destruct s as [|c s]; simpl; [reflexivity|].
  intros Hc. apply negb_true_iff in Hc. now rewrite Hc.
Qed.

Lemma rstrip_clean (s : string) :
  starts_clean s = true -> starts_clean (rstrip s) = true.
Proof.
  destruct s as [|c s]; simpl; [reflexivity|]. intros Hc.
  destruct (rstrip s); simpl; [|exact Hc].
  apply negb_true_iff in Hc. rewrite Hc. simpl. now rewrite Hc.
Qed.

Lemma rstrip_idem (s : string) : rstrip (rstrip s) = rstrip s.
Proof.
  induction s as [|c s IH]; simpl; [reflexivity|].
  destruct (rstrip s) as [|d u] eqn:E.
  - destruct (is_space c) eqn:Ec; simpl; [reflexivity | now rewrite Ec].
  - change (rstrip (String c (String d u)))
      with (match rstrip (String d u) with
            | EmptyString => if is_space c then EmptyString else String c EmptyString
            | String _ _ as t => String c t
            end).
    now rewrite IH.
Qed.

Lemma strip_idem (s : string) : strip (strip s) = strip s.
Proof.
  unfold strip.
  rewrite (lstrip_fixed (rstrip (lstrip s))) by apply rstrip_clean, lstrip_clean.
  apply rstrip_idem.
Qed.

Lemma insort_rearranges (x : float * float) (l : list (float * float)) :
  Permutation (insort fst PrimFloat.ltb x l) (x :: l).
Proof.
  induction l as [|y l IH]; simpl; [reflexivity|].
  destruct (PrimFloat.ltb (fst y) (fst x)); [|reflexivity].
  rewrite IH. apply perm_swap.
Qed.

Lemma sorted_rearranges (l : list (float * float)) :
  Permutation (sorted fst PrimFloat.ltb l) l.
Proof.
  induction l as [|x l IH]; simpl; [reflexivity|].
  rewrite insort_rearranges. now constructor.
Qed.

#[export] Instance builtins : Builtins := {|
  literal_eval := eval;
  str_to_float := to_float;
  bytes_to_float := to_float;
  float_sum := fold_sum;
  str_upper := upper;
  str_strip := strip;
  sort_by_first := sorted fst PrimFloat.ltb;
  str_upper_idem := upper_idem;
  str_strip_idem := strip_idem;
  str_upper_strip := upper_strip;
  str_upper_empty := upper_empty;
  sort_by_first_perm := sorted_rearranges;
  sort_by_first_ordered := fun l _ => eq_refl
|}.

End Literal.

(** The operating system and the trainer module, as the engine sees them. *)
Class Host : Type := {
  (** [os.listdir]; raises when the path is missing or not a directory *)
  listdir : string -> Py.result (list string);
  (** [os.path.isdir] *)
  isdir : string -> bool;
  (** [os.path.abspath] *)
  abspath : string -> string;
  (** [pt_trainer.load_history(sym, timeframe, start, end, source, csv_root)] *)
  load_history :
    string -> string -> float -> float -> string -> string ->
    Py.result (list string);
  (** [int(time.time())] at the n-th reading of the clock *)
  epoch_seconds : nat -> Z;
  (** what the n-th operation of a run on the outside ([os.makedirs],
      writing a file, [print]) raises, if it raises *)
  output_error : nat -> option Py.exn
}.

Import Py.

(** ** [backtest_feed.py] *)

Module BacktestPriceReplay.

Section Parse.
Context `{Builtins}.

(** The [try] block of [_parse_rows] for one raw row. *)
Definition _parse_rows_try (raw : string) : result (float * float) :=
  vals ← literal_eval raw;
  v0 ← getitem vals 0;
  ts ← to_float v0;
  v2 ← getitem vals 2;
  close_price ← to_float v2;
  ret (ts, close_price).

(** The [for] loop of [_parse_rows]: [except Exception: continue]. *)
Definition _parse_rows_loop (rows : list string) : list (float * float) :=
  List.fold_left
    (fun parsed raw =>
       match _parse_rows_try raw with
       | inr item => parsed ++ [item]
       | inl _ => parsed
       end)
    rows [].

Definition _parse_rows (rows : list string) : list (float * float) :=
  sort_by_first (_parse_rows_loop rows).
End Parse.

(** What leaves a generator when its body raises [e]: the exception
    itself, but for [StopIteration], which the interpreter replaces by
    [RuntimeError] (PEP 479). *)
Definition generator_raise (e : exn) : exn :=
  match e with
  | StopIteration => RuntimeError
  | _ => e
  end.

(** The generator object made by [_iter_for], by where its body is
    suspended. *)
Inductive generator : Type :=
| Created                      (** made, body not entered yet *)
| InFor (rest : list float)    (** at the [yield] of the [for] loop, [rest] still to come *)
| InWhile                      (** at the [yield] of the [while True] loop *)
| Finished.                    (** body left by an exception *)

Record t : Type := {
  csv_root : string;
  timeframe : string;
  coins : list string;
  _iters : gmap string generator;
  _last_price : gmap string float
}.

Section Replay.
Context `{Builtins} `{Host}.

Definition __init__ (root tf : string) (cs : list string) : t :=
  {| csv_root := abspath root;
     timeframe := tf;
     coins :=
       List.map (fun c => str_strip (str_upper c))
         (List.filter (fun c => negb (String.eqb (str_strip c) "")) cs);
     _iters := ∅;
     _last_price := ∅ |}.

(** [self._last_price.get(sym, 0.0)] *)
Definition last_price_get (prices : gmap string float) (sym : string) : float :=
  default 0%float (prices !! sym).

(** Resuming the [for price in closes] loop with [closes] left: either
    the next price is recorded and yielded, or the loop is over and the
    [while True] loop yields the recorded price. *)
Definition _iter_for_loop
    (sym : string) (closes : list float) (prices : gmap string float)
  : result float * generator * gmap string float :=
  match closes with
  | price :: rest => (ret price, InFor rest, <[sym := price]> prices)
  | [] => (ret (last_price_get prices sym), InWhile, prices)
  end.

(** One [next()] on the generator of [_iter_for(sym)]: what it yields or
    raises, where it is suspended afterwards, and [self._last_price]. *)
Definition _iter_for (self : t) (sym : string) (g : generator)
  : result float * generator * gmap string float :=
  match g with
  | Created =>
      match load_history sym (timeframe self) infinity 0 "csv" (csv_root self) with
      | inl e => (raise (generator_raise e), Finished, _last_price self)
      | inr rows =>
          let parsed := _parse_rows rows in
          let closes := List.map snd parsed in
          let closes := match closes with [] => [0%float] | _ :: _ => closes end in
          _iter_for_loop sym closes (_last_price self)
      end
  | InFor rest => _iter_for_loop sym rest (_last_price self)
  | InWhile => (ret (last_price_get (_last_price self) sym), InWhile, _last_price self)
  | Finished => (raise StopIteration, Finished, _last_price self)
  end.

Definition next_price (self : t) (sym : string) : result float * t :=
  let sym := str_strip (str_upper sym) in
  let iters :=
    match _iters self !! sym with
    | Some _ => _iters self
    | None => <[sym := Created]> (_iters self)
    end in
  let '(yielded, g, prices) := _iter_for self sym (default Created (iters !! sym)) in
  let iters := <[sym := g]> iters in
  match yielded with
  | inr price =>
      (ret price,
       {| csv_root := csv_root self; timeframe := timeframe self;
          coins := coins self; _iters := iters;
          _last_price := <[sym := price]> prices |})
  | inl e =>
      (raise e,
       {| csv_root := csv_root self; timeframe := timeframe self;
          coins := coins self; _iters := iters; _last_price := prices |})
  end.

(** A run of [next_price] calls, one per symbol of [syms], in order. *)
Fixpoint calls (self : t) (syms : list string) : list (result float) * t :=
  match syms with
  | [] => ([], self)
  | sym :: syms' =>
      let '(r, self') := next_price self sym in
      let '(rs, self'') := calls self' syms' in
      (r :: rs, self'')
  end.
End Replay.

End BacktestPriceReplay.

(** ** [pt_backtest.py] *)

Module pt_backtest.

Definition candle : Type := float * float * float * float * float.

Record metrics : Type := {
  samples : Z;
  win_rate : float;
  hit_rate : float;
  avg_threshold : float
}.

Section Parse.
Context `{Builtins}.

(** The [try] block of [_parse_history_rows] for one raw row. *)
Definition _parse_history_rows_try (raw : string) : result candle :=
  values ← literal_eval raw;
  v0 ← getitem values 0;
  f0 ← to_float v0;
  v1 ← getitem values 1;
  f1 ← to_float v1;
  v2 ← getitem values 2;
  f2 ← to_float v2;
  v3 ← getitem values 3;
  f3 ← to_float v3;
  v4 ← getitem values 4;
  f4 ← to_float v4;
  ret (f0, f1, f2, f3, f4).

Definition _parse_history_rows (raw_rows : list string) : list candle :=
  List.fold_left
    (fun parsed raw =>
       match _parse_history_rows_try raw with
       | inr item => parsed ++ [item]
       | inl _ => parsed
       end)
    raw_rows [].
End Parse.

(** One pass of the loop of [_calc_metrics] over a row. *)
Definition _calc_metrics_step
    (acc : Z * Z * list float) (row : candle) : Z * Z * list float :=
  let '(wins, hits, thresholds) := acc in
  let '(_, open_price, close_price, high_price, low_price) := row in
  let wins := if PrimFloat.ltb open_price close_price then (wins + 1)%Z else wins in
  let intraday_move :=
    max2 (abs (high_price - open_price)) (abs (open_price - low_price)) in
  let hits := if PrimFloat.ltb 0 intraday_move then (hits + 1)%Z else hits in
  (wins, hits, thresholds ++ [abs (close_price - open_price)]).

Definition _calc_metrics `{Builtins} (rows : list candle) : metrics :=
  match rows with
  | [] =>
      {| samples := 0; win_rate := 0; hit_rate := 0; avg_threshold := 0 |}
  | _ :: _ =>
      let '(wins, hits, thresholds) :=
        List.fold_left _calc_metrics_step rows (0%Z, 0%Z, []) in
      let total := Z.of_nat (List.length rows) in
      {| samples := total;
         win_rate := int_truediv wins total;
         hit_rate := int_truediv hits total;
         avg_threshold :=
           match thresholds with
           | [] => 0
           | _ :: _ => float_sum thresholds / float_of_Z total
           end |}
  end.

(** A [defaultdict(list)], in insertion order. *)
Definition defaultdict (V : Type) : Type := list (string * list V).

(** [d[key].append(x)]: a missing key is first bound to an empty list. *)
Fixpoint dd_append {V} (key : string) (x : V) (d : defaultdict V) : defaultdict V :=
  match d with
  | [] => [(key, [x])]
  | (k, v) :: d' =>
      if String.eqb k key then (k, v ++ [x]) :: d'
      else (k, v) :: dd_append key x d'
  end.

Definition datasets_t : Type := defaultdict string.

(** The truth value of [allowed_coins]: [None] and an empty collection are
    both false. *)
Definition truthy (allowed_coins : option (list string)) : bool :=
  match allowed_coins with
  | None | Some [] => false
  | Some (_ :: _) => true
  end.

Definition contains (allowed_coins : option (list string)) (coin : string) : bool :=
  match allowed_coins with
  | None => false
  | Some l => List.existsb (String.eqb coin) l
  end.

Section Discover.
Context `{Host}.

(** The inner loop of [discover_datasets] over one timeframe folder. *)
Definition discover_coins
    (tf_path timeframe : string) (allowed_coins : option (list string))
    (coins : list string) (datasets : datasets_t) : datasets_t :=
  List.fold_left
    (fun datasets coin =>
       if truthy allowed_coins && negb (contains allowed_coins coin)
       then datasets
       else if negb (isdir (path_join tf_path coin)) then datasets
       else dd_append timeframe coin datasets)
    coins datasets.

Definition discover_datasets
    (root : string) (allowed_coins : option (list string))
  : result datasets_t :=
  timeframes ← listdir root;
  List.fold_left
    (fun acc timeframe =>
       datasets ← acc;
       let tf_path := path_join root timeframe in
       if negb (isdir tf_path) then ret datasets
       else
         coins ← listdir tf_path;
         ret (discover_coins tf_path timeframe allowed_coins
                (Py.sorted id String.ltb coins) datasets))
    (Py.sorted id String.ltb timeframes) (ret []).
End Discover.

(** *** Output

    What is written is kept as the expression that produces it: rendering
    a float as text is the interpreter's business, not the engine's. *)

#[warnings="-register-all"] Inductive text : Type :=
| Lit (s : string)
| IntStr (z : Z)                          (** [str(z)] *)
| FloatStr (x : float)                    (** [str(x)] *)
| FloatFixed (digits : nat) (x : float)   (** [f"{x:.<digits>f}"] *)
| Join (sep : string) (parts : list text).

Inductive json : Type :=
| JStr (s : string)
| JInt (z : Z).

Definition row : Type := list (string * text).

Inductive content : Type :=
| Text (body : text)                                  (** [fh.write(body)] *)
| JsonDump (obj : list (string * json))               (** [json.dump(obj, fh, indent=2)] *)
| CsvDict (fieldnames : list string) (rows : list row).
                                                      (** [DictWriter]: header, then rows *)

Inductive effect : Type :=
| MakeDirs (path : string)                 (** [os.makedirs(path, exist_ok=True)] *)
| WriteFile (path : string) (c : content)  (** [open(path, "w")] and what is written *)
| PrintLine (line : string).   (** [print(line)] *)

(** The process: how many times the clock was read, and the operations
    on the outside it has begun so far, in order; only the last of them
    can have raised. *)
Record world : Type := {
  ticks : nat;
  log : list effect
}.

(** How a run stops short: an exception nobody catches, or [SystemExit]
    raised with a message. *)
Inductive stop : Type :=
| Uncaught (e : exn)
| SystemExit (msg : string).

Definition io (A : Type) : Type := world -> (stop + A) * world.

Definition io_ret {A} (a : A) : io A := fun w => (inr a, w).

Definition io_bind {A B} (k : A -> io B) (m : io A) : io B :=
  fun w =>
    match m w with
    | (inl s, w') => (inl s, w')
    | (inr a, w') => k a w'
    end.

#[global] Instance io_mret : MRet io := @io_ret.
#[global] Instance io_mbind : MBind io := @io_bind.

(** An operation on the outside: it is begun, and it returns or raises. *)
Definition emit `{Host} (e : effect) : io unit :=
  fun w =>
    (match output_error (List.length (log w)) with
     | Some x => inl (Uncaught x)
     | None => inr tt
     end,
     {| ticks := ticks w; log := log w ++ [e] |}).

Definition lift {A} (r : result A) : io A :=
  fun w =>
    match r with
    | inl e => (inl (Uncaught e), w)
    | inr a => (inr a, w)
    end.

Definition sys_exit {A} (msg : string) : io A :=
  fun w => (inl (SystemExit msg), w).

(** A [for] loop that threads its local variables [acc]. *)
Fixpoint for_each {A S} (l : list A) (body : S -> A -> io S) (acc : S) : io S :=
  match l with
  | [] => mret acc
  | x :: l' => acc' ← body acc x; for_each l' body acc'
  end.

(** The exit status the interpreter reports for a run. *)
Definition exit_status {A} (r : stop + A) : Z :=
  match r with
  | inr _ => 0
  | inl (Uncaught _) => 1
  | inl (SystemExit _) => 1
  end.

(** The command line, as [parse_args] returns it. *)
Record args : Type := {
  data_dir : string;
  output_dir : string;
  per_coin_logs : bool;
  coin : option (list string)
}.

Section Main.
Context `{Builtins} `{Host}.

(** [int(time.time())] *)
Definition now : io Z :=
  fun w => (inr (epoch_seconds (ticks w)), {| ticks := S (ticks w); log := log w |}).

Definition ensure_dir (path : string) : io unit := emit (MakeDirs path).

Definition write_artifacts
    (output_root coin timeframe : string) (m : metrics)
    (raw_rows : list string) (started_at : Z) : io unit :=
  let coin_dir := path_join (path_join output_root coin) timeframe in
  _ ← ensure_dir coin_dir;
  _ ← emit (WriteFile (path_join coin_dir ("memories_" ++ timeframe ++ ".txt"))
              (Text (Join "~" (List.map Lit raw_rows))));
  _ ← emit (WriteFile (path_join coin_dir ("memory_weights_" ++ timeframe ++ ".txt"))
              (Text (Join " " (List.repeat (FloatStr (avg_threshold m)) 10))));
  _ ← emit (WriteFile
              (path_join coin_dir ("neural_perfect_threshold_" ++ timeframe ++ ".txt"))
              (Text (FloatStr (avg_threshold m))));
  finished_at ← now;
  timestamp ← now;
  emit (WriteFile (path_join coin_dir "trainer_status.json")
          (JsonDump [("coin", JStr coin); ("state", JStr "FINISHED");
                     ("started_at", JInt started_at);
                     ("finished_at", JInt finished_at);
                     ("timestamp", JInt timestamp);
                     ("mode", JStr "backtest")])).

Definition report_name : string := "backtest_report.csv".

Definition write_summary (output_root : string) (summary_rows : list row) : io unit :=
  _ ← ensure_dir output_root;
  emit (WriteFile (path_join output_root report_name)
          (CsvDict ["coin"; "timeframe"; "samples"; "win_rate"; "hit_rate";
                    "avg_threshold"] summary_rows)).

Definition write_coin_logs (output_root coin : string) (entries : list row) : io unit :=
  match entries with
  | [] => mret tt
  | _ :: _ =>
      let coin_dir := path_join output_root coin in
      _ ← ensure_dir coin_dir;
      emit (WriteFile (path_join coin_dir "backtest_log.csv")
              (CsvDict ["timeframe"; "samples"; "win_rate"; "hit_rate";
                        "avg_threshold"] entries))
  end.

(** The body of the two nested loops of [main] for one dataset. *)
Definition main_dataset
    (data_root output_root timeframe : string)
    (acc : list row * defaultdict row) (coin : string)
  : io (list row * defaultdict row) :=
  let '(summary_rows, per_coin_entries) := acc in
  started_at ← now;
  raw_rows ← lift (load_history coin timeframe infinity 0 "csv" data_root);
  let parsed_rows := _parse_history_rows raw_rows in
  let m := _calc_metrics parsed_rows in
  let summary_row : row :=
    [("coin", Lit coin);
     ("timeframe", Lit timeframe);
     ("samples", IntStr (samples m));
     ("win_rate", FloatFixed 4 (win_rate m));
     ("hit_rate", FloatFixed 4 (hit_rate m));
     ("avg_threshold", FloatFixed 8 (avg_threshold m))] in
  let summary_rows := summary_rows ++ [summary_row] in
  let per_coin_entries :=
    dd_append coin
      (List.filter (fun kv => negb (String.eqb (fst kv) "coin")) summary_row)
      per_coin_entries in
  _ ← write_artifacts output_root coin timeframe m raw_rows started_at;
  mret (summary_rows, per_coin_entries).

Definition no_datasets_message : string :=
  "No datasets found in the provided data directory".

(** [set(args.coin) if args.coin else None] *)
Definition main_allowed_coins (a : args) : option (list string) :=
  match coin a with
  | Some (c :: cs) => Some (c :: cs)
  | Some [] | None => None
  end.

Definition main (a : args) : io unit :=
  let data_root := abspath (data_dir a) in
  let output_root := abspath (output_dir a) in
  let allowed_coins := main_allowed_coins a in
  datasets ← lift (discover_datasets data_root allowed_coins);
  match datasets with
  | [] => sys_exit no_datasets_message
  | _ :: _ =>
      '(summary_rows, per_coin_entries) ←
        for_each datasets
          (fun acc '(timeframe, coins) =>
             for_each coins (main_dataset data_root output_root timeframe) acc)
          ([], []);
      _ ← write_summary output_root summary_rows;
      _ ← (if per_coin_logs a then
             for_each per_coin_entries
               (fun _ '(coin, entries) => write_coin_logs output_root coin entries) tt
           else mret tt);
      emit (PrintLine ("Backtest complete. Summary written to "
                     ++ path_join output_root report_name))
  end.

(** Running the script in a fresh process. *)
Definition run (a : args) : (stop + unit) * world :=
  main a {| ticks := 0; log := [] |}.
End Main.

End pt_backtest.

(** ** The engine's contract, in the words of its description *)

Module Spec.
Import pt_backtest.

(** A sequence of timestamps that never goes down. *)
Definition nondecreasing (ts : list float) : Prop :=
  StronglySorted (fun a b => PrimFloat.leb a b = true) ts.

(** Names in lexicographic order. *)
Definition lexicographic (names : list string) : Prop :=
  StronglySorted (fun a b => String.leb a b = true) names.

(** Decode-or-drop: the candle of a record that decodes, nothing otherwise. *)
Definition keep {A} (r : result A) : list A :=
  match r with
  | inr a => [a]
  | inl _ => []
  end.

(** Whether a record decodes. *)
Definition decodes {A} (r : result A) : bool :=
  match r with
  | inr _ => true
  | inl _ => false
  end.

(** A record that a parser reading the positions [reads] cannot decode:
    its text is no literal (invalid encoding), an item that is read is
    not there (wrong arity), or such an item is no number. *)
Inductive malformed `{Builtins} (reads : list nat) (raw : string) : Prop :=
| invalid_encoding (e : exn) :
    literal_eval raw = inl e -> malformed reads raw
| wrong_arity (v : value) (i : nat) (e : exn) :
    literal_eval raw = inr v -> In i reads -> getitem v i = inl e ->
    malformed reads raw
| non_numeric (v x : value) (i : nat) (e : exn) :
    literal_eval raw = inr v -> In i reads -> getitem v i = inr x ->
    to_float x = inl e -> malformed reads raw.

(** The values that are no number whatever they hold. *)
Definition never_number (x : value) : bool :=
  match x with
  | VNone | VEllipsis | VComplex _ _ | VList _ | VTuple _ | VSet _ | VDict _ => true
  | VBool _ | VInt _ | VFloat _ | VStr _ | VBytes _ => false
  end.

(** The positions the replay parser reads, and those the metrics parser
    reads. *)
Definition replay_reads : list nat := [0; 2].
Definition metrics_reads : list nat := [0; 1; 2; 3; 4].

(** The infinite price sequence of a symbol: its closes oldest to newest,
    then the last of them forever. *)
Definition stream (closes : list float) (n : nat) : float :=
  List.nth n closes (List.last closes 0%float).

(** The first [n] prices of that sequence. *)
Definition stream_prefix (closes : list float) (n : nat) : list float :=
  List.map (stream closes) (List.seq 0 n).

(** The spelling under which a symbol is looked up: upper-cased, trimmed. *)
Definition normalize `{Builtins} (sym : string) : string :=
  str_strip (str_upper sym).

(** The closes a symbol replays: those of its history, or the single
    price 0.0 when the history has none. *)
Definition replay_closes (closes : list float) : list float :=
  match closes with
  | [] => [0%float]
  | _ :: _ => closes
  end.

(** How many of the calls [syms] are for the symbol [s]. *)
Definition calls_for `{Builtins} (s : string) (syms : list string) : nat :=
  List.length (List.filter (fun sym => String.eqb (normalize sym) s) syms).

(** The replay state of the symbol [s] after [k] prices of [closes] were
    handed out by a stream over [root] and [tf]: no generator yet, or a
    generator suspended where [k] prices leave it, and the last of them
    recorded. *)
Definition tracks (root tf s : string) (closes : list float) (k : nat)
    (self : BacktestPriceReplay.t) : Prop :=
  BacktestPriceReplay.csv_root self = root /\
  BacktestPriceReplay.timeframe self = tf /\
  match k with
  | O => BacktestPriceReplay._iters self !! s = None
  | S j =>
      BacktestPriceReplay._last_price self !! s = Some (stream closes j) /\
      BacktestPriceReplay._iters self !! s
      = Some (if (k <=? List.length closes)%nat
              then BacktestPriceReplay.InFor (List.skipn k closes)
              else BacktestPriceReplay.InWhile)
  end.

Definition timestamp_of (c : candle) : float :=
  let '(ts, _, _, _, _) := c in ts.

(** A win: the candle closes above its open. *)
Definition is_win (c : candle) : bool :=
  let '(_, open_price, close_price, _, _) := c in
  PrimFloat.ltb open_price close_price.

(** A hit: the larger of |high - open| and |open - low| is above zero. *)
Definition is_hit (c : candle) : bool :=
  let '(_, open_price, _, high_price, low_price) := c in
  PrimFloat.ltb 0 (max2 (abs (high_price - open_price)) (abs (open_price - low_price))).

(** The threshold of a candle: |close - open|. *)
Definition threshold (c : candle) : float :=
  let '(_, open_price, close_price, _, _) := c in
  abs (close_price - open_price).

Definition count (p : candle -> bool) (rows : list candle) : Z :=
  Z.of_nat (List.length (List.filter p rows)).

Definition mean `{Builtins} (xs : list float) : float :=
  (float_sum xs / float_of_Z (Z.of_nat (List.length xs)))%float.

Definition zero_state : metrics :=
  {| samples := 0; win_rate := 0; hit_rate := 0; avg_threshold := 0 |}.

(** The aggregate of a non-empty candle sequence. *)
Definition aggregate `{Builtins} (rows : list candle) : metrics :=
  let n := Z.of_nat (List.length rows) in
  {| samples := n;
     win_rate := int_truediv (count is_win rows) n;
     hit_rate := int_truediv (count is_hit rows) n;
     avg_threshold := mean (List.map threshold rows) |}.

(** Whether the coin filter lets a coin through: a filter that is absent
    or empty lets every coin through. *)
Definition admits (allowed_coins : option (list string)) (coin : string) : bool :=
  negb (truthy allowed_coins) || contains allowed_coins coin.

(** What discovery records for one timeframe folder holding [coins]. *)
Definition entry (timeframe : string) (coins : list string) : datasets_t :=
  match coins with
  | [] => []
  | _ :: _ => [(timeframe, coins)]
  end.

(** Whether discovery keeps a name found in a timeframe folder: the
    filter lets it through and it is a directory. *)
Definition kept `{Host} (tf_path : string) (allowed_coins : option (list string))
    (coin : string) : bool :=
  admits allowed_coins coin && isdir (path_join tf_path coin).

(** What discovery records for one name found under the root. *)
Definition row_for `{Host} (root : string) (allowed_coins : option (list string))
    (timeframe : string) : datasets_t :=
  let tf_path := path_join root timeframe in
  if isdir tf_path then
    match listdir tf_path with
    | inr coins =>
        entry timeframe
          (List.filter (kept tf_path allowed_coins) (Py.sorted id String.ltb coins))
    | inl _ => []
    end
  else [].

(** The coins discovery lists under a timeframe. *)
Definition coins_of (d : datasets_t) (timeframe : string) : list string :=
  match List.find (fun kv => String.eqb (fst kv) timeframe) d with
  | Some kv => snd kv
  | None => []
  end.

(** A coin folder on disk: a directory, two levels under the root. *)
Definition coin_directory `{Host} (root timeframe coin : string) : Prop :=
  exists timeframes coins,
    listdir root = inr timeframes /\ In timeframe timeframes /\
    isdir (path_join root timeframe) = true /\
    listdir (path_join root timeframe) = inr coins /\ In coin coins /\
    isdir (path_join (path_join root timeframe) coin) = true.

(** The summary report was written during a run. *)
Definition summary_written (output_root : string) (w : world) : Prop :=
  exists c, In (WriteFile (path_join output_root report_name) c) (log w).

End Spec.

(** ** A data directory and its history, for concrete runs *)

Module Fixture.

Record disk : Type := {
  (** every directory, with the names it holds *)
  folders : list (string * list string);
  (** the raw rows the trainer loads for a timeframe and a symbol *)
  history : list (string * string * list string)
}.

Definition entries (d : disk) (path : string) : option (list string) :=
  snd <$> List.find (fun kv => String.eqb (fst kv) path) (folders d).

Definition rows_of (d : disk) (timeframe sym : string) : list string :=
  match
    List.find
      (fun kv => String.eqb (fst (fst kv)) timeframe && String.eqb (snd (fst kv)) sym)
      (history d)
  with
  | Some kv => snd kv
  | None => []
  end.

Definition host (d : disk) : Host := {|
  listdir path :=
    match entries d path with
    | Some names => ret names
    | None => raise FileNotFoundError
    end;
  isdir path := bool_decide (is_Some (entries d path));
  abspath path := path;
  load_history sym timeframe _ _ _ _ := ret (rows_of d timeframe sym);
  epoch_seconds n := (1700000000 + Z.of_nat n)%Z;
  output_error _ := None
|}.

Definition market : disk := {|
  folders :=
    [("/data", ["1hour"; "README.md"; "1day"; "4hour"]);
     ("/data/1hour", ["SOL"; "notes.txt"; "BTC"; "ETH"]);
     ("/data/1hour/BTC", ["btc.csv"]);
     ("/data/1hour/ETH", ["eth.csv"]);
     ("/data/1hour/SOL", []);
     ("/data/1day", ["ETH"]);
     ("/data/1day/ETH", ["eth.csv"]);
     ("/data/4hour", ["todo.txt"]);
     ("/empty", [])];
  history :=
    [("1hour", "BTC",
      ["[3, 10.0, 30.5, 31.0, 9.5, 7.0]"; "time,open,high,low,close";
       "[1, 10, 12, 13, 9]"; "[2, 12.0]"; "(2.0, 10, '8', 11, 7, 0)"]);
     ("1hour", "ETH", ["[5, 1, 2, 3"; "None"]);
     ("1day", "ETH", ["[2, 1, 1, 1, 1]"; "[1, 1, 1, 1, 1]"])]
|}.

End Fixture.

(** ** The same data directory behind a loader that is down for some
    symbols *)

Module Outage.

Definition host (d : Fixture.disk) (down : list string) : Host := {|
  listdir := @listdir (Fixture.host d);
  isdir := @isdir (Fixture.host d);
  abspath path := path;
  load_history sym timeframe _ _ _ _ :=
    if List.existsb (String.eqb sym) down then raise PermissionError
    else ret (Fixture.rows_of d timeframe sym);
  epoch_seconds n := (1700000000 + Z.of_nat n)%Z;
  output_error _ := None
|}.

End Outage.

(** ** The same data directory, and an outside that has room for so many
    operations and refuses every one after them *)

Module Quota.

Definition host (d : Fixture.disk) (room : nat) : Host := {|
  listdir := @listdir (Fixture.host d);
  isdir := @isdir (Fixture.host d);
  abspath path := path;
  load_history := @load_history (Fixture.host d);
  epoch_seconds n := (1700000000 + Z.of_nat n)%Z;
  output_error n := if (n <? room)%nat then None else Some OSError
|}.

End Quota.

(** ** Vocabulary of the further properties *)

Module Extra.
Import pt_backtest.

(** The timestamp and the close of a candle, as the replay parser pairs
    them. *)
Definition tick_of (c : candle) : float * float :=
  let '(ts, _, close_price, _, _) := c in (ts, close_price).

(** The datasets of a catalog in the order the orchestrator walks
    them: timeframe by timeframe, and coin by coin within each. *)
Definition jobs (d : datasets_t) : list (string * string) :=
  List.flat_map (fun kv => List.map (pair (fst kv)) (snd kv)) d.

(** The metrics of a raw history, as the orchestrator derives them. *)
Definition metrics_of `{Builtins} (raw_rows : list string) : metrics :=
  _calc_metrics (_parse_history_rows raw_rows).

(** The row of the summary report for a dataset (a timeframe and a coin)
    with the metrics [m]. *)
Definition summary_row (job : string * string) (m : metrics) : row :=
  [("coin", Lit (snd job));
   ("timeframe", Lit (fst job));
   ("samples", IntStr (samples m));
   ("win_rate", FloatFixed 4 (win_rate m));
   ("hit_rate", FloatFixed 4 (hit_rate m));
   ("avg_threshold", FloatFixed 8 (avg_threshold m))].

(** The entry of a coin's own log for one of its datasets: the summary
    row without the coin. *)
Definition coin_entry (job : string * string) (m : metrics) : row :=
  [("timeframe", Lit (fst job));
   ("samples", IntStr (samples m));
   ("win_rate", FloatFixed 4 (win_rate m));
   ("hit_rate", FloatFixed 4 (hit_rate m));
   ("avg_threshold", FloatFixed 8 (avg_threshold m))].

(** The folder that holds the artifacts of a dataset, and the files the
    orchestrator puts there. *)
Definition artifact_dir (output_root : string) (job : string * string) : string :=
  path_join (path_join output_root (snd job)) (fst job).

Definition artifact_names (timeframe : string) : list string :=
  [("memories_" ++ timeframe ++ ".txt")%string;
   ("memory_weights_" ++ timeframe ++ ".txt")%string;
   ("neural_perfect_threshold_" ++ timeframe ++ ".txt")%string;
   "trainer_status.json"].

(** An effect that makes the artifact folder of a dataset or writes one
    of its artifacts. *)
Definition is_artifact (output_root : string) (job : string * string) (e : effect)
  : Prop :=
  match e with
  | MakeDirs path => path = artifact_dir output_root job
  | WriteFile path _ =>
      exists name,
        In name (artifact_names (fst job))
        /\ path = path_join (artifact_dir output_root job) name
  | PrintLine _ => False
  end.



(** A process whose operations on the outside have all returned. *)
Definition healthy `{Host} (w : world) : Prop :=
  forall n, n < List.length (log w) -> output_error n = None.

(** An outcome in which an operation that raised is the last one that was
    begun, and what it raised is what ended the run. *)
Definition stops_at_failure `{Host} {A} (p : (stop + A) * world) : Prop :=
  forall n e,
    n < List.length (log (snd p)) -> output_error n = Some e ->
    S n = List.length (log (snd p)) /\ fst p = inl (Uncaught e).

(** A name that does not start at the root of the file system. *)
Definition relative (name : string) : bool :=
  match name with
  | String "/" _ => false
  | _ => true
  end.

(** The history of a dataset, as the orchestrator asks the trainer for
    it. *)
Definition history `{Host} (data_root : string) (job : string * string)
  : result (list string) :=
  load_history (snd job) (fst job) infinity 0 "csv" data_root.


(** Two outcomes of listing a directory that differ at most in the
    order of the names. *)
Definition same_listing (r1 r2 : result (list string)) : Prop :=
  match r1, r2 with
  | inr names1, inr names2 => Permutation names1 names2
  | inl e1, inl e2 => e1 = e2
  | _, _ => False
  end.


End Extra.

(** ** The same data directory on a system that lists names the other
    way round *)

Module Reversed.

Definition disk (d : Fixture.disk) : Fixture.disk := {|
  Fixture.folders :=
    List.map (fun kv => (fst kv, List.rev (snd kv))) (Fixture.folders d);
  Fixture.history := Fixture.history d
|}.

End Reversed.

(** ** [pt_offline_driver.py] *)

Module pt_offline_driver.

(** The command line, as [parse_args] returns it. *)
Record args : Type := {
  csv_root : string;
  timeframe : string;
  output_dir : string;
  gui_settings : option string;
  no_thinker : bool;
  no_trader : bool
}.

(** What a call to the outside can raise: an exception that derives from
    [Exception], or [KeyboardInterrupt], which does not. The driver
    computes nothing that raises by itself; an interrupt from the keyboard
    is taken as raised by the call that is under way. *)
Inductive raised : Type :=
| Exception (e : exn)
| KeyboardInterrupt.

(** The calls the driver makes to the outside. A child process is known
    by the rank, among all calls, of the call that launched it. *)
Inductive call : Type :=
| Say (line : string)                                   (** [print(line)] *)
| Popen (cmd : list string) (env : gmap string string)  (** [subprocess.Popen(cmd, env=env)] *)
| Wait (p : nat)                                        (** [p.wait()] *)
| Terminate (p : nat).                                  (** [p.terminate()] *)

(** The interpreter and the operating system, as the driver sees them. *)
Class Machine : Type := {
  (** [os.environ] *)
  environ : gmap string string;
  (** [sys.executable] *)
  executable : string;
  (** what a call raises, if it does, after the calls made before it *)
  raises : list call -> call -> option raised
}.

(** The run: the local list [procs] of [main], and the calls made so
    far. *)
Record state : Type := {
  procs : list nat;
  trace : list call
}.

Definition os (A : Type) : Type := state -> (raised + A) * state.

Definition os_ret {A} (a : A) : os A := fun s => (inr a, s).

Definition os_bind {A B} (k : A -> os B) (m : os A) : os B :=
  fun s =>
    match m s with
    | (inl r, s') => (inl r, s')
    | (inr a, s') => k a s'
    end.

#[global] Instance os_mret : MRet os := @os_ret.
#[global] Instance os_mbind : MBind os := @os_bind.

(** A [for] loop whose body returns nothing. *)
Fixpoint for_each {A} (l : list A) (body : A -> os unit) : os unit :=
  match l with
  | [] => mret tt
  | x :: l' => _ ← body x; for_each l' body
  end.

(** [for p in procs: body] *)
Definition for_procs (body : nat -> os unit) : os unit :=
  fun s => for_each (procs s) body s.

(** [try: body / except KeyboardInterrupt: pass] *)
Definition except_keyboard_interrupt (body : os unit) : os unit :=
  fun s =>
    match body s with
    | (inl KeyboardInterrupt, s') => (inr tt, s')
    | (r, s') => (r, s')
    end.

(** [try: body / except Exception: pass] *)
Definition except_exception (body : os unit) : os unit :=
  fun s =>
    match body s with
    | (inl (Exception _), s') => (inr tt, s')
    | (r, s') => (r, s')
    end.

(** [try: body / finally: cleanup]: the cleanup always runs; what it
    raises wins, otherwise the outcome is that of the body. *)
Definition try_finally (body cleanup : os unit) : os unit :=
  fun s =>
    let '(r, s') := body s in
    match cleanup s' with
    | (inl x, s'') => (inl x, s'')
    | (inr _, s'') => (r, s'')
    end.

Section Driver.
Context `{Host} `{Machine}.

(** A call to the outside: it is made, and it returns its rank or
    raises. *)
Definition perform (c : call) : os nat :=
  fun s =>
    (match raises (trace s) c with
     | Some r => inl r
     | None => inr (List.length (trace s))
     end,
     {| procs := procs s; trace := trace s ++ [c] |}).

Definition _launch_process (cmd : list string) (env : gmap string string) : os nat :=
  _ ← perform (Say ("Starting " ++ String.concat " " cmd));
  perform (Popen cmd env).

(** [procs.append(p)] *)
Definition procs_append (p : nat) : os unit :=
  fun s => (inr tt, {| procs := procs s ++ [p]; trace := trace s |}).

(** The environment [main] hands to the children. *)
Definition main_env (a : args) : gmap string string :=
  let env := environ in
  let env := <["POWERTRADER_MODE" := "backtest"]> env in
  let env := <["POWERTRADER_BACKTEST_CSV_ROOT" := abspath (csv_root a)]> env in
  let env := <["POWERTRADER_BACKTEST_TIMEFRAME" := timeframe a]> env in
  let env := <["POWERTRADER_BACKTEST_OUTPUT" := abspath (output_dir a)]> env in
  match gui_settings a with
  | Some (String c g) => <["POWERTRADER_GUI_SETTINGS" := abspath (String c g)]> env
  | Some EmptyString | None => env
  end.

(** The body of the [try] statement of [main]. *)
Definition main_try (a : args) (env : gmap string string) : os unit :=
  _ ← (if negb (no_thinker a)
       then p ← _launch_process [executable; "pt_thinker.py"] env; procs_append p
       else mret tt);
  _ ← (if negb (no_trader a)
       then p ← _launch_process [executable; "pt_trader.py"] env; procs_append p
       else mret tt);
  for_procs (fun p => _ ← perform (Wait p); mret tt).

(** The [finally] block of [main]. *)
Definition main_finally : os unit :=
  for_procs (fun p => except_exception (_ ← perform (Terminate p); mret tt)).

Definition main (a : args) : os unit :=
  let env := main_env a in
  try_finally (except_keyboard_interrupt (main_try a env)) main_finally.

(** Running the script in a fresh process. *)
Definition run (a : args) : (raised + unit) * state :=
  main a {| procs := []; trace := [] |}.

(** The children that were launched by the calls [rest], made after the
    calls [seen]: the ranks of the [Popen] calls that returned. *)
Fixpoint launched_from (seen rest : list call) : list nat :=
  match rest with
  | [] => []
  | c :: rest' =>
      match c, raises seen c with
      | Popen _ _, None => [List.length seen]
      | _, _ => []
      end ++ launched_from (seen ++ [c]) rest'
  end.

Definition launched (h : list call) : list nat := launched_from [] h.
End Driver.

Definition is_terminate (c : call) : bool :=
  match c with
  | Terminate _ => true
  | Say _ | Popen _ _ | Wait _ => false
  end.

End pt_offline_driver.

(** ** Vocabulary of the driver's properties *)

Module Children.
Import pt_offline_driver.

(** What holds of a run as long as its [try] block is at work: [procs]
    holds the children launched so far, and none was told to terminate. *)
Definition at_work `{Machine} (s : state) : Prop :=
  procs s = launched (trace s)
  /\ List.forallb (fun c => negb (is_terminate c)) (trace s) = true.

(** The ranks of the [Popen] calls among calls that start at rank [n]. *)
Fixpoint popens_from (n : nat) (l : list call) : list nat :=
  match l with
  | [] => []
  | Popen _ _ :: l' => n :: popens_from (S n) l'
  | (Say _ | Wait _ | Terminate _) :: l' => popens_from (S n) l'
  end.

(** The calls that launch a script. *)
Definition launch_calls `{Machine} (script : string) (env : gmap string string)
  : list call :=
  [Say ("Starting " ++ String.concat " " [executable; script]);
   Popen [executable; script] env].

(** The calls the driver means to make before it cleans up: it launches
    the thinker and the trader, unless told not to, and waits for each
    child in turn. *)
Definition plan `{Host} `{Machine} (a : args) : list call :=
  let launches :=
    (if no_thinker a then [] else launch_calls "pt_thinker.py" (main_env a))
    ++ (if no_trader a then [] else launch_calls "pt_trader.py" (main_env a)) in
  launches ++ List.map Wait (popens_from 0 launches).

(** The calls of [todo] that are made when they are made in order, after
    the calls [seen], until one of them raises. *)
Fixpoint performed `{Machine} (seen todo : list call) : list call :=
  match todo with
  | [] => []
  | c :: todo' =>
      c :: match raises seen c with
           | Some _ => []
           | None => performed (seen ++ [c]) todo'
           end
  end.

(** A call that, if it launches a child, launches a script with the
    driver's interpreter and the environment [env]. *)
Definition launches_with `{Machine} (env : gmap string string) (c : call) : Prop :=
  match c with
  | Popen cmd env' => env' = env /\ exists script, cmd = [executable; script]
  | Say _ | Wait _ | Terminate _ => True
  end.

(** The settings the driver hands down to the children by name. *)
Definition settings : list string :=
  ["POWERTRADER_MODE"; "POWERTRADER_BACKTEST_CSV_ROOT";
   "POWERTRADER_BACKTEST_TIMEFRAME"; "POWERTRADER_BACKTEST_OUTPUT";
   "POWERTRADER_GUI_SETTINGS"].

End Children.

(** ** A console at which the user may interrupt the wait for a child *)

Module Console.
Import pt_offline_driver.

Definition machine (interrupted : list nat) : Machine := {|
  environ := <["POWERTRADER_MODE" := "live"]> (<["PATH" := "/usr/bin"]> ∅);
  executable := "/usr/bin/python3";
  raises _ c :=
    match c with
    | Wait p =>
        if List.existsb (Nat.eqb p) interrupted then Some KeyboardInterrupt else None
    | Say _ | Popen _ _ | Terminate _ => None
    end
|}.

End Console.

(** * Properties *)

#[local] Set Warnings "-clear-no-such-hyp".

Import BacktestPriceReplay pt_backtest.

(** ** Order on floats and on names *)

Ltac cmp_cases :=
  repeat match goal with
  | |- context [Z.compare ?a ?b] => destruct (Z.compare_spec a b); subst
  | |- context [Pos.compare_cont Eq ?a ?b] =>
      change (Pos.compare_cont Eq a b) with (Pos.compare a b)
  | |- context [Pos.compare ?a ?b] => destruct (Pos.compare_spec a b); subst
  end.

Ltac float_cases :=
  simpl; try congruence;
  repeat match goal with s : bool |- _ => destruct s end;
  simpl; try congruence.

Lemma SFltb_asym x y : SFltb x y = true -> SFltb y x = false.
Proof.
  unfold SFltb.
  destruct x as [sx|sx| |sx mx ex], y as [sy|sy| |sy my ey]; float_cases;
    cmp_cases; simpl; try congruence; lia.
Qed.

Lemma SFltb_neg_trans x y z :
  SFeqb y y = true -> SFltb y x = false -> SFltb z y = false -> SFltb z x = false.
Proof.
  unfold SFltb, SFeqb.
  destruct x as [sx|sx| |sx mx ex], y as [sy|sy| |sy my ey],
           z as [sz|sz| |sz mz ez]; float_cases;
    intros _; cmp_cases; simpl; try congruence; lia.
Qed.

Lemma SFltb_neg_leb x y :
  SFeqb x x = true -> SFeqb y y = true -> SFltb y x = false -> SFleb x y = true.
Proof.
  unfold SFltb, SFeqb, SFleb.
  destruct x as [sx|sx| |sx mx ex], y as [sy|sy| |sy my ey]; float_cases;
    intros _ _; cmp_cases; simpl; try congruence; lia.
Qed.

Lemma is_nan_false f : is_nan f = false -> SFeqb (Prim2SF f) (Prim2SF f) = true.
Proof.
  unfold is_nan. rewrite FloatAxioms.eqb_spec. intros Hn. now apply negb_false_iff in Hn.
Qed.



Lemma float_ltb_asym (a b : float) : (a <? b)%float = true -> (b <? a)%float = false.
Proof. rewrite !FloatAxioms.ltb_spec. apply SFltb_asym. Qed.

Lemma float_ltb_neg_trans (a b c : float) :
  is_nan b = false ->
  (b <? a)%float = false -> (c <? b)%float = false -> (c <? a)%float = false.
Proof.
  intros Hb. rewrite !FloatAxioms.ltb_spec. apply SFltb_neg_trans. now apply is_nan_false.
Qed.

Lemma float_ltb_neg_leb (a b : float) :
  is_nan a = false -> is_nan b = false ->
  (b <? a)%float = false -> (a <=? b)%float = true.
Proof.
  intros Ha Hb. rewrite FloatAxioms.ltb_spec, FloatAxioms.leb_spec.
  apply SFltb_neg_leb; now apply is_nan_false.
Qed.

Lemma float_leb_not_nan (a b : float) : (a <=? b)%float = true -> is_nan a = false.
Proof.
  unfold is_nan. rewrite FloatAxioms.leb_spec, FloatAxioms.eqb_spec. unfold SFleb, SFeqb.
  destruct (Prim2SF a) as [sx|sx| |sx mx ex], (Prim2SF b) as [sy|sy| |sy my ey];
    float_cases; intros _; cmp_cases; simpl; try congruence; lia.
Qed.

Lemma float_leb_not_nan_r (a b : float) : (a <=? b)%float = true -> is_nan b = false.
Proof.
  unfold is_nan. rewrite FloatAxioms.leb_spec, FloatAxioms.eqb_spec. unfold SFleb, SFeqb.
  destruct (Prim2SF a) as [sx|sx| |sx mx ex], (Prim2SF b) as [sy|sy| |sy my ey];
    float_cases; intros _; cmp_cases; simpl; try congruence; lia.
Qed.

(** Among two or more timestamps in order, none is NaN. *)
Lemma nondecreasing_not_nan (ts : list float) (t : float) :
  Spec.nondecreasing ts -> 2 <= List.length ts -> In t ts -> is_nan t = false.
Proof.
  intros Hs Hlen Hin.
  destruct ts as [|x [|y ts]]; simpl in Hlen; try lia.
  inversion Hs as [|? ? _ Hall]; subst.
  destruct Hin as [<- | Hin].
  - inversion Hall as [|? ? Hxy _]; subst. now apply (float_leb_not_nan x y).
  - rewrite List.Forall_forall in Hall. now apply (float_leb_not_nan_r x t), Hall.
Qed.

Lemma ascii_compare_trans (a b c : ascii) :
  Ascii.compare a b = Lt -> Ascii.compare b c = Lt -> Ascii.compare a c = Lt.
Proof.
  unfold Ascii.compare. rewrite !N.compare_lt_iff. lia.
Qed.

Lemma string_compare_trans (a b c : string) :
  String.compare a b = Lt -> String.compare b c = Lt -> String.compare a c = Lt.
Proof.
  revert b c. induction a as [|x a IH]; intros [|y b] [|z c]; simpl; try congruence.
  destruct (Ascii.compare x y) eqn:Hxy; try congruence.
  - apply Ascii.compare_eq_iff in Hxy. subst y.
    destruct (Ascii.compare x z) eqn:Hxz; try congruence. apply IH.
  - intros _. destruct (Ascii.compare y z) eqn:Hyz; try congruence.
    + apply Ascii.compare_eq_iff in Hyz. subst z. now rewrite Hxy.
    + now rewrite (ascii_compare_trans x y z).
Qed.

Lemma string_ltb_asym (a b : string) : String.ltb a b = true -> String.ltb b a = false.
Proof.
  unfold String.ltb. rewrite (String.compare_antisym b a).
  now destruct (String.compare a b).
Qed.

Lemma string_ltb_neg_trans (a b c : string) :
  String.ltb b a = false -> String.ltb c b = false -> String.ltb c a = false.
Proof.
  unfold String.ltb.
  destruct (String.compare b a) eqn:Hba; try congruence; intros _;
    destruct (String.compare c b) eqn:Hcb; try congruence; intros _.
  - apply String.compare_eq_iff in Hba, Hcb. subst.
    destruct (String.compare a a) eqn:E; try reflexivity.
    pose proof (String.compare_antisym a a) as Ha. rewrite E in Ha. discriminate.
  - apply String.compare_eq_iff in Hba. subst. now rewrite Hcb.
  - apply String.compare_eq_iff in Hcb. subst. now rewrite Hba.
  - destruct (String.compare c a) eqn:Hca; try reflexivity.
    assert (Hab : String.compare a b = Lt)
      by (rewrite String.compare_antisym, Hba; reflexivity).
    rewrite (string_compare_trans c a b Hca Hab) in Hcb. discriminate.
Qed.

Lemma string_ltb_neg_leb (a b : string) : String.ltb b a = false -> String.leb a b = true.
Proof.
  unfold String.ltb, String.leb. rewrite (String.compare_antisym b a).
  now destruct (String.compare a b).
Qed.

(** ** [sorted] arranges its input in order *)

Section SortingFacts.
Context {A K : Type} (key : A -> K) (lt : K -> K -> bool) (dom : K -> Prop).
Hypothesis lt_asym : forall a b, lt a b = true -> lt b a = false.
Hypothesis lt_neg_trans :
  forall a b c, dom b -> lt b a = false -> lt c b = false -> lt c a = false.

Lemma insort_perm (x : A) (l : list A) : Permutation (insort key lt x l) (x :: l).
Proof.
  induction l as [|y l IH]; simpl; [reflexivity|].
  destruct (lt (key y) (key x)); [|reflexivity].
  rewrite IH. apply perm_swap.
Qed.

Lemma sorted_perm (l : list A) : Permutation (Py.sorted key lt l) l.
Proof.
  induction l as [|x l IH]; simpl; [reflexivity|].
  rewrite insort_perm. now constructor.
Qed.

Lemma insort_ordered (x : A) (l : list A) :
  Forall (fun a => dom (key a)) l ->
  StronglySorted (fun a b => lt (key b) (key a) = false) l ->
  StronglySorted (fun a b => lt (key b) (key a) = false) (insort key lt x l).
Proof.
  induction l as [|y l IH]; simpl; intros Hdom Hs.
  - repeat constructor.
  - inversion Hdom as [|? ? Hy Hl]; subst.
    inversion Hs as [|? ? Hs' Hall]; subst.
    destruct (lt (key y) (key x)) eqn:E.
    + constructor; [now apply IH|].
      eapply Permutation_Forall; [symmetry; apply insort_perm|].
      constructor; [now apply lt_asym | exact Hall].
    + constructor; [exact Hs|].
      constructor; [exact E|].
      eapply List.Forall_impl; [|exact Hall].
      intros z Hz. simpl in Hz. now apply (lt_neg_trans (key x) (key y) (key z)).
Qed.

Lemma sorted_ordered (l : list A) :
  Forall (fun a => dom (key a)) l ->
  StronglySorted (fun a b => lt (key b) (key a) = false) (Py.sorted key lt l).
Proof.
  induction l as [|x l IH]; simpl; intros Hdom.
  - constructor.
  - inversion Hdom; subst. apply insort_ordered.
    + eapply Permutation_Forall; [symmetry; apply sorted_perm | assumption].
    + now apply IH.
Qed.

(** The sort is stable: the items whose keys tie with [k] (neither is
    below the other) keep the order they had in the input. *)
Lemma insort_ties (k : K) (x : A) (l : list A) :
  dom k ->
  List.filter (fun a => negb (lt (key a) k) && negb (lt k (key a))) (insort key lt x l)
  = List.filter (fun a => negb (lt (key a) k) && negb (lt k (key a))) (x :: l).
Proof.
  intros Hk. induction l as [|y l IH]; [reflexivity|].
  simpl insort. destruct (lt (key y) (key x)) eqn:E; [|reflexivity].
  simpl List.filter in *. rewrite IH.
  destruct (negb (lt (key x) k) && negb (lt k (key x))) eqn:Ex; [|reflexivity].
  destruct (negb (lt (key y) k) && negb (lt k (key y))) eqn:Ey; [|reflexivity].
  apply andb_true_iff in Ex as [_ Hkx], Ey as [Hyk _].
  apply negb_true_iff in Hkx, Hyk.
  rewrite (lt_neg_trans (key x) k (key y) Hk Hkx Hyk) in E. discriminate.
Qed.

Lemma sorted_stable (k : K) (l : list A) :
  dom k ->
  List.filter (fun a => negb (lt (key a) k) && negb (lt k (key a))) (Py.sorted key lt l)
  = List.filter (fun a => negb (lt (key a) k) && negb (lt k (key a))) l.
Proof.
  intros Hk. induction l as [|x l IH]; [reflexivity|].
  simpl Py.sorted. rewrite (insort_ties k x _ Hk). simpl. now rewrite IH.
Qed.

End SortingFacts.

Lemma StronglySorted_map {A B} (f : A -> B) (R : B -> B -> Prop) (l : list A) :
  StronglySorted (fun a b => R (f a) (f b)) l -> StronglySorted R (List.map f l).
Proof.
  induction 1 as [|a l Hs IH Hall]; simpl; constructor; [exact IH|].
  apply List.Forall_map. exact Hall.
Qed.

Lemma StronglySorted_weaken {A} (P : A -> Prop) (R S : A -> A -> Prop) (l : list A) :
  (forall a b, P a -> P b -> R a b -> S a b) ->
  Forall P l -> StronglySorted R l -> StronglySorted S l.
Proof.
  intros HRS Hp Hs. induction Hs as [|a l Hs IH Hall]; constructor.
  - apply IH. now inversion Hp.
  - inversion Hp as [|? ? Ha Hl]; subst.
    rewrite List.Forall_forall in *. intros b Hb. apply HRS; auto.
Qed.

Lemma StronglySorted_filter {A} (R : A -> A -> Prop) (p : A -> bool) (l : list A) :
  StronglySorted R l -> StronglySorted R (List.filter p l).
Proof.
  induction 1 as [|a l Hs IH Hall]; simpl; [constructor|].
  destruct (p a); [|exact IH].
  constructor; [exact IH|].
  rewrite List.Forall_forall in *. intros b Hb. apply Hall.
  apply List.filter_In in Hb. tauto.
Qed.

(** [sorted] on names gives lexicographic order. *)
Lemma sorted_names_lexicographic (names : list string) :
  Spec.lexicographic (Py.sorted id String.ltb names).
Proof.
  unfold Spec.lexicographic.
  apply (StronglySorted_weaken (fun _ => True)
           (fun a b => String.ltb (id b) (id a) = false)).
  - intros a b _ _. apply string_ltb_neg_leb.
  - apply List.Forall_forall. trivial.
  - apply (sorted_ordered id String.ltb (fun _ => True)).
    + apply string_ltb_asym.
    + intros a b c _. apply string_ltb_neg_trans.
    + apply List.Forall_forall. trivial.
Qed.

(** ** The parsers *)

Section ParserFacts.
Context `{Builtins}.

(** The collecting loop both parsers share: decode each row on its own
    and append what decodes. *)
Lemma collect_flat_map {A B} (f : A -> result B) (rows : list A) (acc : list B) :
  List.fold_left
    (fun parsed raw =>
       match f raw with
       | inr item => parsed ++ [item]
       | inl _ => parsed
       end) rows acc
  = acc ++ List.flat_map (fun raw => Spec.keep (f raw)) rows.
Proof.
  revert acc. induction rows as [|raw rows IH]; intros acc; simpl.
  - now rewrite app_nil_r.
  - rewrite IH. destruct (f raw); simpl; [reflexivity|].
    now rewrite <- app_assoc.
Qed.

Lemma parse_rows_loop_flat_map (rows : list string) :
  _parse_rows_loop rows = List.flat_map (fun raw => Spec.keep (_parse_rows_try raw)) rows.
Proof. unfold _parse_rows_loop. now rewrite collect_flat_map. Qed.

Lemma parse_history_rows_flat_map (rows : list string) :
  _parse_history_rows rows
  = List.flat_map (fun raw => Spec.keep (_parse_history_rows_try raw)) rows.
Proof. unfold _parse_history_rows. now rewrite collect_flat_map. Qed.

Lemma parse_rows_perm (rows : list string) :
  Permutation (_parse_rows rows)
    (List.flat_map (fun raw => Spec.keep (_parse_rows_try raw)) rows).
Proof.
  unfold _parse_rows. rewrite sort_by_first_perm.
  now rewrite parse_rows_loop_flat_map.
Qed.

(** With no NaN among the timestamps, the sort of the replay parser is
    the stable sort. *)
Lemma parse_rows_sorted (rows : list string) :
  (forall item, In item (_parse_rows rows) -> is_nan (fst item) = false) ->
  _parse_rows rows = Py.sorted fst PrimFloat.ltb (_parse_rows_loop rows).
Proof.
  intros Hnan. unfold _parse_rows. apply sort_by_first_ordered.
  intros item Hin. apply Hnan. unfold _parse_rows.
  eapply Permutation_in; [symmetry; apply sort_by_first_perm | exact Hin].
Qed.

Lemma parse_rows_nondecreasing (rows : list string) :
  (forall item, In item (_parse_rows rows) -> is_nan (fst item) = false) ->
  Spec.nondecreasing (List.map fst (_parse_rows rows)).
Proof.
  intros Hnan. unfold Spec.nondecreasing.
  apply StronglySorted_map.
  assert (Hall : Forall (fun item : float * float => is_nan (fst item) = false)
                   (_parse_rows rows)) by now apply List.Forall_forall.
  apply (StronglySorted_weaken (fun item : float * float => is_nan (fst item) = false)
           (fun a b => PrimFloat.ltb (fst b) (fst a) = false)); [| exact Hall |].
  - intros a b Ha Hb. now apply float_ltb_neg_leb.
  - rewrite (parse_rows_sorted rows Hnan) in Hall |- *.
    apply (sorted_ordered fst PrimFloat.ltb (fun t => is_nan t = false)).
    + apply float_ltb_asym.
    + intros a b c. apply float_ltb_neg_trans.
    + eapply Permutation_Forall; [apply (sorted_perm fst PrimFloat.ltb) | exact Hall].
Qed.

(** Records of the replay parser whose timestamps tie come out in the
    order of the input. *)
Lemma parse_rows_stable (rows : list string) (t : float) :
  (forall item, In item (_parse_rows rows) -> is_nan (fst item) = false) ->
  is_nan t = false ->
  List.filter (fun item => negb (fst item <? t)%float && negb (t <? fst item)%float)
    (_parse_rows rows)
  = List.filter (fun item => negb (fst item <? t)%float && negb (t <? fst item)%float)
      (List.flat_map (fun raw => Spec.keep (_parse_rows_try raw)) rows).
Proof.
  intros Hnan Ht. rewrite (parse_rows_sorted rows Hnan).
  rewrite <- parse_rows_loop_flat_map.
  apply (sorted_stable fst PrimFloat.ltb (fun t => is_nan t = false)).
  - intros a b c. apply float_ltb_neg_trans.
  - exact Ht.
Qed.

Lemma keep_length {A B} (f : A -> result B) (rows : list A) :
  List.length (List.flat_map (fun raw => Spec.keep (f raw)) rows)
  = List.length (List.filter (fun raw => Spec.decodes (f raw)) rows).
Proof.
  induction rows as [|raw rows IH]; simpl; [reflexivity|].
  rewrite length_app, IH. now destruct (f raw).
Qed.

Lemma keep_drop {A B} (f : A -> result B) (pre post : list A) (bad : A) (e : exn) :
  f bad = inl e ->
  List.flat_map (fun raw => Spec.keep (f raw)) (pre ++ bad :: post)
  = List.flat_map (fun raw => Spec.keep (f raw)) (pre ++ post).
Proof.
  intros Hbad. rewrite !List.flat_map_app. simpl. now rewrite Hbad.
Qed.

Lemma parse_rows_drop (pre post : list string) (bad : string) (e : exn) :
  _parse_rows_try bad = inl e ->
  _parse_rows (pre ++ bad :: post) = _parse_rows (pre ++ post).
Proof.
  intros Hbad. unfold _parse_rows.
  now rewrite !parse_rows_loop_flat_map, (keep_drop _ pre post bad e Hbad).
Qed.

Lemma parse_history_rows_drop (pre post : list string) (bad : string) (e : exn) :
  _parse_history_rows_try bad = inl e ->
  _parse_history_rows (pre ++ bad :: post) = _parse_history_rows (pre ++ post).
Proof.
  intros Hbad.
  now rewrite !parse_history_rows_flat_map, (keep_drop _ pre post bad e Hbad).
Qed.

Lemma string_get_short (s : string) (i : nat) :
  String.length s <= i -> String.get i s = None.
Proof.
  revert i. induction s as [|c s IH]; intros i Hlen; simpl in *; [reflexivity|].
  destruct i as [|i]; [lia|]. apply IH. lia.
Qed.

(** Indexing a sequence at or past its length raises. *)
Lemma getitem_short (v : value) (n i : nat) :
  seq_len v = Some n -> n <= i -> getitem v i = inl IndexError.
Proof.
  intros Hlen Hi.
  destruct v; simpl in *; try discriminate; injection Hlen as <-.
  - now rewrite string_get_short.
  - now rewrite string_get_short.
  - now rewrite (proj2 (List.nth_error_None items i)).
  - now rewrite (proj2 (List.nth_error_None items i)).
Qed.

Lemma parse_rows_try_short (raw : string) (v : value) (n : nat) :
  literal_eval raw = inr v -> seq_len v = Some n -> n < 3 ->
  exists e, _parse_rows_try raw = inl e.
Proof.
  intros Hv Hlen Hn. unfold _parse_rows_try. rewrite Hv. simpl.
  destruct (getitem v 0) as [e|v0]; simpl; [now exists e|].
  destruct (to_float v0) as [e|ts]; simpl; [now exists e|].
  rewrite (getitem_short v n 2 Hlen) by lia. now exists IndexError.
Qed.

Lemma parse_history_rows_try_short (raw : string) (v : value) (n : nat) :
  literal_eval raw = inr v -> seq_len v = Some n -> n < 5 ->
  exists e, _parse_history_rows_try raw = inl e.
Proof.
  intros Hv Hlen Hn. unfold _parse_history_rows_try. rewrite Hv. simpl.
  destruct (getitem v 0) as [e|v0]; simpl; [now exists e|].
  destruct (to_float v0) as [e|f0]; simpl; [now exists e|].
  destruct (getitem v 1) as [e|v1]; simpl; [now exists e|].
  destruct (to_float v1) as [e|f1]; simpl; [now exists e|].
  destruct (getitem v 2) as [e|v2]; simpl; [now exists e|].
  destruct (to_float v2) as [e|f2]; simpl; [now exists e|].
  destruct (getitem v 3) as [e|v3]; simpl; [now exists e|].
  destruct (to_float v3) as [e|f3]; simpl; [now exists e|].
  rewrite (getitem_short v n 4 Hlen) by lia. now exists IndexError.
Qed.

End ParserFacts.

(** ** Parsing: order, tolerance, field positions *)




(** *** What fails to decode *)

Ltac read_field Hv v i :=
  let e := fresh "e" in
  let x := fresh "x" in
  let f := fresh "f" in
  let Hg := fresh "Hg" in
  let Hf := fresh "Hf" in
  destruct (getitem v i) as [e|x] eqn:Hg; simpl;
  [intros _; refine (Spec.wrong_arity _ _ v i e Hv _ Hg); simpl; tauto
  |destruct (to_float x) as [e|f] eqn:Hf; simpl;
   [intros _; refine (Spec.non_numeric _ _ v x i e Hv _ Hg Hf); simpl; tauto|]].

Ltac fails_at :=
  repeat first
    [ reflexivity
    | match goal with
      | H : getitem ?v ?i = _ |- context [getitem ?v ?i] => rewrite H; simpl
      | H : to_float ?x = _ |- context [to_float ?x] => rewrite H; simpl
      end
    | match goal with
      | |- context [getitem ?v 0] => destruct (getitem v 0); simpl
      | |- context [getitem ?v 1] => destruct (getitem v 1); simpl
      | |- context [getitem ?v 2] => destruct (getitem v 2); simpl
      | |- context [getitem ?v 3] => destruct (getitem v 3); simpl
      | |- context [getitem ?v 4] => destruct (getitem v 4); simpl
      | |- context [to_float ?x] => destruct (to_float x); simpl
      end ].

(** The replay parser fails on a record exactly when the record is
    malformed at the positions 0 and 2. *)
Lemma parse_rows_try_malformed `{Builtins} (raw : string) :
  Spec.decodes (_parse_rows_try raw) = false <-> Spec.malformed Spec.replay_reads raw.
Proof.
  unfold Spec.replay_reads. split.
  - unfold _parse_rows_try.
    destruct (literal_eval raw) as [e|v] eqn:Hv; simpl;
      [intros _; exact (Spec.invalid_encoding _ _ e Hv)|].
    read_field Hv v 0. read_field Hv v 2. discriminate.
  - intros [e Hv | v i e Hv Hi Hg | v x i e Hv Hi Hg Hf];
      unfold _parse_rows_try; rewrite Hv; simpl; [reflexivity| |];
      destruct Hi as [<- | [<- | []]]; fails_at.
Qed.

(** The metrics parser fails on a record exactly when the record is
    malformed at the positions 0 to 4. *)
Lemma parse_history_rows_try_malformed `{Builtins} (raw : string) :
  Spec.decodes (_parse_history_rows_try raw) = false
  <-> Spec.malformed Spec.metrics_reads raw.
Proof.
  unfold Spec.metrics_reads. split.
  - unfold _parse_history_rows_try.
    destruct (literal_eval raw) as [e|v] eqn:Hv; simpl;
      [intros _; exact (Spec.invalid_encoding _ _ e Hv)|].
    read_field Hv v 0. read_field Hv v 1. read_field Hv v 2.
    read_field Hv v 3. read_field Hv v 4. discriminate.
  - intros [e Hv | v i e Hv Hi Hg | v x i e Hv Hi Hg Hf];
      unfold _parse_history_rows_try; rewrite Hv; simpl; [reflexivity| |];
      destruct Hi as [<- | [<- | [<- | [<- | [<- | []]]]]]; fails_at.
Qed.

Lemma decodes_false {A} (r : result A) :
  Spec.decodes r = false -> exists e, r = inl e.
Proof. destruct r as [e|a]; [now exists e | discriminate]. Qed.

Lemma parse_rows_malformed_drop `{Builtins} (pre post : list string) (bad : string) :
  Spec.malformed Spec.replay_reads bad ->
  _parse_rows (pre ++ bad :: post) = _parse_rows (pre ++ post).
Proof.
  intros Hbad. apply parse_rows_try_malformed, decodes_false in Hbad as [e He].
  exact (parse_rows_drop pre post bad e He).
Qed.

Lemma parse_history_rows_malformed_drop `{Builtins} (pre post : list string)
    (bad : string) :
  Spec.malformed Spec.metrics_reads bad ->
  _parse_history_rows (pre ++ bad :: post) = _parse_history_rows (pre ++ post).
Proof.
  intros Hbad. apply parse_history_rows_try_malformed, decodes_false in Hbad as [e He].
  exact (parse_history_rows_drop pre post bad e He).
Qed.

(** A sequence too short for a position that is read is a record of the
    wrong arity. *)
Lemma short_malformed `{Builtins} (reads : list nat) (raw : string) (v : value)
    (n i : nat) :
  literal_eval raw = inr v -> seq_len v = Some n -> In i reads -> n <= i ->
  Spec.malformed reads raw.
Proof.
  intros Hv Hlen Hi Hn.
  exact (Spec.wrong_arity reads raw v i IndexError Hv Hi (getitem_short v n i Hlen Hn)).
Qed.

(** An item that is no number, at a position that is read. *)
Lemma never_number_malformed `{Builtins} (reads : list nat) (raw : string)
    (v x : value) (i : nat) :
  literal_eval raw = inr v -> In i reads -> getitem v i = inr x ->
  Spec.never_number x = true -> Spec.malformed reads raw.
Proof.
  intros Hv Hi Hg Hx.
  apply (Spec.non_numeric reads raw v x i TypeError Hv Hi Hg).
  destruct x; try discriminate Hx; reflexivity.
Qed.

(** *** Containers and positions *)










(** C1 (amended). The replay parser returns its records in non-decreasing
    timestamp order whenever none of the timestamps it returns is NaN. The
    metrics parser does not sort: it returns the records that decode in the
    order of the input. *)
Theorem parsed_order `{Builtins} (rows : list string) :
  ((forall item, In item (_parse_rows rows) -> is_nan (fst item) = false) ->
   Spec.nondecreasing (List.map fst (_parse_rows rows)))
  /\ _parse_history_rows rows
     = List.flat_map (fun raw => Spec.keep (_parse_history_rows_try raw)) rows.
Proof.
  split.
  - apply parse_rows_nondecreasing.
  - apply parse_history_rows_flat_map.
Qed.

Lemma parsed_order_witness :
  Spec.nondecreasing
    (List.map fst
       (@_parse_rows Literal.builtins
          ["[3, 10, 30.5]"; "[1, 10, 12]"; "oops"; "[2, 10, 8]"])).
Proof.
  apply (proj1 (@parsed_order Literal.builtins
                  ["[3, 10, 30.5]"; "[1, 10, 12]"; "oops"; "[2, 10, 8]"])).
  vm_compute. intros item [<- | [<- | [<- | []]]]; reflexivity.
Defined.

(** C1 as stated fails: the metrics parser hands back two records in the
    order it met them, newest first. *)
Lemma parsed_order_counterexample :
  ~ (forall rows : list string,
       Spec.nondecreasing (List.map fst (@_parse_rows Literal.builtins rows))
       /\ Spec.nondecreasing
            (List.map Spec.timestamp_of (@_parse_history_rows Literal.builtins rows))).
Proof.
  intros Hall.
  destruct (Hall ["[2, 1, 1, 1, 1]"; "[1, 1, 1, 1, 1]"]) as [_ Hm].
  vm_compute in Hm.
  inversion Hm as [|? ? _ Hfirst]. inversion Hfirst as [|? ? Hle _].
  vm_compute in Hle. discriminate Hle.
Qed.

(** A NaN timestamp, which [float] accepts from the text [nan], is in no
    order with the others: wherever the sort leaves it, the output is not
    non-decreasing. *)
Example parse_rows_nan_unordered :
  forall out,
    Permutation out (@_parse_rows Literal.builtins ["['nan', 0, 1]"; "[1, 0, 2]"]) ->
    ~ Spec.nondecreasing (List.map fst out).
Proof.
  intros out Hperm Hs.
  assert (Hnan : is_nan nan = false).
  { apply (nondecreasing_not_nan (List.map fst out)); [exact Hs | |].
    - rewrite length_map, (Permutation_length Hperm). vm_compute. lia.
    - apply (in_map fst out (nan, 1%float)).
      eapply Permutation_in; [symmetry; exact Hperm|]. vm_compute. now left. }
  vm_compute in Hnan. discriminate Hnan.
Qed.

(** C6. Each record is decoded on its own and a record that fails to
    decode is dropped. Both parsers return exactly the records that decode
    (the metrics parser in input order, the replay parser sorted), as many
    as there are decodable rows. A record fails to decode exactly when it
    is malformed at the positions its parser reads, 0 and 2 for the replay
    parser and 0 to 4 for the metrics parser: its text is no literal, or
    an item read is missing, or such an item is no number. So does a
    sequence too short for a position read, and a record with an item
    there that is [None], a list or another value that is never a number.
    A malformed record can be removed from the input without changing the
    result. *)
Theorem malformed_rows_dropped `{Builtins} (rows : list string) :
  _parse_history_rows rows
  = List.flat_map (fun raw => Spec.keep (_parse_history_rows_try raw)) rows
  /\ Permutation (_parse_rows rows)
       (List.flat_map (fun raw => Spec.keep (_parse_rows_try raw)) rows)
  /\ List.length (_parse_history_rows rows)
     = List.length
         (List.filter (fun raw => Spec.decodes (_parse_history_rows_try raw)) rows)
  /\ List.length (_parse_rows rows)
     = List.length (List.filter (fun raw => Spec.decodes (_parse_rows_try raw)) rows)
  /\ (forall raw,
        Spec.decodes (_parse_history_rows_try raw) = false
        <-> Spec.malformed Spec.metrics_reads raw)
  /\ (forall raw,
        Spec.decodes (_parse_rows_try raw) = false
        <-> Spec.malformed Spec.replay_reads raw)
  /\ (forall reads raw v n i,
        literal_eval raw = inr v -> seq_len v = Some n -> In i reads -> n <= i ->
        Spec.malformed reads raw)
  /\ (forall reads raw v x i,
        literal_eval raw = inr v -> In i reads -> getitem v i = inr x ->
        Spec.never_number x = true -> Spec.malformed reads raw)
  /\ (forall pre bad post,
        rows = pre ++ bad :: post -> Spec.malformed Spec.metrics_reads bad ->
        _parse_history_rows rows = _parse_history_rows (pre ++ post))
  /\ (forall pre bad post,
        rows = pre ++ bad :: post -> Spec.malformed Spec.replay_reads bad ->
        _parse_rows rows = _parse_rows (pre ++ post)).
Proof.
  repeat apply conj.
  - apply parse_history_rows_flat_map.
  - apply parse_rows_perm.
  - rewrite parse_history_rows_flat_map. apply keep_length.
  - rewrite (Permutation_length (parse_rows_perm rows)). apply keep_length.
  - apply parse_history_rows_try_malformed.
  - apply parse_rows_try_malformed.
  - apply short_malformed.
  - apply never_number_malformed.
  - intros pre bad post -> Hbad. now apply parse_history_rows_malformed_drop.
  - intros pre bad post -> Hbad. now apply parse_rows_malformed_drop.
Qed.

(** Three well-formed records mixed with a header line, which is no
    literal, and a record of two items: exactly the three candles come
    out of the metrics parser, and their timestamps and closes out of the
    replay parser. *)
Lemma malformed_rows_dropped_witness :
  @_parse_history_rows Literal.builtins
    ["[1, 10, 12, 13, 9]"; "time,open,high,low,close"; "[2, 10, 8, 11, 7]";
     "[3, 9.5]"; "[3, 8, 8.5, 9, 8, 120.0]"]
  = [(1, 10, 12, 13, 9)%float; (2, 10, 8, 11, 7)%float; (3, 8, 8.5, 9, 8)%float]
  /\ @_parse_rows Literal.builtins
       ["[1, 10, 12, 13, 9]"; "time,open,high,low,close"; "[2, 10, 8, 11, 7]";
        "[3, 9.5]"; "[3, 8, 8.5, 9, 8, 120.0]"]
     = [(1, 12)%float; (2, 8)%float; (3, 8.5)%float].
Proof.
  pose proof (@malformed_rows_dropped Literal.builtins
                ["[1, 10, 12, 13, 9]"; "time,open,high,low,close";
                 "[2, 10, 8, 11, 7]"; "[3, 9.5]"; "[3, 8, 8.5, 9, 8, 120.0]"])
    as (_ & _ & _ & _ & _ & _ & Hshort & _ & Hmetrics & Hreplay).
  pose proof (@malformed_rows_dropped Literal.builtins
                ["[1, 10, 12, 13, 9]"; "time,open,high,low,close";
                 "[2, 10, 8, 11, 7]"; "[3, 8, 8.5, 9, 8, 120.0]"])
    as (_ & _ & _ & _ & _ & _ & _ & _ & Hmetrics' & Hreplay').
  split.
  - rewrite (Hmetrics ["[1, 10, 12, 13, 9]"; "time,open,high,low,close";
                      "[2, 10, 8, 11, 7]"] "[3, 9.5]" ["[3, 8, 8.5, 9, 8, 120.0]"]
               eq_refl
               (Hshort Spec.metrics_reads "[3, 9.5]" (VList [VInt 3; VFloat 9.5]) 2 2
                  eq_refl eq_refl ltac:(simpl; tauto) ltac:(lia))).
    cbn [app].
    rewrite (Hmetrics' ["[1, 10, 12, 13, 9]"] "time,open,high,low,close"
               ["[2, 10, 8, 11, 7]"; "[3, 8, 8.5, 9, 8, 120.0]"] eq_refl
               (@Spec.invalid_encoding Literal.builtins Spec.metrics_reads
                  "time,open,high,low,close" ValueError eq_refl)).
    reflexivity.
  - rewrite (Hreplay ["[1, 10, 12, 13, 9]"; "time,open,high,low,close";
                     "[2, 10, 8, 11, 7]"] "[3, 9.5]" ["[3, 8, 8.5, 9, 8, 120.0]"]
               eq_refl
               (Hshort Spec.replay_reads "[3, 9.5]" (VList [VInt 3; VFloat 9.5]) 2 2
                  eq_refl eq_refl ltac:(simpl; tauto) ltac:(lia))).
    cbn [app].
    rewrite (Hreplay' ["[1, 10, 12, 13, 9]"] "time,open,high,low,close"
               ["[2, 10, 8, 11, 7]"; "[3, 8, 8.5, 9, 8, 120.0]"] eq_refl
               (@Spec.invalid_encoding Literal.builtins Spec.replay_reads
                  "time,open,high,low,close" ValueError eq_refl)).
    reflexivity.
Defined.



(** Not every record of fewer than three elements is dropped by the
    replay parser: the dictionary that has the timestamp under the key 0
    and the close under the key 2 has two elements, and its pair comes
    out. *)
Lemma fields_read_by_position_counterexample :
  ~ (forall raw v n,
       @literal_eval Literal.builtins raw = inr v -> len v = Some n -> n < 3 ->
       forall pre post,
         @_parse_rows Literal.builtins (pre ++ raw :: post)
         = @_parse_rows Literal.builtins (pre ++ post)).
Proof.
  intros Hall.
  specialize (Hall "{0: 1700003600, 2: 11.25}"
                (VDict [(VInt 0, VInt 1700003600); (VInt 2, VFloat 11.25)]) 2
                eq_refl eq_refl ltac:(lia) [] []).
  vm_compute in Hall. discriminate Hall.
Qed.

(** ** The metrics aggregator *)

(** The loop of [_calc_metrics] counts wins and hits and collects the
    thresholds, whatever its counters start from. *)
Lemma calc_metrics_loop (rows : list candle) (wins hits : Z) (thresholds : list float) :
  List.fold_left _calc_metrics_step rows (wins, hits, thresholds)
  = ((wins + Spec.count Spec.is_win rows)%Z,
     (hits + Spec.count Spec.is_hit rows)%Z,
     thresholds ++ List.map Spec.threshold rows).
Proof.
  revert wins hits thresholds.
  induction rows as [|[[[[ts o] c] h] l] rows IH]; intros wins hits thresholds.
  - simpl. unfold Spec.count. simpl. now rewrite !Z.add_0_r, app_nil_r.
  - simpl. rewrite IH. unfold Spec.count. simpl.
    rewrite <- app_assoc. simpl.
    destruct (o <? c)%float, (0 <? max2 (abs (h - o)) (abs (o - l)))%float;
      simpl List.length;
      repeat (apply pair_equal_spec; split); try reflexivity; lia.
Qed.

(** C5. On a non-empty candle sequence the aggregator returns the sample
    count, the fraction of candles that close above their open, the
    fraction whose larger move from the open is above zero, and the mean of
    |close - open|; on the two candles of the description it returns
    samples 2, win rate 0.5, hit rate 1.0 and average threshold 2.0. *)
Theorem metrics_aggregate :
  (forall (B : Builtins) (row : candle) (rows : list candle),
     _calc_metrics (row :: rows) = Spec.aggregate (row :: rows))
  /\ @_calc_metrics Literal.builtins
       [(1, 10, 12, 13, 9)%float; (2, 10, 8, 11, 7)%float]
     = {| samples := 2; win_rate := 0.5; hit_rate := 1; avg_threshold := 2 |}.
Proof.
  assert (Hgen : forall (B : Builtins) row rows,
             _calc_metrics (row :: rows) = Spec.aggregate (row :: rows)).
  { intros B row rows. unfold _calc_metrics, Spec.aggregate, Spec.mean.
    rewrite calc_metrics_loop. rewrite !Z.add_0_l, app_nil_l, length_map.
    destruct row as [[[[ts o] c] h] l]. reflexivity. }
  split; [exact Hgen|].
  rewrite Hgen. reflexivity.
Qed.

(** C8. On the empty candle sequence the aggregator returns the zero
    state, and so does the pipeline on an input with no row at all. *)
Theorem metrics_zero_state (B : Builtins) :
  _calc_metrics []
  = {| samples := 0; win_rate := 0; hit_rate := 0; avg_threshold := 0 |}
  /\ _calc_metrics (_parse_history_rows []) = Spec.zero_state.
Proof.
  split.
  - unfold _calc_metrics. reflexivity.
  - unfold _parse_history_rows, Spec.zero_state. reflexivity.
Qed.

(** ** The price replay *)

Lemma stream_skipn (closes : list float) (k : nat) :
  k < List.length closes ->
  List.skipn k closes = Spec.stream closes k :: List.skipn (S k) closes.
Proof.
  unfold Spec.stream. generalize (List.last closes 0%float) as d.
  revert k. induction closes as [|p closes IH]; intros k d Hk; simpl in Hk; [lia|].
  destruct k as [|k]; [reflexivity|].
  change (List.skipn (S k) (p :: closes)) with (List.skipn k closes).
  change (List.skipn (S (S k)) (p :: closes)) with (List.skipn (S k) closes).
  rewrite (IH k d) by lia. reflexivity.
Qed.

Lemma stream_past_end (closes : list float) (k : nat) :
  List.length closes <= k -> Spec.stream closes k = List.last closes 0%float.
Proof. intros Hk. unfold Spec.stream. now apply List.nth_overflow. Qed.

Lemma nth_is_last (l : list float) (j : nat) (d d' : float) :
  S j = List.length l -> List.nth j l d = List.last l d'.
Proof.
  revert j. induction l as [|p l IH]; intros j Hj; simpl in Hj; [lia|].
  destruct l as [|q l].
  - simpl in Hj. assert (j = 0%nat) as -> by lia. reflexivity.
  - destruct j as [|j]; [simpl in Hj; lia|].
    change (List.last (p :: q :: l) d') with (List.last (q :: l) d').
    simpl List.nth. apply IH. simpl in *. lia.
Qed.

Lemma stream_at_end (closes : list float) (j : nat) :
  S j = List.length closes -> Spec.stream closes j = List.last closes 0%float.
Proof. intros Hj. unfold Spec.stream. now apply nth_is_last. Qed.

Lemma stream_prefix_closes (closes : list float) (n : nat) :
  Spec.stream_prefix closes (List.length closes + n)
  = closes ++ List.repeat (List.last closes 0%float) n.
Proof.
  unfold Spec.stream_prefix. rewrite List.seq_app, List.map_app. f_equal.
  - unfold Spec.stream. generalize (List.last closes 0%float) as d. intros d.
    assert (Hpre : forall pre : list float,
               List.map (fun j => List.nth j (pre ++ closes) d)
                 (List.seq (List.length pre) (List.length closes)) = closes).
    { induction closes as [|p closes IH]; intros pre; simpl; [reflexivity|].
      f_equal.
      - rewrite List.app_nth2 by lia. now rewrite Nat.sub_diag.
      - specialize (IH (pre ++ [p])).
        rewrite length_app, <- app_assoc in IH. simpl in IH.
        now rewrite Nat.add_1_r in IH. }
    apply (Hpre []).
  - generalize (0 + List.length closes)%nat (Nat.le_add_l (List.length closes) 0).
    induction n as [|n IH]; intros start Hs; simpl; [reflexivity|].
    rewrite stream_past_end by lia. f_equal. apply IH. lia.
Qed.

Section ReplayFacts.
Context `{Builtins} `{Host}.
Variables (root tf s : string) (rows : list string) (closes : list float).
Hypothesis Hload : load_history s tf infinity 0 "csv" root = inr rows.
Hypothesis Hcloses : Spec.replay_closes (List.map snd (_parse_rows rows)) = closes.

Lemma replay_closes_nonempty : closes <> [].
Proof.
  rewrite <- Hcloses. unfold Spec.replay_closes.
  now destruct (List.map snd (_parse_rows rows)).
Qed.

(** A fresh stream has no generator for any symbol. *)
Lemma init_tracks (root0 : string) (cs : list string) :
  abspath root0 = root -> Spec.tracks root tf s closes 0 (__init__ root0 tf cs).
Proof. intros Hroot. unfold Spec.tracks, __init__. simpl. auto. Qed.

(** One call for the symbol hands out the next price of its sequence. *)
Lemma next_price_tracks (self : t) (k : nat) (sym : string) :
  Spec.normalize sym = s ->
  Spec.tracks root tf s closes k self ->
  exists self',
    next_price self sym = (inr (Spec.stream closes k), self')
    /\ Spec.tracks root tf s closes (S k) self'.
Proof.
  intros Hsym (Hroot & Htf & Hk). unfold next_price.
  change (str_strip (str_upper sym)) with (Spec.normalize sym). rewrite Hsym.
  pose proof replay_closes_nonempty as Hne.
  destruct k as [|j].
  - rewrite Hk, lookup_insert_eq. simpl default.
    unfold _iter_for. rewrite Hroot, Htf, Hload.
    fold (Spec.replay_closes (List.map snd (_parse_rows rows))). rewrite Hcloses.
    destruct closes as [|p rest] eqn:Ecl; [congruence|]. simpl.
    eexists. split; [reflexivity|].
    unfold Spec.tracks. simpl. rewrite !lookup_insert_eq. auto.
  - destruct Hk as [Hlast Hit].
    destruct (S j <=? List.length closes)%nat eqn:Ele;
      rewrite Hit; cbv beta iota zeta; rewrite Hit; simpl default.
    + apply Nat.leb_le in Ele. unfold _iter_for.
      destruct (Nat.eq_dec (S j) (List.length closes)) as [Heq|Hneq].
      * rewrite (List.skipn_all2 closes) by lia. simpl.
        unfold last_price_get. rewrite Hlast. simpl.
        rewrite (stream_at_end closes j Heq).
        rewrite <- (stream_past_end closes (S j)) by lia.
        eexists. split; [reflexivity|].
        assert (Hgt : (S (S j) <=? List.length closes)%nat = false)
          by (apply Nat.leb_gt; lia).
        unfold Spec.tracks. cbn [csv_root timeframe _iters _last_price].
        rewrite !lookup_insert_eq, Hgt. auto.
      * rewrite (stream_skipn closes (S j)) by lia. simpl.
        eexists. split; [reflexivity|].
        assert (Hle : (S (S j) <=? List.length closes)%nat = true)
          by (apply Nat.leb_le; lia).
        unfold Spec.tracks. cbn [csv_root timeframe _iters _last_price].
        rewrite !lookup_insert_eq, Hle. auto.
    + apply Nat.leb_gt in Ele. unfold _iter_for.
      unfold last_price_get. rewrite Hlast. simpl.
      rewrite (stream_past_end closes j) by lia.
      rewrite <- (stream_past_end closes (S j)) by lia.
      eexists. split; [reflexivity|].
      assert (Hgt : (S (S j) <=? List.length closes)%nat = false)
        by (apply Nat.leb_gt; lia).
      unfold Spec.tracks. cbn [csv_root timeframe _iters _last_price].
      rewrite !lookup_insert_eq, Hgt. auto.
Qed.

(** A [next()] on the generator of one symbol leaves the recorded price
    of every other symbol alone. *)
Lemma iter_for_other (self : t) (s' : string) (g : generator) :
  s' <> s -> snd (_iter_for self s' g) !! s = _last_price self !! s.
Proof.
  intros Hne. unfold _iter_for, _iter_for_loop.
  destruct g as [|rest| |]; try reflexivity.
  - destruct (load_history s' (timeframe self) infinity 0 "csv" (csv_root self));
      [reflexivity|].
    destruct (List.map snd (_parse_rows l)); simpl; now rewrite lookup_insert_ne.
  - destruct rest; simpl; [reflexivity | now rewrite lookup_insert_ne].
Qed.

(** A call for another symbol does not move this one. *)
Lemma next_price_other (self : t) (k : nat) (sym : string) :
  Spec.normalize sym <> s ->
  Spec.tracks root tf s closes k self ->
  Spec.tracks root tf s closes k (snd (next_price self sym)).
Proof.
  intros Hsym (Hroot & Htf & Hk). unfold next_price.
  change (str_strip (str_upper sym)) with (Spec.normalize sym).
  set (s' := Spec.normalize sym) in *.
  set (iters := match _iters self !! s' with
                | Some _ => _iters self
                | None => <[s':=Created]> (_iters self)
                end).
  assert (Hiters : iters !! s = _iters self !! s).
  { unfold iters. destruct (_iters self !! s'); [reflexivity|].
    now rewrite lookup_insert_ne. }
  pose proof (iter_for_other self s' (default Created (iters !! s')) Hsym) as Hpr.
  destruct (_iter_for self s' (default Created (iters !! s'))) as [[yielded g] prices].
  simpl in Hpr.
  destruct yielded as [e|price]; unfold Spec.tracks;
    cbn [snd csv_root timeframe _iters _last_price];
    (split; [exact Hroot|]; split; [exact Htf|]);
    destruct k as [|j]; rewrite ?lookup_insert_ne by exact Hsym;
    rewrite ?Hiters, ?Hpr; exact Hk.
Qed.

(** A run of calls, other symbols mixed in: each call for the symbol
    returns the price at its rank among the calls for the symbol. *)
Lemma calls_tracks (syms : list string) (self : t) (k : nat) :
  Spec.tracks root tf s closes k self ->
  Spec.tracks root tf s closes (k + Spec.calls_for s syms) (snd (calls self syms))
  /\ forall i sym,
      syms !! i = Some sym -> Spec.normalize sym = s ->
      fst (calls self syms) !! i
      = Some (inr (Spec.stream closes (k + Spec.calls_for s (List.firstn i syms)))).
Proof.
  revert self k. induction syms as [|sym0 syms IH]; intros self k Htr.
  - simpl. unfold Spec.calls_for. simpl. rewrite Nat.add_0_r.
    split; [exact Htr|]. intros i sym Hi. now rewrite lookup_nil in Hi.
  - simpl. unfold Spec.calls_for. simpl List.filter.
    destruct (String.eqb_spec (Spec.normalize sym0) s) as [Heq|Hneq].
    + destruct (next_price_tracks self k sym0 Heq Htr) as (self' & Hcall & Htr').
      rewrite Hcall. destruct (IH self' (S k) Htr') as [Hfin Hres].
      destruct (calls self' syms) as [rs self''] eqn:Ecalls. simpl in *.
      split.
      * unfold Spec.calls_for in Hfin. now rewrite Nat.add_succ_r.
      * intros [|i] sym Hi Hsym; simpl.
        -- unfold Spec.calls_for. simpl. now rewrite Nat.add_0_r.
        -- simpl in Hi. specialize (Hres i sym Hi Hsym).
           rewrite (proj2 (String.eqb_eq _ _) Heq). simpl List.length.
           rewrite Nat.add_succ_r. exact Hres.
    + pose proof (next_price_other self k sym0 Hneq Htr) as Htr'.
      destruct (next_price self sym0) as [r self'].
      destruct (IH self' k Htr') as [Hfin Hres].
      destruct (calls self' syms) as [rs self''] eqn:Ecalls. simpl in *.
      split.
      * exact Hfin.
      * intros [|i] sym Hi Hsym; simpl.
        -- simpl in Hi. injection Hi as ->. contradiction.
        -- simpl in Hi. specialize (Hres i sym Hi Hsym).
           rewrite (proj2 (String.eqb_neq _ _) Hneq). exact Hres.
Qed.

(** A run of calls that all spell the symbol: the sequence, in order. *)
Lemma calls_same (syms : list string) (self : t) (k : nat) :
  Spec.tracks root tf s closes k self ->
  Forall (fun sym => Spec.normalize sym = s) syms ->
  fst (calls self syms)
  = List.map (fun j => inr (Spec.stream closes j)) (List.seq k (List.length syms)).
Proof.
  revert self k. induction syms as [|sym0 syms IH]; intros self k Htr Hall.
  - reflexivity.
  - apply List.Forall_cons_iff in Hall as [Heq Hall'].
    destruct (next_price_tracks self k sym0 Heq Htr) as (self' & Hcall & Htr').
    simpl. rewrite Hcall. specialize (IH self' (S k) Htr' Hall').
    destruct (calls self' syms) as [rs self'']. simpl in *. now rewrite IH.
Qed.

End ReplayFacts.

Lemma replay_closes_id (closes : list float) :
  closes <> [] -> Spec.replay_closes closes = closes.
Proof. now destruct closes. Qed.

Lemma stream_zero (k : nat) : Spec.stream [0%float] k = 0%float.
Proof. destruct k as [|[|k]]; reflexivity. Qed.

Lemma calls_for_pos `{Builtins} (s : string) (syms : list string) (i : nat)
    (sym : string) :
  syms !! i = Some sym -> Spec.normalize sym = s -> 0 < Spec.calls_for s syms.
Proof.
  intros Hi Hsym. unfold Spec.calls_for.
  assert (Hin : In sym (List.filter (fun x => String.eqb (Spec.normalize x) s) syms)).
  { apply List.filter_In. split.
    - apply list_elem_of_In. eapply list_elem_of_lookup_2. exact Hi.
    - now apply String.eqb_eq. }
  destruct (List.filter _ syms); [contradiction | simpl; lia].
Qed.

Lemma calls_prefix `{Builtins} `{Host} (root tf : string) (cs : list string)
    (s : string) (rows : list string) (syms : list string) :
  load_history s tf infinity 0 "csv" (abspath root) = inr rows ->
  Forall (fun sym => Spec.normalize sym = s) syms ->
  fst (calls (__init__ root tf cs) syms)
  = List.map inr
      (Spec.stream_prefix (Spec.replay_closes (List.map snd (_parse_rows rows)))
         (List.length syms)).
Proof.
  intros Hload Hall.
  rewrite (calls_same (abspath root) tf s rows _ Hload eq_refl syms _ 0).
  - unfold Spec.stream_prefix. now rewrite List.map_map.
  - now apply (init_tracks (abspath root) tf s).
  - exact Hall.
Qed.

(** C2. For a symbol whose history parses to a non-empty close sequence,
    successive calls of [next_price] return the closes oldest to newest
    and then the last close on every further call; for the closes p1, p2,
    p3 the first four calls return p1, p2, p3, p3 and every later call
    p3. *)
Theorem replay_exhaustion `{Builtins} `{Host}
    (root tf : string) (cs : list string) (s sym : string)
    (rows : list string) (closes : list float) :
  Spec.normalize sym = s ->
  load_history s tf infinity 0 "csv" (abspath root) = inr rows ->
  List.map snd (_parse_rows rows) = closes ->
  closes <> [] ->
  (forall n,
     fst (calls (__init__ root tf cs) (List.repeat sym (List.length closes + n)))
     = List.map inr (closes ++ List.repeat (List.last closes 0%float) n))
  /\ (forall p1 p2 p3 n,
        closes = [p1; p2; p3] ->
        fst (calls (__init__ root tf cs) (List.repeat sym (4 + n)))
        = List.map inr ([p1; p2; p3; p3] ++ List.repeat p3 n)).
Proof.
  intros Hsym Hload Hcl Hne.
  assert (Hgen : forall n,
             fst (calls (__init__ root tf cs) (List.repeat sym (List.length closes + n)))
             = List.map inr (closes ++ List.repeat (List.last closes 0%float) n)).
  { intros n.
    rewrite (calls_prefix root tf cs s rows _ Hload).
    - rewrite Hcl, (replay_closes_id closes Hne), List.repeat_length.
      now rewrite stream_prefix_closes.
    - apply List.Forall_forall. intros x Hx.
      now rewrite (List.repeat_spec _ _ _ Hx). }
  split; [exact Hgen|].
  intros p1 p2 p3 n Heq. specialize (Hgen (S n)). rewrite Heq in Hgen.
  simpl List.length in Hgen. simpl List.last in Hgen.
  replace (3 + S n)%nat with (4 + n)%nat in Hgen by lia.
  rewrite Hgen. reflexivity.
Qed.

Lemma replay_exhaustion_witness :
  fst (@calls Literal.builtins (Fixture.host Fixture.market)
         (@__init__ Literal.builtins (Fixture.host Fixture.market) "/data" "1hour" ["BTC"])
         (List.repeat "btc" 6))
  = List.map inr [12; 8; 30.5; 30.5; 30.5; 30.5]%float.
Proof.
  apply (proj2 (@replay_exhaustion Literal.builtins (Fixture.host Fixture.market)
                  "/data" "1hour" ["BTC"] "BTC" "btc"
                  (Fixture.rows_of Fixture.market "1hour" "BTC")
                  [12; 8; 30.5]%float eq_refl eq_refl eq_refl
                  ltac:(discriminate))
           12%float 8%float 30.5%float 2%nat eq_refl).
Defined.

(** When the loader itself fails, the first call lets its error through
    (a [StopIteration] as the [RuntimeError] the generator makes of it)
    and leaves the generator finished: the next call raises
    [StopIteration]. *)
Example next_price_loader_error `{Builtins} `{Host}
    (root tf : string) (cs : list string) (sym : string) (e : exn) :
  load_history (Spec.normalize sym) tf infinity 0 "csv" (abspath root) = inl e ->
  fst (calls (__init__ root tf cs) [sym; sym])
  = [inl (generator_raise e); inl StopIteration].
Proof.
  intros Hload.
  assert (Hfirst : exists self,
             next_price (__init__ root tf cs) sym = (inl (generator_raise e), self)
             /\ _iters self !! Spec.normalize sym = Some Finished).
  { unfold next_price. change (str_strip (str_upper sym)) with (Spec.normalize sym).
    cbn [__init__ _iters]. rewrite lookup_empty, lookup_insert_eq. simpl default.
    unfold _iter_for. cbn [__init__ csv_root timeframe _last_price]. rewrite Hload.
    eexists. split; [reflexivity|]. cbn [_iters]. now rewrite lookup_insert_eq. }
  destruct Hfirst as (self & Hcall & Hfin).
  simpl. rewrite Hcall. unfold next_price.
  change (str_strip (str_upper sym)) with (Spec.normalize sym).
  rewrite Hfin. cbv beta iota zeta. rewrite Hfin. reflexivity.
Qed.

(** C7. For a symbol whose history parses to no price at all, every call
    of [next_price] returns 0.0 (none raises), and the recorded last price
    of the symbol is 0.0 from its first call on. *)
Theorem replay_empty `{Builtins} `{Host}
    (root tf : string) (cs : list string) (s : string) (rows : list string) :
  load_history s tf infinity 0 "csv" (abspath root) = inr rows ->
  List.map snd (_parse_rows rows) = [] ->
  forall syms i sym,
    syms !! i = Some sym -> Spec.normalize sym = s ->
    fst (calls (__init__ root tf cs) syms) !! i = Some (inr 0%float)
    /\ _last_price (snd (calls (__init__ root tf cs) syms)) !! s = Some 0%float.
Proof.
  intros Hload Hnone syms i sym Hi Hsym.
  assert (Hcl : Spec.replay_closes (List.map snd (_parse_rows rows)) = [0%float])
    by now rewrite Hnone.
  destruct (calls_tracks (abspath root) tf s rows [0%float] Hload Hcl syms
              (__init__ root tf cs) 0
              (init_tracks (abspath root) tf s [0%float] root cs eq_refl))
    as [Hfin Hres].
  split.
  - rewrite (Hres i sym Hi Hsym). now rewrite stream_zero.
  - pose proof (calls_for_pos s syms i sym Hi Hsym) as Hpos.
    destruct (Spec.calls_for s syms) as [|j]; [lia|].
    destruct Hfin as (_ & _ & Hlast & _). now rewrite Hlast, stream_zero.
Qed.

Lemma replay_empty_witness :
  fst (@calls Literal.builtins (Fixture.host Fixture.market)
         (@__init__ Literal.builtins (Fixture.host Fixture.market) "/data" "1hour" ["ETH"])
         ["eth"; "BTC"; " ETH "]) !! 2%nat
  = Some (inr 0%float)
  /\ _last_price
       (snd (@calls Literal.builtins (Fixture.host Fixture.market)
               (@__init__ Literal.builtins (Fixture.host Fixture.market) "/data" "1hour" ["ETH"])
               ["eth"; "BTC"; " ETH "])) !! "ETH"
     = Some 0%float.
Proof.
  apply (@replay_empty Literal.builtins (Fixture.host Fixture.market)
           "/data" "1hour" ["ETH"] "ETH"
           (Fixture.rows_of Fixture.market "1hour" "ETH") eq_refl eq_refl
           ["eth"; "BTC"; " ETH "] 2%nat " ETH " eq_refl eq_refl).
Defined.

(** A call adds at most the generator of the symbol it names, under its
    normalized spelling. *)
Lemma next_price_iters `{Builtins} `{Host} (self : t) (sym : string) :
  dom (_iters (snd (next_price self sym)))
  = {[Spec.normalize sym]} ∪ dom (_iters self).
Proof.
  unfold next_price. change (str_strip (str_upper sym)) with (Spec.normalize sym).
  set (s := Spec.normalize sym).
  destruct (_iters self !! s) as [g0|] eqn:Hg.
  - assert (Hin : s ∈ dom (_iters self)) by (apply elem_of_dom; eauto).
    destruct (_iter_for self s (default Created (_iters self !! s))) as [[[e|p] g] prices];
      simpl; rewrite dom_insert_L; set_solver.
  - destruct (_iter_for self s (default Created (<[s:=Created]> (_iters self) !! s)))
      as [[[e|p] g] prices];
      simpl; rewrite !dom_insert_L; set_solver.
Qed.

Lemma calls_iters `{Builtins} `{Host} (syms : list string) (self : t) :
  dom (_iters (snd (calls self syms)))
  = list_to_set (List.map Spec.normalize syms) ∪ dom (_iters self).
Proof.
  revert self. induction syms as [|sym syms IH]; intros self; simpl.
  - set_solver.
  - pose proof (next_price_iters self sym) as Hstep.
    destruct (next_price self sym) as [r self']. simpl in Hstep.
    specialize (IH self'). destruct (calls self' syms) as [rs self''].
    simpl in *. rewrite IH, Hstep. set_solver.
Qed.

(** C9. Two spellings that agree once upper-cased and trimmed name the
    same replay state: a call with either gives the same price and leaves
    the same state, and calls that mix the two spellings walk one price
    sequence, kept under one key. *)
Theorem symbol_spellings `{Builtins} `{Host} (a b : string) :
  Spec.normalize a = Spec.normalize b ->
  (forall self, next_price self a = next_price self b)
  /\ (forall root tf cs rows syms,
        load_history (Spec.normalize a) tf infinity 0 "csv" (abspath root) = inr rows ->
        Forall (fun sym => sym = a \/ sym = b) syms ->
        fst (calls (__init__ root tf cs) syms)
        = List.map inr
            (Spec.stream_prefix
               (Spec.replay_closes (List.map snd (_parse_rows rows)))
               (List.length syms))
        /\ (syms <> [] ->
            dom (_iters (snd (calls (__init__ root tf cs) syms)))
            = {[Spec.normalize a]})).
Proof.
  intros Hab. split.
  - intros self. unfold next_price.
    change (str_strip (str_upper a)) with (Spec.normalize a).
    change (str_strip (str_upper b)) with (Spec.normalize b).
    now rewrite Hab.
  - intros root tf cs rows syms Hload Hall.
    assert (Hnorm : Forall (fun sym => Spec.normalize sym = Spec.normalize a) syms).
    { eapply List.Forall_impl; [|exact Hall].
      intros sym [-> | ->]; [reflexivity | now symmetry]. }
    split.
    + exact (calls_prefix root tf cs (Spec.normalize a) rows syms Hload Hnorm).
    + intros Hne. rewrite calls_iters. simpl. rewrite dom_empty_L.
      destruct syms as [|sym syms]; [congruence|].
      apply List.Forall_cons_iff in Hnorm as [Hsym Hrest]. simpl. rewrite Hsym.
      assert (Hsub : list_to_set (List.map Spec.normalize syms)
                     ⊆ ({[Spec.normalize a]} : gset string)).
      { clear Hall Hne Hsym. induction syms as [|sym' syms IH]; simpl.
        - set_solver.
        - apply List.Forall_cons_iff in Hrest as [Hsym' Hrest].
          rewrite Hsym'. specialize (IH Hrest). set_solver. }
      set_solver.
Qed.

Lemma symbol_spellings_witness :
  fst (@calls Literal.builtins (Fixture.host Fixture.market)
         (@__init__ Literal.builtins (Fixture.host Fixture.market) "/data" "1hour" ["BTC"])
         [" btc "; "BTC"; "BTC"; " btc "])
  = List.map inr [12; 8; 30.5; 30.5]%float.
Proof.
  apply (proj1 (proj2 (@symbol_spellings Literal.builtins (Fixture.host Fixture.market)
                         " btc " "BTC" eq_refl)
                  "/data" "1hour" ["BTC"]
                  (Fixture.rows_of Fixture.market "1hour" "BTC")
                  [" btc "; "BTC"; "BTC"; " btc "] eq_refl
                  ltac:(repeat (apply List.Forall_cons;
                                  [first [left; reflexivity | right; reflexivity]|]);
                        apply List.Forall_nil))).
Defined.

(** ** The orchestrator without datasets *)

(** C4 (amended). When discovery finds no dataset under an existing root,
    the run stops with [SystemExit] and the no-datasets message, exit
    status 1, before anything is written. When the root cannot be listed
    (it does not exist), the run stops too, with exit status 1 and nothing
    written, but by the listing error, uncaught, not by the no-datasets
    exit. *)
Theorem no_datasets_abort `{Builtins} `{Host} (a : args) :
  (discover_datasets (abspath (data_dir a)) (main_allowed_coins a) = inr [] ->
   fst (run a) = inl (SystemExit no_datasets_message)
   /\ exit_status (fst (run a)) = 1%Z
   /\ log (snd (run a)) = []
   /\ ~ Spec.summary_written (abspath (output_dir a)) (snd (run a)))
  /\ (forall e,
        listdir (abspath (data_dir a)) = inl e ->
        fst (run a) = inl (Uncaught e)
        /\ exit_status (fst (run a)) = 1%Z
        /\ log (snd (run a)) = []
        /\ ~ Spec.summary_written (abspath (output_dir a)) (snd (run a))).
Proof.
  split.
  - intros Hnone. unfold run, main.
    unfold mbind, io_mbind, io_bind, lift. rewrite Hnone. simpl.
    repeat split; try reflexivity.
    intros [c Hin]. exact Hin.
  - intros e Herr. unfold run, main.
    assert (Hd : discover_datasets (abspath (data_dir a)) (main_allowed_coins a) = inl e).
    { unfold discover_datasets. now rewrite Herr. }
    unfold mbind, io_mbind, io_bind, lift. rewrite Hd. simpl.
    repeat split; try reflexivity.
    intros [c Hin]. exact Hin.
Qed.

Lemma no_datasets_abort_witness :
  fst (@run Literal.builtins (Fixture.host Fixture.market)
         {| data_dir := "/empty"; output_dir := "/out";
            per_coin_logs := false; coin := None |})
  = inl (SystemExit "No datasets found in the provided data directory")
  /\ exit_status
       (fst (@run Literal.builtins (Fixture.host Fixture.market)
               {| data_dir := "/empty"; output_dir := "/out";
                  per_coin_logs := false; coin := None |})) = 1%Z
  /\ log (snd (@run Literal.builtins (Fixture.host Fixture.market)
                 {| data_dir := "/empty"; output_dir := "/out";
                    per_coin_logs := false; coin := None |})) = []
  /\ ~ Spec.summary_written "/out"
         (snd (@run Literal.builtins (Fixture.host Fixture.market)
                 {| data_dir := "/empty"; output_dir := "/out";
                    per_coin_logs := false; coin := None |})).
Proof.
  apply (proj1 (@no_datasets_abort Literal.builtins (Fixture.host Fixture.market)
                  {| data_dir := "/empty"; output_dir := "/out";
                     per_coin_logs := false; coin := None |}) eq_refl).
Defined.

(** C4 as stated fails on a root that does not exist: listing it raises
    [FileNotFoundError], which [main] lets through, so the run never
    reaches the no-datasets exit. *)
Lemma no_datasets_abort_counterexample :
  @listdir (Fixture.host Fixture.market) "/missing" = inl FileNotFoundError
  /\ fst (@run Literal.builtins (Fixture.host Fixture.market)
            {| data_dir := "/missing"; output_dir := "/out";
               per_coin_logs := false; coin := None |})
     = inl (Uncaught FileNotFoundError)
  /\ fst (@run Literal.builtins (Fixture.host Fixture.market)
            {| data_dir := "/missing"; output_dir := "/out";
               per_coin_logs := false; coin := None |})
     <> inl (SystemExit no_datasets_message).
Proof.
  split; [reflexivity|]. split; [reflexivity|].
  vm_compute. discriminate.
Qed.

(** ** Dataset discovery *)

Lemma dd_append_fresh {V} (key : string) (x : V) (d : defaultdict V) :
  ~ In key (List.map fst d) -> dd_append key x d = d ++ [(key, [x])].
Proof.
  induction d as [|[k v] d IH]; simpl; intros Hnot; [reflexivity|].
  destruct (String.eqb_spec k key) as [->|Hne]; [tauto|].
  rewrite IH by tauto. reflexivity.
Qed.

Lemma dd_append_last {V} (key : string) (x : V) (d : defaultdict V) (v : list V) :
  ~ In key (List.map fst d) ->
  dd_append key x (d ++ [(key, v)]) = d ++ [(key, v ++ [x])].
Proof.
  induction d as [|[k w] d IH]; simpl; intros Hnot.
  - now rewrite String.eqb_refl.
  - destruct (String.eqb_spec k key) as [->|Hne]; [tauto|].
    rewrite IH by tauto. reflexivity.
Qed.

Section DiscoverFacts.
Context `{Host}.
Variables (root : string) (allowed : option (list string)).

(** The inner loop adds one row for the timeframe, holding the names it
    keeps, or no row when it keeps none. *)
Lemma discover_coins_entry (tf_path timeframe : string) (datasets : datasets_t)
    (coins acc : list string) :
  ~ In timeframe (List.map fst datasets) ->
  discover_coins tf_path timeframe allowed coins (datasets ++ Spec.entry timeframe acc)
  = datasets
    ++ Spec.entry timeframe (acc ++ List.filter (Spec.kept tf_path allowed) coins).
Proof.
  intros Hfresh. unfold discover_coins.
  revert acc. induction coins as [|coin coins IH]; intros acc; simpl.
  - now rewrite app_nil_r.
  - assert (Hk : Spec.kept tf_path allowed coin
                 = negb (truthy allowed && negb (contains allowed coin))
                   && isdir (path_join tf_path coin)).
    { unfold Spec.kept, Spec.admits.
      now destruct (truthy allowed), (contains allowed coin). }
    rewrite Hk.
    destruct (truthy allowed && negb (contains allowed coin)); cbn [negb andb];
      [apply IH|].
    destruct (isdir (path_join tf_path coin)); cbn [negb]; [|apply IH].
    replace (dd_append timeframe coin (datasets ++ Spec.entry timeframe acc))
      with (datasets ++ Spec.entry timeframe (acc ++ [coin])).
    + rewrite IH. now rewrite <- app_assoc.
    + destruct acc as [|a acc]; simpl.
      * now rewrite app_nil_r, dd_append_fresh.
      * now rewrite dd_append_last.
Qed.

(** Once a listing has failed, the outer loop only carries the error. *)
Lemma discover_fold_error (timeframes : list string) (e : exn) :
  List.fold_left
    (fun acc timeframe =>
       datasets ← acc;
       let tf_path := path_join root timeframe in
       if negb (isdir tf_path) then ret datasets
       else
         coins ← listdir tf_path;
         ret (discover_coins tf_path timeframe allowed
                (Py.sorted id String.ltb coins) datasets))
    timeframes (inl e)
  = inl e.
Proof. induction timeframes as [|tf tfs IH]; simpl; [reflexivity | exact IH]. Qed.

Lemma row_for_keys (timeframe key : string) :
  In key (List.map fst (Spec.row_for root allowed timeframe)) -> key = timeframe.
Proof.
  unfold Spec.row_for.
  destruct (isdir (path_join root timeframe)); [|contradiction].
  destruct (listdir (path_join root timeframe)) as [e|coins]; [contradiction|].
  destruct (List.filter _ _); simpl; [contradiction | intuition].
Qed.

(** The outer loop adds the rows of the names it walks, in order. *)
Lemma discover_fold (timeframes : list string) (acc ds : datasets_t) :
  NoDup timeframes ->
  (forall tf, In tf timeframes -> ~ In tf (List.map fst acc)) ->
  List.fold_left
    (fun acc timeframe =>
       datasets ← acc;
       let tf_path := path_join root timeframe in
       if negb (isdir tf_path) then ret datasets
       else
         coins ← listdir tf_path;
         ret (discover_coins tf_path timeframe allowed
                (Py.sorted id String.ltb coins) datasets))
    timeframes (inr acc)
  = inr ds ->
  ds = acc ++ List.flat_map (Spec.row_for root allowed) timeframes
  /\ forall tf, In tf timeframes -> isdir (path_join root tf) = true ->
       exists coins, listdir (path_join root tf) = inr coins.
Proof.
  revert acc. induction timeframes as [|tf tfs IH]; intros acc Hnd Hfresh Hfold.
  - simpl in *. injection Hfold as <-. rewrite app_nil_r. split; [reflexivity|].
    intros tf [].
  - apply NoDup_cons in Hnd as [Hnotin Hnd]. simpl in Hfold.
    cbn [List.flat_map].
    destruct (isdir (path_join root tf)) eqn:Edir; simpl in Hfold.
    + destruct (listdir (path_join root tf)) as [e|coins] eqn:Elist; simpl in Hfold.
      * now rewrite discover_fold_error in Hfold.
      * pose proof (discover_coins_entry (path_join root tf) tf acc
                      (Py.sorted id String.ltb coins) [] (Hfresh tf (or_introl eq_refl)))
          as Hrow.
        simpl in Hrow. rewrite app_nil_r in Hrow. rewrite Hrow in Hfold.
        apply IH in Hfold as [Hds Hlists]; [| exact Hnd |].
        -- split.
           ++ rewrite Hds. unfold Spec.row_for at 2. cbv zeta.
              rewrite Edir, Elist. now rewrite <- app_assoc.
           ++ intros tf' [<- | Hin] Hd; [eauto | now apply Hlists].
        -- intros tf' Hin. rewrite List.map_app, List.in_app_iff.
           intros [Hacc | Hnew].
           ++ apply (Hfresh tf' (or_intror Hin) Hacc).
           ++ destruct (List.filter _ _); simpl in Hnew; [contradiction|].
              destruct Hnew as [<- | []]. apply Hnotin.
              now apply list_elem_of_In.
    + apply IH in Hfold as [Hds Hlists]; [| exact Hnd |].
      * split.
        -- rewrite Hds. unfold Spec.row_for at 2. cbv zeta. now rewrite Edir.
        -- intros tf' [<- | Hin] Hd; [congruence | now apply Hlists].
      * intros tf' Hin. apply Hfresh. now right.
Qed.

End DiscoverFacts.

Section CatalogFacts.
Context `{Host}.
Variables (root : string) (allowed : option (list string)).

(** Discovery returns the rows of the names under the root, walked in
    sorted order; every timeframe folder it met could be listed. *)
Lemma discover_datasets_rows (timeframes : list string) (ds : datasets_t) :
  listdir root = inr timeframes -> NoDup timeframes ->
  discover_datasets root allowed = inr ds ->
  ds = List.flat_map (Spec.row_for root allowed) (Py.sorted id String.ltb timeframes).
Proof.
  intros Hlist Hnd Hds. unfold discover_datasets in Hds. rewrite Hlist in Hds.
  simpl in Hds.
  apply (discover_fold root allowed) in Hds as [Hds _].
  - exact Hds.
  - now rewrite (sorted_perm id String.ltb timeframes).
  - intros tf _ [].
Qed.

Lemma entry_rows (timeframe : string) (coins : list string) (tf : string)
    (cs : list string) :
  In (tf, cs) (Spec.entry timeframe coins) -> tf = timeframe /\ cs = coins /\ cs <> [].
Proof.
  destruct coins as [|c coins]; simpl; [contradiction|].
  intros [[= <- <-] | []]. repeat split. discriminate.
Qed.

(** A row of the catalog: a timeframe folder, and the names kept in it. *)
Lemma row_for_rows (timeframe tf : string) (cs : list string) :
  In (tf, cs) (Spec.row_for root allowed timeframe) ->
  tf = timeframe /\ cs <> [] /\ isdir (path_join root tf) = true /\
  exists coins,
    listdir (path_join root tf) = inr coins /\
    cs = List.filter (Spec.kept (path_join root tf) allowed)
           (Py.sorted id String.ltb coins).
Proof.
  unfold Spec.row_for.
  destruct (isdir (path_join root timeframe)) eqn:Edir; [|contradiction].
  destruct (listdir (path_join root timeframe)) as [e|coins] eqn:Elist; [contradiction|].
  intros Hin. apply entry_rows in Hin as (-> & -> & Hne).
  repeat split; try assumption. now exists coins.
Qed.

Lemma coins_of_absent (d : datasets_t) (tf : string) :
  ~ In tf (List.map fst d) -> Spec.coins_of d tf = [].
Proof.
  unfold Spec.coins_of. induction d as [|[k v] d IH]; simpl; intros Hnot; [reflexivity|].
  destruct (String.eqb_spec k tf) as [->|Hne]; [tauto|]. apply IH. tauto.
Qed.

Lemma coins_of_app_l (d1 d2 : datasets_t) (tf : string) :
  In tf (List.map fst d1) -> Spec.coins_of (d1 ++ d2) tf = Spec.coins_of d1 tf.
Proof.
  unfold Spec.coins_of. induction d1 as [|[k v] d1 IH]; simpl; intros Hin; [contradiction|].
  destruct (String.eqb_spec k tf) as [->|Hne]; [reflexivity|].
  apply IH. tauto.
Qed.

Lemma coins_of_app_r (d1 d2 : datasets_t) (tf : string) :
  ~ In tf (List.map fst d1) -> Spec.coins_of (d1 ++ d2) tf = Spec.coins_of d2 tf.
Proof.
  unfold Spec.coins_of. induction d1 as [|[k v] d1 IH]; simpl; intros Hnot; [reflexivity|].
  destruct (String.eqb_spec k tf) as [->|Hne]; [tauto|].
  apply IH. tauto.
Qed.

Lemma coins_of_rows_out (timeframes : list string) (tf : string) :
  ~ In tf timeframes ->
  Spec.coins_of (List.flat_map (Spec.row_for root allowed) timeframes) tf = [].
Proof.
  intros Hnot. apply coins_of_absent. intros Hin. apply Hnot.
  apply List.in_map_iff in Hin as ([k v] & <- & Hin).
  apply List.in_flat_map in Hin as (t & Ht & Hrow).
  assert (k = t) as ->; [|exact Ht].
  apply (row_for_keys root allowed t k).
  apply List.in_map_iff. now exists (k, v).
Qed.

Lemma coins_of_rows_in (timeframes : list string) (tf : string) :
  NoDup timeframes -> In tf timeframes ->
  Spec.coins_of (List.flat_map (Spec.row_for root allowed) timeframes) tf
  = Spec.coins_of (Spec.row_for root allowed tf) tf.
Proof.
  induction timeframes as [|t ts IH]; intros Hnd Hin; [contradiction|].
  apply NoDup_cons in Hnd as [Hnotin Hnd]. simpl.
  destruct (String.eqb_spec t tf) as [->|Hne].
  - destruct (List.in_dec String.string_dec tf
                (List.map fst (Spec.row_for root allowed tf))) as [Hk|Hk].
    + now apply coins_of_app_l.
    + rewrite (coins_of_app_r _ _ tf Hk), (coins_of_absent _ tf Hk).
      apply coins_of_rows_out. intros Hts. apply Hnotin. now apply list_elem_of_In.
  - destruct Hin as [Heq|Hin]; [contradiction|].
    rewrite coins_of_app_r; [now apply IH|].
    intros Hk. apply Hne. symmetry. exact (row_for_keys root allowed t tf Hk).
Qed.

Lemma coins_of_row (tf : string) :
  Spec.coins_of (Spec.row_for root allowed tf) tf
  = if isdir (path_join root tf) then
      match listdir (path_join root tf) with
      | inr coins =>
          List.filter (Spec.kept (path_join root tf) allowed)
            (Py.sorted id String.ltb coins)
      | inl _ => []
      end
    else [].
Proof.
  unfold Spec.row_for, Spec.coins_of.
  destruct (isdir (path_join root tf)); [|reflexivity].
  destruct (listdir (path_join root tf)) as [e|coins]; [reflexivity|].
  destruct (List.filter _ _); simpl; [reflexivity|]. now rewrite String.eqb_refl.
Qed.

Lemma rows_keys (timeframes : list string) :
  List.map fst (List.flat_map (Spec.row_for root allowed) timeframes)
  = List.filter
      (fun tf => match Spec.row_for root allowed tf with [] => false | _ :: _ => true end)
      timeframes.
Proof.
  induction timeframes as [|t ts IH]; simpl; [reflexivity|].
  rewrite List.map_app, IH.
  destruct (Spec.row_for root allowed t) as [|[k v] rest] eqn:Erow; simpl.
  - reflexivity.
  - assert (Hk : k = t).
    { apply (row_for_keys root allowed t k). rewrite Erow. now left. }
    subst k. f_equal.
    unfold Spec.row_for in Erow.
    destruct (isdir (path_join root t)); [|discriminate].
    destruct (listdir (path_join root t)); [discriminate|].
    destruct (List.filter (Spec.kept (path_join root t) allowed) _) as [|c cs];
      [discriminate|].
    simpl in Erow. inversion Erow; subst. reflexivity.
Qed.

End CatalogFacts.

Lemma admits_spec (allowed : option (list string)) (coin : string) :
  Spec.admits allowed coin = true <->
  match allowed with
  | Some (c :: cs) => In coin (c :: cs)
  | Some [] | None => True
  end.
Proof.
  unfold Spec.admits, truthy, contains.
  destruct allowed as [[|c cs]|]; simpl negb; try tauto.
  rewrite orb_false_l, List.existsb_exists. split.
  - intros (x & Hin & Heq). apply String.eqb_eq in Heq. now subst x.
  - intros Hin. exists coin. split; [exact Hin | apply String.eqb_refl].
Qed.

(** C3 (amended). With a filter that is provided and not empty, a coin
    folder is listed if and only if its name is in the filter; with no
    filter, or an empty one, every coin folder is listed. A timeframe is a
    key of the result only with a non-empty coin list, and both the keys
    and each coin list are in lexicographic order. (The root, as every
    directory, lists each of its names once.) *)
Theorem discovery_filter `{Host} (root : string) (allowed : option (list string))
    (timeframes : list string) (ds : datasets_t) :
  listdir root = inr timeframes ->
  NoDup timeframes ->
  discover_datasets root allowed = inr ds ->
  (forall tf coin,
     In coin (Spec.coins_of ds tf) <->
     Spec.coin_directory root tf coin /\
     match allowed with
     | Some (c :: cs) => In coin (c :: cs)
     | Some [] | None => True
     end)
  /\ (forall tf cs,
        In (tf, cs) ds ->
        cs <> [] /\ cs = Spec.coins_of ds tf /\ Spec.lexicographic cs)
  /\ Spec.lexicographic (List.map fst ds).
Proof.
  intros Hlist Hnd Hds.
  pose proof (discover_datasets_rows root allowed timeframes ds Hlist Hnd Hds) as ->.
  assert (Hperm : Permutation (Py.sorted id String.ltb timeframes) timeframes)
    by apply sorted_perm.
  assert (Hnd' : NoDup (Py.sorted id String.ltb timeframes)) by now rewrite Hperm.
  split; [|split].
  - intros tf coin. rewrite <- admits_spec. split.
    + intros Hin.
      destruct (List.in_dec String.string_dec tf (Py.sorted id String.ltb timeframes))
        as [Htf|Htf]; [|now rewrite coins_of_rows_out in Hin].
      rewrite (coins_of_rows_in root allowed _ tf Hnd' Htf), coins_of_row in Hin.
      destruct (isdir (path_join root tf)) eqn:Edir; [|contradiction].
      destruct (listdir (path_join root tf)) as [e|coins] eqn:Ecoins; [contradiction|].
      apply List.filter_In in Hin as [Hcoin Hkept].
      unfold Spec.kept in Hkept. apply andb_true_iff in Hkept as [Hadm Hcdir].
      split; [|exact Hadm].
      exists timeframes, coins. repeat split; try assumption.
      * eapply Permutation_in; [exact Hperm | exact Htf].
      * eapply Permutation_in; [apply (sorted_perm id String.ltb) | exact Hcoin].
    + intros [(tfs & coins & Hl & Htf & Hdir & Hcoins & Hcoin & Hcdir) Hadm].
      assert (tfs = timeframes) as -> by congruence.
      assert (Htf' : In tf (Py.sorted id String.ltb timeframes))
        by (eapply Permutation_in; [symmetry; exact Hperm | exact Htf]).
      rewrite (coins_of_rows_in root allowed _ tf Hnd' Htf'), coins_of_row, Hdir, Hcoins.
      apply List.filter_In. split.
      * eapply Permutation_in; [symmetry; apply (sorted_perm id String.ltb) | exact Hcoin].
      * unfold Spec.kept. now rewrite Hadm, Hcdir.
  - intros tf cs Hin. apply List.in_flat_map in Hin as (t & Ht & Hrow).
    apply row_for_rows in Hrow as (-> & Hne & Hdir & coins & Hcoins & Hcs).
    split; [exact Hne|]. split.
    + rewrite (coins_of_rows_in root allowed _ t Hnd' Ht), coins_of_row, Hdir, Hcoins.
      exact Hcs.
    + rewrite Hcs. apply StronglySorted_filter, sorted_names_lexicographic.
  - rewrite rows_keys. apply StronglySorted_filter, sorted_names_lexicographic.
Qed.

Lemma discovery_filter_witness :
  (forall tf coin,
     In coin (Spec.coins_of [("1hour", ["BTC"; "SOL"])] tf) <->
     @Spec.coin_directory (Fixture.host Fixture.market) "/data" tf coin /\
     In coin ["SOL"; "BTC"])
  /\ (forall tf cs,
        In (tf, cs) [("1hour", ["BTC"; "SOL"])] ->
        cs <> [] /\ cs = Spec.coins_of [("1hour", ["BTC"; "SOL"])] tf
        /\ Spec.lexicographic cs)
  /\ Spec.lexicographic (List.map fst [("1hour", ["BTC"; "SOL"])]).
Proof.
  apply (@discovery_filter (Fixture.host Fixture.market) "/data"
           (Some ["SOL"; "BTC"]) ["1hour"; "README.md"; "1day"; "4hour"]
           [("1hour", ["BTC"; "SOL"])] eq_refl ltac:(compute_done) eq_refl).
Defined.

(** C3 as stated fails for a filter that is provided but empty: it is
    falsy, so nothing is filtered and every coin folder is listed. *)
Lemma discovery_filter_counterexample :
  ~ (forall (allowed : list string) (ds : datasets_t) (tf coin : string),
       @discover_datasets (Fixture.host Fixture.market) "/data" (Some allowed) = inr ds ->
       @Spec.coin_directory (Fixture.host Fixture.market) "/data" tf coin ->
       (In coin (Spec.coins_of ds tf) <-> In coin allowed)).
Proof.
  intros Hclaim.
  specialize (Hclaim [] [("1day", ["ETH"]); ("1hour", ["BTC"; "ETH"; "SOL"])]
                "1hour" "BTC" eq_refl).
  apply Hclaim.
  - exists ["1hour"; "README.md"; "1day"; "4hour"], ["SOL"; "notes.txt"; "BTC"; "ETH"].
    repeat split; simpl; auto.
  - vm_compute. auto.
Qed.

(** A mapping is indexed by key, not by position: a dictionary that binds
    the keys 0 and 2 decodes in the replay parser although it holds two
    items only. The layout the parsers are written for is the sequence. *)
Example parse_rows_try_mapping `{Builtins} (raw : string) :
  literal_eval raw = inr (VDict [(VInt 0, VFloat 1); (VInt 2, VFloat 5)]) ->
  _parse_rows_try raw = inr (1%float, 5%float).
Proof. intros Hv. unfold _parse_rows_try. rewrite Hv. reflexivity. Qed.


(** * Further properties of the engine *)

(** ** The price replay, one symbol among others *)

Section ReplayFootprint.
Context `{Builtins} `{Host}.

Lemma next_price_fields (self : t) (sym : string) :
  csv_root (snd (next_price self sym)) = csv_root self
  /\ timeframe (snd (next_price self sym)) = timeframe self
  /\ coins (snd (next_price self sym)) = coins self.
Proof.
  unfold next_price.
  destruct (_iter_for self (str_strip (str_upper sym)) _) as [[[e|p] g] prices]; simpl; auto.
Qed.

Lemma next_price_other_keys (self : t) (sym s : string) :
  Spec.normalize sym <> s ->
  _iters (snd (next_price self sym)) !! s = _iters self !! s
  /\ _last_price (snd (next_price self sym)) !! s = _last_price self !! s.
Proof.
  intros Hne. unfold next_price.
  change (str_strip (str_upper sym)) with (Spec.normalize sym).
  set (s' := Spec.normalize sym) in *.
  set (iters := match _iters self !! s' with
                | Some _ => _iters self
                | None => <[s':=Created]> (_iters self)
                end).
  assert (Hiters : iters !! s = _iters self !! s).
  { unfold iters. destruct (_iters self !! s'); [reflexivity|].
    now rewrite lookup_insert_ne. }
  pose proof (iter_for_other s self s' (default Created (iters !! s')) Hne) as Hpr.
  destruct (_iter_for self s' (default Created (iters !! s'))) as [[yielded g] prices].
  simpl in Hpr.
  destruct yielded as [e|price]; cbn [snd _iters _last_price];
    rewrite ?lookup_insert_ne by exact Hne; auto.
Qed.

Lemma next_price_records (self : t) (sym : string) (p : float) :
  fst (next_price self sym) = inr p ->
  _last_price (snd (next_price self sym)) !! Spec.normalize sym = Some p.
Proof.
  unfold next_price. change (str_strip (str_upper sym)) with (Spec.normalize sym).
  destruct (_iter_for self (Spec.normalize sym) _) as [[[e|q] g] prices];
    cbn [fst snd _last_price]; intros Hp; [discriminate|].
  injection Hp as ->. apply lookup_insert_eq.
Qed.

Lemma next_price_generator (self : t) (sym : string) :
  is_Some (_iters (snd (next_price self sym)) !! Spec.normalize sym).
Proof.
  unfold next_price. change (str_strip (str_upper sym)) with (Spec.normalize sym).
  destruct (_iter_for self (Spec.normalize sym) _) as [[[e|q] g] prices];
    cbn [snd _iters]; rewrite lookup_insert_eq; eauto.
Qed.

(** X2. A call of [next_price], from any state of the stream, touches
    the state of the symbol it names and nothing else: the root, the
    timeframe and the coin list stay, every other symbol keeps its
    generator and its recorded price, and a price that is returned is the
    price recorded for the symbol. *)
Theorem next_price_footprint (self : t) (sym : string) :
  csv_root (snd (next_price self sym)) = csv_root self
  /\ timeframe (snd (next_price self sym)) = timeframe self
  /\ coins (snd (next_price self sym)) = coins self
  /\ (forall s, Spec.normalize sym <> s ->
        _iters (snd (next_price self sym)) !! s = _iters self !! s
        /\ _last_price (snd (next_price self sym)) !! s = _last_price self !! s)
  /\ (forall p, fst (next_price self sym) = inr p ->
        _last_price (snd (next_price self sym)) !! Spec.normalize sym = Some p)
  /\ is_Some (_iters (snd (next_price self sym)) !! Spec.normalize sym).
Proof.
  destruct (next_price_fields self sym) as (Hroot & Htf & Hcoins).
  repeat split; try assumption.
  - now apply next_price_other_keys.
  - now apply next_price_other_keys.
  - apply next_price_records.
  - apply next_price_generator.
Qed.

End ReplayFootprint.

(** X1. Calls for other symbols may come in between: on a fresh stream,
    each call for a symbol returns the price whose rank in the symbol's
    sequence is the number of earlier calls for that same symbol. *)
Theorem replay_interleaved `{Builtins} `{Host}
    (root tf : string) (cs : list string) (s : string) (rows : list string) :
  load_history s tf infinity 0 "csv" (abspath root) = inr rows ->
  forall syms i sym,
    syms !! i = Some sym -> Spec.normalize sym = s ->
    fst (calls (__init__ root tf cs) syms) !! i
    = Some (inr (Spec.stream
                   (Spec.replay_closes (List.map snd (_parse_rows rows)))
                   (Spec.calls_for s (List.firstn i syms)))).
Proof.
  intros Hload syms i sym Hi Hsym.
  destruct (calls_tracks (abspath root) tf s rows _ Hload eq_refl syms
              (__init__ root tf cs) 0
              (init_tracks (abspath root) tf s _ root cs eq_refl))
    as [_ Hres].
  exact (Hres i sym Hi Hsym).
Qed.

Lemma replay_interleaved_witness :
  fst (@calls Literal.builtins (Fixture.host Fixture.market)
         (@__init__ Literal.builtins (Fixture.host Fixture.market) "/data" "1hour" [])
         ["eth"; "BTC"; "sol"; " btc "; "ETH"; "btc"; "Btc"]) !! 5%nat
  = Some (inr 30.5%float).
Proof.
  apply (@replay_interleaved Literal.builtins (Fixture.host Fixture.market)
           "/data" "1hour" [] "BTC" (Fixture.rows_of Fixture.market "1hour" "BTC")
           eq_refl ["eth"; "BTC"; "sol"; " btc "; "ETH"; "btc"; "Btc"] 5%nat "btc"
           eq_refl eq_refl).
Defined.

(** ** A loader that fails *)

Section LoaderFailure.
Context `{Builtins} `{Host}.
Variables (root tf s : string) (e : exn).
Hypothesis Hload : load_history s tf infinity 0 "csv" root = inl e.



End LoaderFailure.




(** ** Symbols in normal form *)

Lemma normalize_idem `{Builtins} (s : string) :
  Spec.normalize (Spec.normalize s) = Spec.normalize s.
Proof.
  unfold Spec.normalize.
  now rewrite str_upper_strip, str_upper_idem, str_strip_idem.
Qed.

(** X4. The key under which a symbol is kept is itself in normal form:
    normalizing twice is normalizing once, so a call with the stored key
    is the call with any spelling of it; and the coin list of a fresh
    stream holds only non-empty symbols in normal form. *)
Theorem symbols_normal_form `{Builtins} `{Host} :
  (forall s, Spec.normalize (Spec.normalize s) = Spec.normalize s)
  /\ (forall self s, next_price self (Spec.normalize s) = next_price self s)
  /\ (forall root tf cs,
        Forall (fun c => c <> EmptyString /\ Spec.normalize c = c)
          (coins (__init__ root tf cs))).
Proof.
  split; [exact normalize_idem|]. split.
  - intros self s. unfold next_price.
    change (str_strip (str_upper (Spec.normalize s))) with (Spec.normalize (Spec.normalize s)).
    change (str_strip (str_upper s)) with (Spec.normalize s).
    now rewrite normalize_idem.
  - intros root tf cs. unfold __init__. simpl coins.
    apply List.Forall_forall. intros c Hc.
    apply List.in_map_iff in Hc as (c0 & <- & Hc0).
    apply List.filter_In in Hc0 as [_ Hne].
    split.
    + intros Hempty. rewrite <- str_upper_strip in Hempty.
      apply str_upper_empty in Hempty. rewrite Hempty in Hne. discriminate.
    + apply normalize_idem.
Qed.

(** ** The two parsers on the same rows *)

(** A row that the metrics parser decodes, the replay parser decodes too,
    to the same timestamp and close. *)
Lemma history_try_replay_try `{Builtins} (raw : string) (c : candle) :
  _parse_history_rows_try raw = inr c -> _parse_rows_try raw = inr (Extra.tick_of c).
Proof.
  unfold _parse_history_rows_try, _parse_rows_try.
  destruct (literal_eval raw) as [e|v]; simpl; [discriminate|].
  destruct (getitem v 0) as [e|v0]; simpl; [discriminate|].
  destruct (to_float v0) as [e|f0]; simpl; [discriminate|].
  destruct (getitem v 1) as [e|v1]; simpl; [discriminate|].
  destruct (to_float v1) as [e|f1]; simpl; [discriminate|].
  destruct (getitem v 2) as [e|v2]; simpl; [discriminate|].
  destruct (to_float v2) as [e|f2]; simpl; [discriminate|].
  destruct (getitem v 3) as [e|v3]; simpl; [discriminate|].
  destruct (to_float v3) as [e|f3]; simpl; [discriminate|].
  destruct (getitem v 4) as [e|v4]; simpl; [discriminate|].
  destruct (to_float v4) as [e|f4]; simpl; [discriminate|].
  intros [= <-]. reflexivity.
Qed.

Lemma filter_length_le {A} (p q : A -> bool) (l : list A) :
  (forall x, p x = true -> q x = true) ->
  List.length (List.filter p l) <= List.length (List.filter q l).
Proof.
  intros Hpq. induction l as [|x l IH]; simpl; [lia|].
  destruct (p x) eqn:Ep.
  - rewrite (Hpq x Ep). simpl. lia.
  - destruct (q x); simpl; lia.
Qed.

(** X5. The replay parser decodes every row the metrics parser decodes:
    the timestamp and close of each candle of the metrics parser are a
    record of the replay parser on the same rows, which returns at least
    as many records. *)
Theorem metrics_rows_are_replay_rows `{Builtins} (rows : list string) :
  Forall (fun c => In (Extra.tick_of c) (_parse_rows rows)) (_parse_history_rows rows)
  /\ List.length (_parse_history_rows rows) <= List.length (_parse_rows rows).
Proof.
  split.
  - apply List.Forall_forall. intros c Hc.
    rewrite parse_history_rows_flat_map in Hc.
    apply List.in_flat_map in Hc as (raw & Hraw & Hkeep).
    destruct (_parse_history_rows_try raw) as [e|c'] eqn:Etry; simpl in Hkeep;
      [contradiction|].
    destruct Hkeep as [<- | []].
    eapply Permutation_in; [symmetry; apply parse_rows_perm|].
    apply List.in_flat_map. exists raw. split; [exact Hraw|].
    rewrite (history_try_replay_try raw c' Etry). now left.
  - rewrite parse_history_rows_flat_map, keep_length.
    rewrite (Permutation_length (parse_rows_perm rows)), keep_length.
    apply filter_length_le. intros raw.
    destruct (_parse_history_rows_try raw) as [e|c] eqn:Etry; simpl; [discriminate|].
    now rewrite (history_try_replay_try raw c Etry).
Qed.

(** ** Ties in the replay order *)

Lemma SFeqb_ties x y :
  SFeqb x x = true -> SFeqb y y = true ->
  SFeqb x y = negb (SFltb x y) && negb (SFltb y x).
Proof.
  unfold SFltb, SFeqb.
  destruct x as [sx|sx| |sx mx ex], y as [sy|sy| |sy my ey]; float_cases;
    intros _ _; cmp_cases; simpl; try congruence; try reflexivity; lia.
Qed.

Lemma float_eqb_ties (a t : float) :
  is_nan a = false -> is_nan t = false ->
  (a =? t)%float = negb (a <? t)%float && negb (t <? a)%float.
Proof.
  intros Ha Ht. rewrite FloatAxioms.eqb_spec, !FloatAxioms.ltb_spec.
  apply SFeqb_ties; now apply is_nan_false.
Qed.

Lemma float_eqb_nan (a t : float) : is_nan t = true -> (a =? t)%float = false.
Proof.
  unfold is_nan. rewrite !FloatAxioms.eqb_spec. unfold SFeqb.
  destruct (Prim2SF a) as [sx|sx| |sx mx ex], (Prim2SF t) as [sy|sy| |sy my ey];
    float_cases; cmp_cases; simpl; try congruence; try reflexivity; lia.
Qed.

Lemma float_eqb_nan' (t : float) :
  is_nan t = true -> forall item : float * float, (fst item =? t)%float = false.
Proof. intros Ht item. now apply float_eqb_nan. Qed.

Lemma filter_none {A} (l : list A) : List.filter (fun _ => false) l = [].
Proof. induction l; simpl; auto. Qed.

(** X6. The replay order is stable: when no timestamp is NaN, the records
    that share a timestamp come out of the replay parser in the order in
    which their rows came in. *)
Theorem replay_ties_keep_order `{Builtins} (rows : list string) (t : float) :
  (forall item, In item (_parse_rows rows) -> is_nan (fst item) = false) ->
  List.filter (fun item => (fst item =? t)%float) (_parse_rows rows)
  = List.filter (fun item => (fst item =? t)%float)
      (List.flat_map (fun raw => Spec.keep (_parse_rows_try raw)) rows).
Proof.
  intros Hnan.
  assert (Hnan' : forall item,
             In item (List.flat_map (fun raw => Spec.keep (_parse_rows_try raw)) rows) ->
             is_nan (fst item) = false).
  { intros item Hin. apply Hnan.
    eapply Permutation_in; [symmetry; apply parse_rows_perm | exact Hin]. }
  destruct (is_nan t) eqn:Et.
  - rewrite (List.filter_ext _ (fun _ => false) (float_eqb_nan' t Et) (_parse_rows rows)).
    rewrite (List.filter_ext _ (fun _ => false) (float_eqb_nan' t Et)).
    now rewrite !filter_none.
  - rewrite (List.filter_ext_in _
               (fun item => negb (fst item <? t)%float && negb (t <? fst item)%float))
      by (intros item Hin; apply float_eqb_ties; auto).
    symmetry.
    rewrite (List.filter_ext_in _
               (fun item => negb (fst item <? t)%float && negb (t <? fst item)%float))
      by (intros item Hin; apply float_eqb_ties; auto).
    symmetry. now apply parse_rows_stable.
Qed.

Lemma replay_ties_keep_order_witness :
  List.filter (fun item => (fst item =? 1)%float)
    (@_parse_rows Literal.builtins
       ["[1, 0, 7.5]"; "[0, 0, 3]"; "[1.0, 0, 6]"; "oops"; "[1, 0, 9]"])
  = [(1, 7.5)%float; (1, 6)%float; (1, 9)%float].
Proof.
  rewrite (@replay_ties_keep_order Literal.builtins
             ["[1, 0, 7.5]"; "[0, 0, 3]"; "[1.0, 0, 6]"; "oops"; "[1, 0, 9]"] 1%float).
  - reflexivity.
  - vm_compute. intros item [<- | [<- | [<- | [<- | []]]]]; reflexivity.
Defined.

(** ** The metrics of a history *)

Lemma count_perm (p : candle -> bool) (rows rows' : list candle) :
  Permutation rows rows' -> Spec.count p rows = Spec.count p rows'.
Proof.
  intros Hperm. unfold Spec.count. f_equal.
  induction Hperm as [|x l l' _ IH|x y l|l l' l'' _ IH1 _ IH2]; simpl.
  - reflexivity.
  - destruct (p x); simpl; now rewrite IH.
  - destruct (p x), (p y); reflexivity.
  - now rewrite IH1.
Qed.

(** The counters of a candle sequence with at least one candle. *)
Lemma calc_metrics_counts `{Builtins} (rows : list candle) :
  rows <> [] ->
  samples (_calc_metrics rows) = Z.of_nat (List.length rows)
  /\ win_rate (_calc_metrics rows)
     = int_truediv (Spec.count Spec.is_win rows) (Z.of_nat (List.length rows))
  /\ hit_rate (_calc_metrics rows)
     = int_truediv (Spec.count Spec.is_hit rows) (Z.of_nat (List.length rows)).
Proof.
  destruct rows as [|row rows]; [congruence|]. intros _.
  unfold _calc_metrics. rewrite calc_metrics_loop, !Z.add_0_l.
  repeat split.
Qed.

(** X7. The sample count, the win rate and the hit rate of a candle
    sequence do not depend on the order of the candles. *)
Theorem metrics_order_blind `{Builtins} (rows rows' : list candle) :
  Permutation rows rows' ->
  samples (_calc_metrics rows) = samples (_calc_metrics rows')
  /\ win_rate (_calc_metrics rows) = win_rate (_calc_metrics rows')
  /\ hit_rate (_calc_metrics rows) = hit_rate (_calc_metrics rows').
Proof.
  intros Hperm.
  destruct rows as [|row rows].
  - apply Permutation_nil in Hperm. subst rows'. repeat split.
  - assert (Hne : row :: rows <> []) by discriminate.
    assert (Hne' : rows' <> []).
    { intros ->. apply Permutation_sym, Permutation_nil in Hperm. discriminate. }
    destruct (calc_metrics_counts (row :: rows) Hne) as (-> & -> & ->).
    destruct (calc_metrics_counts rows' Hne') as (-> & -> & ->).
    rewrite (Permutation_length Hperm).
    now rewrite (count_perm Spec.is_win _ _ Hperm), (count_perm Spec.is_hit _ _ Hperm).
Qed.

Lemma metrics_order_blind_witness :
  win_rate (@_calc_metrics Literal.builtins
              [(1, 10, 12, 13, 9)%float; (2, 10, 8, 11, 7)%float])
  = win_rate (@_calc_metrics Literal.builtins
                [(2, 10, 8, 11, 7)%float; (1, 10, 12, 13, 9)%float]).
Proof.
  apply (@metrics_order_blind Literal.builtins
           [(1, 10, 12, 13, 9)%float; (2, 10, 8, 11, 7)%float]
           [(2, 10, 8, 11, 7)%float; (1, 10, 12, 13, 9)%float]).
  apply perm_swap.
Defined.

(** X8. The sample count of a raw history is the number of its rows that
    decode, so it never exceeds the number of rows; a history none of
    whose rows decodes has the metrics of an empty one. *)
Theorem history_samples `{Builtins} (raw_rows : list string) :
  samples (_calc_metrics (_parse_history_rows raw_rows))
  = Z.of_nat
      (List.length
         (List.filter (fun raw => Spec.decodes (_parse_history_rows_try raw)) raw_rows))
  /\ (samples (_calc_metrics (_parse_history_rows raw_rows))
      <= Z.of_nat (List.length raw_rows))%Z
  /\ (Forall (fun raw => Spec.decodes (_parse_history_rows_try raw) = false) raw_rows ->
      _calc_metrics (_parse_history_rows raw_rows) = Spec.zero_state).
Proof.
  assert (Hlen : samples (_calc_metrics (_parse_history_rows raw_rows))
                 = Z.of_nat (List.length (_parse_history_rows raw_rows))).
  { destruct (_parse_history_rows raw_rows) as [|c cs] eqn:E; [reflexivity|].
    now destruct (calc_metrics_counts (c :: cs)) as (-> & _). }
  rewrite Hlen, parse_history_rows_flat_map, keep_length.
  split; [reflexivity|]. split.
  - apply inj_le, List.filter_length_le.
  - intros Hnone.
    replace (List.flat_map _ raw_rows) with (@nil candle); [reflexivity|].
    symmetry. clear Hlen.
    induction Hnone as [|raw rows Hraw _ IH]; simpl; [reflexivity|].
    rewrite IH. now destruct (_parse_history_rows_try raw).
Qed.

(** ** Discovery and the listings it reads *)

Section DiscoveryOutcome.
Context `{Host}.
Variable root : string.

(** Whether the outer loop of discovery fails, and with which error, is
    the same under two coin filters. *)
Lemma discover_fold_agree (allowed allowed' : option (list string))
    (timeframes : list string) (acc acc' : result datasets_t) :
  match acc, acc' with
  | inl e, inl e' => e = e'
  | inr _, inr _ => True
  | _, _ => False
  end ->
  match
    List.fold_left
      (fun acc timeframe =>
         datasets ← acc;
         let tf_path := path_join root timeframe in
         if negb (isdir tf_path) then ret datasets
         else
           coins ← listdir tf_path;
           ret (discover_coins tf_path timeframe allowed
                  (Py.sorted id String.ltb coins) datasets))
      timeframes acc,
    List.fold_left
      (fun acc timeframe =>
         datasets ← acc;
         let tf_path := path_join root timeframe in
         if negb (isdir tf_path) then ret datasets
         else
           coins ← listdir tf_path;
           ret (discover_coins tf_path timeframe allowed'
                  (Py.sorted id String.ltb coins) datasets))
      timeframes acc'
  with
  | inl e, inl e' => e = e'
  | inr _, inr _ => True
  | _, _ => False
  end.
Proof.
  revert acc acc'. induction timeframes as [|tf tfs IH]; intros acc acc' Hacc.
  - exact Hacc.
  - simpl. apply IH.
    destruct acc as [e|ds], acc' as [e'|ds']; simpl; try exact Hacc;
      try contradiction.
    destruct (isdir (path_join root tf)); simpl; [|exact I].
    destruct (listdir (path_join root tf)); simpl; auto.
Qed.

Lemma discover_datasets_agree (allowed allowed' : option (list string)) :
  match discover_datasets root allowed, discover_datasets root allowed' with
  | inl e, inl e' => e = e'
  | inr _, inr _ => True
  | _, _ => False
  end.
Proof.
  unfold discover_datasets.
  destruct (listdir root) as [e|timeframes]; simpl; [reflexivity|].
  now apply discover_fold_agree.
Qed.

(** The outer loop goes through when every folder it meets can be
    listed, and fails when one cannot. *)
Lemma discover_fold_listings (allowed : option (list string))
    (timeframes : list string) (acc : datasets_t) :
  (exists ds,
     List.fold_left
       (fun acc timeframe =>
          datasets ← acc;
          let tf_path := path_join root timeframe in
          if negb (isdir tf_path) then ret datasets
          else
            coins ← listdir tf_path;
            ret (discover_coins tf_path timeframe allowed
                   (Py.sorted id String.ltb coins) datasets))
       timeframes (inr acc)
     = inr ds)
  <-> (forall tf, In tf timeframes -> isdir (path_join root tf) = true ->
         exists coins, listdir (path_join root tf) = inr coins).
Proof.
  revert acc. induction timeframes as [|tf tfs IH]; intros acc.
  - simpl. split; [intros _ tf [] | intros _; now exists acc].
  - cbn [List.fold_left]. cbn beta.
    change (mbind ?f (inr acc)) with (f acc). cbn beta zeta.
    destruct (isdir (path_join root tf)) eqn:Edir; cbn [negb].
    + destruct (listdir (path_join root tf)) as [e|coins] eqn:Elist.
      * change (mbind ?f (@inl exn (list string) e)) with (@inl exn datasets_t e).
        rewrite (discover_fold_error root allowed). split.
        -- intros [ds Hds]. discriminate.
        -- intros Hall. destruct (Hall tf (or_introl eq_refl) Edir) as [coins Hc].
           congruence.
      * change (mbind ?f (inr coins)) with (f coins). cbn beta.
        unfold ret. rewrite IH. split.
        -- intros Hall tf' [<- | Hin] Hdir; [now exists coins | now apply Hall].
        -- intros Hall tf' Hin. apply Hall. now right.
    + unfold ret. rewrite IH. split.
      * intros Hall tf' [<- | Hin] Hdir; [congruence | now apply Hall].
      * intros Hall tf' Hin. apply Hall. now right.
Qed.

End DiscoveryOutcome.

(** X9. Discovery returns a catalog exactly when the root can be listed
    and so can every directory directly under it; when it fails, it fails
    with the same error whatever the coin filter is: the filter hides no
    listing error. *)
Theorem discovery_listing_errors `{Host} (root : string)
    (allowed : option (list string)) :
  ((exists ds, discover_datasets root allowed = inr ds)
   <-> exists timeframes,
         listdir root = inr timeframes
         /\ forall tf, In tf timeframes -> isdir (path_join root tf) = true ->
              exists coins, listdir (path_join root tf) = inr coins)
  /\ (forall e allowed',
        discover_datasets root allowed = inl e ->
        discover_datasets root allowed' = inl e).
Proof.
  split.
  - unfold discover_datasets.
    destruct (listdir root) as [e|timeframes] eqn:Elist.
    + split; [intros [ds Hds]; discriminate | intros (tfs & Htfs & _); discriminate].
    + change (mbind ?f (inr timeframes)) with (f timeframes). cbn beta.
      unfold ret at 3. rewrite discover_fold_listings. split.
      * intros Hall. exists timeframes. split; [reflexivity|].
        intros tf Hin. apply Hall.
        eapply Permutation_in; [symmetry; apply (sorted_perm id String.ltb) | exact Hin].
      * intros (tfs & [= <-] & Hall) tf Hin. apply Hall.
        eapply Permutation_in; [apply (sorted_perm id String.ltb) | exact Hin].
  - intros e allowed' He.
    pose proof (discover_datasets_agree root allowed allowed') as Hagree.
    rewrite He in Hagree.
    destruct (discover_datasets root allowed') as [e'|ds]; [congruence | contradiction].
Qed.

(** ** Filtering at discovery, or afterwards *)

Lemma filter_filter {A} (p q : A -> bool) (l : list A) :
  List.filter p (List.filter q l) = List.filter (fun x => q x && p x) l.
Proof.
  induction l as [|x l IH]; simpl; [reflexivity|].
  destruct (q x); simpl; [destruct (p x)|]; now rewrite ?IH.
Qed.

Lemma flat_map_flat_map {A B C} (f : B -> list C) (g : A -> list B) (l : list A) :
  List.flat_map f (List.flat_map g l) = List.flat_map (fun x => List.flat_map f (g x)) l.
Proof.
  induction l as [|x l IH]; simpl; [reflexivity|].
  now rewrite List.flat_map_app, IH.
Qed.

(** The row of a timeframe folder under a filter is its unfiltered row,
    filtered. *)
Lemma row_for_filtered `{Host} (root : string) (allowed : option (list string))
    (timeframe : string) :
  Spec.row_for root allowed timeframe
  = List.flat_map
      (fun kv => Spec.entry (fst kv) (List.filter (Spec.admits allowed) (snd kv)))
      (Spec.row_for root None timeframe).
Proof.
  unfold Spec.row_for.
  destruct (isdir (path_join root timeframe)); [|reflexivity].
  destruct (listdir (path_join root timeframe)) as [e|coins]; [reflexivity|].
  assert (Hkept : List.filter (Spec.kept (path_join root timeframe) allowed)
                    (Py.sorted id String.ltb coins)
                  = List.filter (Spec.admits allowed)
                      (List.filter (Spec.kept (path_join root timeframe) None)
                         (Py.sorted id String.ltb coins))).
  { rewrite filter_filter. apply List.filter_ext. intros coin.
    unfold Spec.kept, Spec.admits. simpl. apply andb_comm. }
  rewrite Hkept.
  destruct (List.filter (Spec.kept (path_join root timeframe) None) _) as [|c cs];
    simpl; [reflexivity|].
  now rewrite app_nil_r.
Qed.

(** X10. Passing a coin filter to discovery gives the catalog that
    discovery without a filter gives, with each coin list cut down to the
    coins the filter lets through and the timeframes left with no coin
    removed. *)
Theorem discovery_filter_commutes `{Host} (root : string)
    (allowed : option (list string)) (timeframes : list string) (every : datasets_t) :
  listdir root = inr timeframes ->
  NoDup timeframes ->
  discover_datasets root None = inr every ->
  discover_datasets root allowed
  = inr (List.flat_map
           (fun kv => Spec.entry (fst kv) (List.filter (Spec.admits allowed) (snd kv)))
           every).
Proof.
  intros Hlist Hnd Hevery.
  pose proof (discover_datasets_agree root None allowed) as Hagree.
  rewrite Hevery in Hagree.
  destruct (discover_datasets root allowed) as [e|ds] eqn:Hds; [contradiction|].
  f_equal.
  rewrite (discover_datasets_rows root allowed timeframes ds Hlist Hnd Hds).
  rewrite (discover_datasets_rows root None timeframes every Hlist Hnd Hevery).
  rewrite flat_map_flat_map. apply List.flat_map_ext. intros tf.
  apply row_for_filtered.
Qed.

Lemma discovery_filter_commutes_witness :
  @discover_datasets (Fixture.host Fixture.market) "/data" (Some ["ETH"; "DOGE"])
  = inr [("1day", ["ETH"]); ("1hour", ["ETH"])].
Proof.
  rewrite (@discovery_filter_commutes (Fixture.host Fixture.market) "/data"
             (Some ["ETH"; "DOGE"]) ["1hour"; "README.md"; "1day"; "4hour"]
             [("1day", ["ETH"]); ("1hour", ["BTC"; "ETH"; "SOL"])]
             eq_refl ltac:(compute_done) eq_refl).
  reflexivity.
Defined.

(** ** The orchestrator *)

Lemma for_each_app {A S} (l1 l2 : list A) (body : S -> A -> io S) (acc : S) (w : world) :
  for_each (l1 ++ l2) body acc w
  = match for_each l1 body acc w with
    | (inl s, w') => (inl s, w')
    | (inr acc', w') => for_each l2 body acc' w'
    end.
Proof.
  revert acc w. induction l1 as [|x l1 IH]; intros acc w; [reflexivity|].
  simpl. unfold mbind, io_mbind, io_bind.
  destruct (body acc x w) as [[s|acc'] w']; [reflexivity | apply IH].
Qed.

(** The two nested loops of [main] walk the datasets of the catalog. *)
Lemma for_each_jobs {S} (body : string -> S -> string -> io S)
    (d : datasets_t) (acc : S) (w : world) :
  for_each d (fun acc '(timeframe, coins) => for_each coins (body timeframe) acc) acc w
  = for_each (Extra.jobs d) (fun acc job => body (fst job) acc (snd job)) acc w.
Proof.
  revert acc w. induction d as [|[tf coins] d IH]; intros acc w; [reflexivity|].
  unfold Extra.jobs. cbn [List.flat_map fst snd]. rewrite for_each_app.
  cbn [for_each]. unfold mbind, io_mbind, io_bind.
  assert (Hmap : forall acc w,
             for_each (List.map (pair tf) coins)
               (fun acc job => body (fst job) acc (snd job)) acc w
             = for_each coins (body tf) acc w).
  { clear. induction coins as [|c coins IH]; intros acc w; [reflexivity|].
    simpl. unfold mbind, io_mbind, io_bind.
    destruct (body tf acc c w) as [[s|acc'] w']; [reflexivity | apply IH]. }
  rewrite Hmap.
  destruct (for_each coins (body tf) acc w) as [[s|acc'] w']; [reflexivity | apply IH].
Qed.

(** *** Paths *)

Lemma string_app_assoc (a b c : string) : ((a ++ b) ++ c = a ++ (b ++ c))%string.
Proof.
  induction a as [|x a IH]; [reflexivity|].
  change (String x ((a ++ b) ++ c) = String x (a ++ (b ++ c)))%string.
  now f_equal.
Qed.

Lemma string_app_length (a b : string) :
  String.length (a ++ b) = String.length a + String.length b.
Proof.
  induction a as [|x a IH]; [reflexivity|].
  change (S (String.length (a ++ b)) = S (String.length a + String.length b)).
  now f_equal.
Qed.

(** Two texts that are equal end in the same characters. *)
Lemma string_app_tail_inj (p1 p2 s1 s2 : string) :
  String.length s1 = String.length s2 ->
  (p1 ++ s1)%string = (p2 ++ s2)%string -> s1 = s2.
Proof.
  revert p2. induction p1 as [|x p1 IH]; intros [|y p2] Hlen Heq.
  - exact Heq.
  - apply (f_equal String.length) in Heq.
    rewrite !string_app_length in Heq. simpl in Heq. lia.
  - apply (f_equal String.length) in Heq.
    rewrite !string_app_length in Heq. simpl in Heq. lia.
  - injection Heq as _ Heq. now apply (IH p2).
Qed.





(** Joining a relative name to a folder: the test of [os.path.join] for
    an absolute second part fails. *)
Lemma path_join_relative (a b : string) :
  Extra.relative b = true ->
  path_join a b
  = if String.eqb a "" then b
    else if String.eqb (substring (String.length a - 1) 1 a) "/" then (a ++ b)%string
         else (a ++ "/" ++ b)%string.
Proof.
  destruct b as [|c b]; [reflexivity|].
  destruct c as [[] [] [] [] [] [] [] []]; intros Hrel;
    try reflexivity; discriminate.
Qed.


(** A joined path ends in its last part. *)
Lemma path_join_suffix (a b : string) : exists q, path_join a b = (q ++ b)%string.
Proof.
  assert (Hrel : exists q,
             (if String.eqb a "" then b
              else if String.eqb (substring (String.length a - 1) 1 a) "/"
                   then (a ++ b)%string
                   else (a ++ "/" ++ b)%string) = (q ++ b)%string).
  { destruct (String.eqb a ""); [now exists ""%string|].
    destruct (String.eqb _ "/"); [now exists a|].
    exists (a ++ "/")%string. now rewrite string_app_assoc. }
  destruct (Extra.relative b) eqn:Eb.
  - now rewrite (path_join_relative a b Eb).
  - exists ""%string. destruct b as [|c b]; [discriminate|].
    destruct c as [[] [] [] [] [] [] [] []]; try discriminate. reflexivity.
Qed.

(** *** The loops of [main] *)


Section MainFacts.
Context `{Builtins} `{Host}.
Variables data_root output_root : string.

(** One pass of the loops on a dataset whose history loads: a row for
    the report, an entry for the coin, three readings of the clock, and
    the artifacts of the dataset. *)
Lemma main_dataset_loaded (job : string * string) (raw : list string)
    (rows : list row) (pce : defaultdict row) (w : world) :
  (forall n, output_error n = None) ->
  Extra.history data_root job = inr raw ->
  exists effs,
    main_dataset data_root output_root (fst job) (rows, pce) (snd job) w
    = (inr (rows ++ [Extra.summary_row job (Extra.metrics_of raw)],
            dd_append (snd job) (Extra.coin_entry job (Extra.metrics_of raw)) pce),
       {| ticks := 3 + ticks w; log := log w ++ effs |})
    /\ Forall (Extra.is_artifact output_root job) effs
    /\ In (MakeDirs (Extra.artifact_dir output_root job)) effs.
Proof.
  intros Hok Hload. destruct job as [tf coin]. unfold Extra.history in Hload.
  cbn [fst snd] in *.
  unfold main_dataset, write_artifacts, ensure_dir, emit, lift, now.
  unfold mbind, mret, io_mbind, io_mret, io_bind, io_ret.
  rewrite Hload, !Hok. cbn [ticks log]. rewrite <- !app_assoc. cbn [app].
  eexists. split; [reflexivity|]. split.
  - repeat apply List.Forall_cons; try apply List.Forall_nil;
      try reflexivity; (eexists; split; [|reflexivity]; simpl; tauto).
  - now left.
Qed.

(** One pass on a dataset whose history does not load: the error goes
    up, after one reading of the clock, and nothing is written. *)
Lemma main_dataset_failed (job : string * string) (e : exn)
    (acc : list row * defaultdict row) (w : world) :
  Extra.history data_root job = inl e ->
  main_dataset data_root output_root (fst job) acc (snd job) w
  = (inl (Uncaught e), {| ticks := 1 + ticks w; log := log w |}).
Proof.
  intros Hload. destruct acc as [rows pce]. unfold Extra.history in Hload.
  unfold main_dataset, lift, now.
  unfold mbind, mret, io_mbind, io_mret, io_bind, io_ret.
  now rewrite Hload.
Qed.

(** The loops over datasets whose histories all load. *)
Lemma main_loop_loaded (jobs : list (string * string)) (raws : list (list string))
    (rows : list row) (pce : defaultdict row) (w : world) :
  (forall n, output_error n = None) ->
  Forall2 (fun job raw => Extra.history data_root job = inr raw) jobs raws ->
  exists effs,
    for_each jobs
      (fun acc job => main_dataset data_root output_root (fst job) acc (snd job))
      (rows, pce) w
    = (inr (rows
            ++ List.map (fun jr => Extra.summary_row (fst jr) (Extra.metrics_of (snd jr)))
                 (List.combine jobs raws),
            List.fold_left
              (fun d jr =>
                 dd_append (snd (fst jr))
                   (Extra.coin_entry (fst jr) (Extra.metrics_of (snd jr))) d)
              (List.combine jobs raws) pce),
       {| ticks := 3 * List.length jobs + ticks w; log := log w ++ effs |})
    /\ Forall (fun e => exists job, In job jobs /\ Extra.is_artifact output_root job e) effs
    /\ (forall job, In job jobs -> In (MakeDirs (Extra.artifact_dir output_root job)) effs).
Proof.
  intros Hok Hall. revert rows pce w.
  induction Hall as [|job raw jobs raws Hload _ IH]; intros rows pce w.
  - exists []. split; [|split].
    + destruct w as [t l]. simpl. now rewrite !app_nil_r.
    + constructor.
    + intros job [].
  - destruct (main_dataset_loaded job raw rows pce w Hok Hload)
      as (effs1 & Hstep & Hart1 & Hdir1).
    destruct (IH (rows ++ [Extra.summary_row job (Extra.metrics_of raw)])
                (dd_append (snd job) (Extra.coin_entry job (Extra.metrics_of raw)) pce)
                {| ticks := 3 + ticks w; log := log w ++ effs1 |})
      as (effs2 & Hrest & Hart2 & Hdir2).
    exists (effs1 ++ effs2). split; [|split].
    + cbn [for_each]. unfold mbind, io_mbind, io_bind. rewrite Hstep, Hrest.
      cbn [ticks log List.combine List.map List.fold_left List.length fst snd].
      rewrite <- !app_assoc. cbn [app].
      replace (3 * S (List.length jobs) + ticks w)
        with (3 * List.length jobs + (3 + ticks w)) by lia.
      reflexivity.
    + apply List.Forall_app. split.
      * eapply List.Forall_impl; [|exact Hart1].
        intros e He. exists job. split; [now left | exact He].
      * eapply List.Forall_impl; [|exact Hart2].
        intros e (j & Hj & He). exists j. split; [now right | exact He].
    + intros j [<- | Hj]; apply List.in_or_app; [left; exact Hdir1 | right; now apply Hdir2].
Qed.


End MainFacts.




(** *** A run that a loader stops *)

(** No artifact is written where a summary report goes: the names of the
    artifacts end in other characters than the name of the report. *)
Lemma artifact_not_report (output_root root' : string) (job : string * string)
    (path : string) (c : content) :
  Extra.is_artifact output_root job (WriteFile path c) ->
  path <> path_join root' report_name.
Proof.
  intros (name & Hname & ->) Heq.
  destruct (path_join_suffix (Extra.artifact_dir output_root job) name) as [q Hq].
  destruct (path_join_suffix root' report_name) as [q' Hq'].
  rewrite Hq, Hq' in Heq. unfold report_name in Heq.
  change "backtest_report.csv" with ("backtest_report" ++ ".csv")%string in Heq.
  rewrite <- (string_app_assoc q') in Heq.
  destruct Hname as [<- | [<- | [<- | [<- | []]]]].
  - rewrite <- !string_app_assoc in Heq.
    now apply string_app_tail_inj in Heq.
  - rewrite <- !string_app_assoc in Heq.
    now apply string_app_tail_inj in Heq.
  - rewrite <- !string_app_assoc in Heq.
    now apply string_app_tail_inj in Heq.
  - change "trainer_status.json" with ("trainer_status." ++ "json")%string in Heq.
    rewrite <- !string_app_assoc in Heq.
    now apply string_app_tail_inj in Heq.
Qed.

(** X12. When no operation on the outside fails and the history of a
    dataset does not load, the run stops there with the loader's error,
    uncaught, and a non-zero exit status: the datasets before it have
    their artifacts, nothing else was done, and no summary report is
    written. *)
Theorem run_loader_failure `{Builtins} `{Host} (a : args) (ds : datasets_t)
    (done rest : list (string * string)) (job : string * string)
    (raws : list (list string)) (e : exn) :
  (forall n, output_error n = None) ->
  discover_datasets (abspath (data_dir a)) (main_allowed_coins a) = inr ds ->
  Extra.jobs ds = done ++ job :: rest ->
  Forall2 (fun job raw => Extra.history (abspath (data_dir a)) job = inr raw) done raws ->
  Extra.history (abspath (data_dir a)) job = inl e ->
  exists w,
    run a = (inl (Uncaught e), w)
    /\ exit_status (fst (run a)) = 1%Z
    /\ ticks w = 3 * List.length done + 1
    /\ Forall (fun e => exists job,
                 In job done /\ Extra.is_artifact (abspath (output_dir a)) job e) (log w)
    /\ (forall job, In job done ->
          In (MakeDirs (Extra.artifact_dir (abspath (output_dir a)) job)) (log w))
    /\ ~ Spec.summary_written (abspath (output_dir a)) w.
Proof.
  intros Hok Hds Hjobs Hall Hload.
  destruct (main_loop_loaded (abspath (data_dir a)) (abspath (output_dir a))
              done raws [] [] {| ticks := 0; log := [] |} Hok Hall)
    as (effs & Hloop & Hart & Hdirs).
  assert (Hrun : run a
                 = (inl (Uncaught e),
                    {| ticks := 1 + (3 * List.length done + 0); log := effs |})).
  { unfold run, main. rewrite Hds. unfold lift, mbind, io_mbind, io_bind.
    destruct ds as [|d ds]; [now destruct done|].
    rewrite (for_each_jobs (main_dataset (abspath (data_dir a)) (abspath (output_dir a)))).
    rewrite Hjobs, for_each_app.
    match type of Hloop with
    | ?lhs = _ =>
        match goal with
        | |- context [for_each done ?b ?acc ?w] => change (for_each done b acc w) with lhs
        end
    end.
    rewrite Hloop. cbn [for_each]. unfold mbind, io_mbind, io_bind.
    now rewrite (main_dataset_failed _ _ job e _ _ Hload). }
  eexists. split; [exact Hrun|]. rewrite Hrun. cbn [fst ticks log exit_status].
  split; [reflexivity|]. split; [lia|]. split; [exact Hart|]. split; [exact Hdirs|].
  intros [c Hin]. cbn [log] in Hin.
  rewrite List.Forall_forall in Hart.
  destruct (Hart _ Hin) as (j & _ & Hj).
  now apply (artifact_not_report _ (abspath (output_dir a)) _ _ _ Hj).
Qed.

Lemma run_loader_failure_witness :
  exists w,
    @run Literal.builtins (Outage.host Fixture.market ["SOL"])
      {| data_dir := "/data"; output_dir := "/out"; per_coin_logs := true;
         coin := None |}
    = (inl (Uncaught PermissionError), w)
    /\ ticks w = 10
    /\ ~ Spec.summary_written "/out" w.
Proof.
  destruct (@run_loader_failure Literal.builtins (Outage.host Fixture.market ["SOL"])
              {| data_dir := "/data"; output_dir := "/out"; per_coin_logs := true;
                 coin := None |}
              [("1day", ["ETH"]); ("1hour", ["BTC"; "ETH"; "SOL"])]
              [("1day", "ETH"); ("1hour", "BTC"); ("1hour", "ETH")] []
              ("1hour", "SOL")
              [Fixture.rows_of Fixture.market "1day" "ETH";
               Fixture.rows_of Fixture.market "1hour" "BTC";
               Fixture.rows_of Fixture.market "1hour" "ETH"]
              PermissionError
              (fun n => eq_refl) eq_refl eq_refl ltac:(repeat constructor) eq_refl)
    as (w & Hrun & _ & Hticks & _ & _ & Hnone).
  exists w. split; [exact Hrun|]. split; [exact Hticks | exact Hnone].
Defined.

(** *** Where a run writes *)







Section Confinement.
Context `{Builtins} `{Host}.
Variables data_root output_root : string.







End Confinement.



(** *** The coins' own logs *)










(** *** Operations that fail *)

Section Failure.
Context `{Builtins} `{Host}.

Lemma stops_healthy {A} (a : A) (w : world) :
  Extra.stops_at_failure (inr a, w) -> Extra.healthy w.
Proof.
  intros Hstops n Hn. destruct (output_error n) as [e|] eqn:He; [|reflexivity].
  destruct (Hstops n e Hn He) as [_ Hr]. discriminate Hr.
Qed.

Lemma healthy_stops {A} (r : stop + A) (w : world) :
  Extra.healthy w -> Extra.stops_at_failure (r, w).
Proof. intros Hw n e Hn He. rewrite (Hw n Hn) in He. discriminate He. Qed.

Lemma bind_stops {A B} (m : io A) (k : A -> io B) (w : world) :
  Extra.stops_at_failure (m w) ->
  (forall a w', Extra.healthy w' -> Extra.stops_at_failure (k a w')) ->
  Extra.stops_at_failure ((a ← m; k a) w).
Proof.
  intros Hm Hk. unfold mbind, io_mbind, io_bind.
  destruct (m w) as [[s|a] w1].
  - intros n e Hn He. destruct (Hm n e Hn He) as [Hlast Hr].
    cbn [fst snd] in *. split; [exact Hlast | congruence].
  - apply Hk. exact (stops_healthy a w1 Hm).
Qed.

Lemma emit_stops (e : effect) (w : world) :
  Extra.healthy w -> Extra.stops_at_failure (emit e w).
Proof.
  intros Hw n x Hn Hx. unfold emit in *. cbn [fst snd log] in *.
  rewrite List.length_app in *. cbn [List.length] in *.
  destruct (Nat.eq_dec n (List.length (log w))) as [-> | Hne].
  - rewrite Hx. split; [lia | reflexivity].
  - rewrite (Hw n) in Hx by lia. discriminate Hx.
Qed.

Lemma now_stops (w : world) : Extra.healthy w -> Extra.stops_at_failure (now w).
Proof. intros Hw. unfold now. now apply healthy_stops. Qed.

Lemma for_each_stops {A S} (l : list A) (body : S -> A -> io S) (acc : S) (w : world) :
  (forall acc x w, Extra.healthy w -> Extra.stops_at_failure (body acc x w)) ->
  Extra.healthy w -> Extra.stops_at_failure (for_each l body acc w).
Proof.
  intros Hbody. revert acc w. induction l as [|x l IH]; intros acc w Hw.
  - now apply healthy_stops.
  - cbn [for_each]. apply bind_stops; [now apply Hbody|].
    intros acc' w' Hw'. now apply IH.
Qed.

Lemma write_artifacts_stops (output_root coin timeframe : string) (m : metrics)
    (raw_rows : list string) (started_at : Z) (w : world) :
  Extra.healthy w ->
  Extra.stops_at_failure
    (write_artifacts output_root coin timeframe m raw_rows started_at w).
Proof.
  intros Hw. unfold write_artifacts, ensure_dir.
  apply bind_stops; [now apply emit_stops|]. intros _ w1 Hw1.
  apply bind_stops; [now apply emit_stops|]. intros _ w2 Hw2.
  apply bind_stops; [now apply emit_stops|]. intros _ w3 Hw3.
  apply bind_stops; [now apply emit_stops|]. intros _ w4 Hw4.
  apply bind_stops; [now apply now_stops|]. intros finished_at w5 Hw5.
  apply bind_stops; [now apply now_stops|]. intros timestamp w6 Hw6.
  now apply emit_stops.
Qed.

Lemma main_dataset_stops (data_root output_root timeframe coin : string)
    (acc : list row * defaultdict row) (w : world) :
  Extra.healthy w ->
  Extra.stops_at_failure (main_dataset data_root output_root timeframe acc coin w).
Proof.
  intros Hw. destruct acc as [rows pce]. unfold main_dataset.
  apply bind_stops; [now apply now_stops|]. intros started_at w1 Hw1.
  apply bind_stops.
  { unfold lift. destruct (load_history _ _ _ _ _ _); now apply healthy_stops. }
  intros raw w2 Hw2.
  apply bind_stops; [now apply write_artifacts_stops|]. intros _ w3 Hw3.
  now apply healthy_stops.
Qed.

Lemma write_summary_stops (output_root : string) (summary_rows : list row) (w : world) :
  Extra.healthy w -> Extra.stops_at_failure (write_summary output_root summary_rows w).
Proof.
  intros Hw. unfold write_summary, ensure_dir.
  apply bind_stops; [now apply emit_stops|]. intros _ w1 Hw1. now apply emit_stops.
Qed.

Lemma write_coin_logs_stops (output_root coin : string) (entries : list row)
    (w : world) :
  Extra.healthy w ->
  Extra.stops_at_failure (write_coin_logs output_root coin entries w).
Proof.
  intros Hw. unfold write_coin_logs.
  destruct entries as [|entry entries]; [now apply healthy_stops|].
  unfold ensure_dir.
  apply bind_stops; [now apply emit_stops|]. intros _ w1 Hw1. now apply emit_stops.
Qed.

End Failure.

(** X19. An operation on the outside that raises ends the run: it is the
    last operation the run begins, what it raised goes uncaught, and the
    exit status is not zero. A run that ends normally is therefore one
    in which every operation returned. *)
Theorem run_output_failure `{Builtins} `{Host} (a : args) (n : nat) (e : exn) :
  n < List.length (log (snd (run a))) -> output_error n = Some e ->
  S n = List.length (log (snd (run a)))
  /\ fst (run a) = inl (Uncaught e)
  /\ exit_status (fst (run a)) = 1%Z.
Proof.
  intros Hn He.
  assert (Hstops : Extra.stops_at_failure (run a)).
  { unfold run, main.
    assert (Hfresh : Extra.healthy {| ticks := 0; log := [] |}).
    { intros m Hm. simpl in Hm. lia. }
    apply bind_stops.
    { unfold lift. destruct (discover_datasets _ _); now apply healthy_stops. }
    intros ds w1 Hw1. destruct ds as [|d ds]; [now apply healthy_stops|].
    apply bind_stops.
    { apply for_each_stops; [|exact Hw1].
      intros acc [timeframe coins] w Hw. apply for_each_stops; [|exact Hw].
      intros acc' coin w' Hw'. now apply main_dataset_stops. }
    intros [rows pce] w2 Hw2.
    apply bind_stops; [now apply write_summary_stops|]. intros _ w3 Hw3.
    apply bind_stops.
    { destruct (per_coin_logs a); [|now apply healthy_stops].
      apply for_each_stops; [|exact Hw3].
      intros [] [coin entries] w Hw. now apply write_coin_logs_stops. }
    intros _ w4 Hw4. now apply emit_stops. }
  destruct (Hstops n e Hn He) as [Hlast Hr].
  split; [exact Hlast|]. split; [exact Hr|]. now rewrite Hr.
Qed.

(** With room for five operations, the artifacts of the first dataset
    are written and the folder of the second is refused: the run ends
    there. *)
Lemma run_output_failure_witness :
  List.length
    (log (snd (@run Literal.builtins (Quota.host Fixture.market 5)
                 {| data_dir := "/data"; output_dir := "/out"; per_coin_logs := false;
                    coin := None |}))) = 6
  /\ fst (@run Literal.builtins (Quota.host Fixture.market 5)
            {| data_dir := "/data"; output_dir := "/out"; per_coin_logs := false;
               coin := None |}) = inl (Uncaught OSError).
Proof.
  destruct (@run_output_failure Literal.builtins (Quota.host Fixture.market 5)
              {| data_dir := "/data"; output_dir := "/out"; per_coin_logs := false;
                 coin := None |} 5 OSError
              ltac:(vm_compute; lia) eq_refl)
    as (Hlast & Hr & _).
  split; [now rewrite <- Hlast | exact Hr].
Defined.

(** ** The offline driver and its children *)

Section DriverFacts.
Import pt_offline_driver.
Context `{Host} `{Machine}.

Lemma launched_from_snoc (seen rest : list call) (c : call) :
  launched_from seen (rest ++ [c])
  = launched_from seen rest
    ++ match c, raises (seen ++ rest) c with
       | Popen _ _, None => [List.length (seen ++ rest)]
       | _, _ => []
       end.
Proof.
  revert seen. induction rest as [|x rest IH]; intros seen.
  - simpl. now rewrite !app_nil_r.
  - cbn [app launched_from]. rewrite IH, <- !app_assoc. reflexivity.
Qed.

Lemma launched_snoc (h : list call) (c : call) :
  launched (h ++ [c])
  = launched h
    ++ match c, raises h c with
       | Popen _ _, None => [List.length h]
       | _, _ => []
       end.
Proof. unfold launched. now rewrite launched_from_snoc. Qed.

(** Terminating children launches none. *)
Lemma launched_terminates (h : list call) (ps : list nat) :
  launched (h ++ List.map Terminate ps) = launched h.
Proof.
  revert h. induction ps as [|p ps IH]; intros h; simpl.
  - now rewrite app_nil_r.
  - change (h ++ Terminate p :: List.map Terminate ps)
      with (h ++ [Terminate p] ++ List.map Terminate ps).
    rewrite app_assoc, IH, launched_snoc. simpl. now rewrite app_nil_r.
Qed.


(** Calls that launch no child and terminate none keep the run at work. *)
Lemma perform_at_work (c : call) (s : state) :
  match c with Say _ | Wait _ => True | Popen _ _ | Terminate _ => False end ->
  Children.at_work s -> Children.at_work (snd (perform c s)).
Proof.
  intros Hc [Hprocs Hnone]. unfold Children.at_work, perform. cbn [snd procs trace].
  rewrite launched_snoc, List.forallb_app, Hnone.
  destruct c; try contradiction; simpl; now rewrite app_nil_r.
Qed.

(** A property of the state that each of two steps keeps is kept by
    the one after the other. *)
Lemma bind_keeps {A B} (P : state -> Prop) (m : os A) (k : A -> os B) (s : state) :
  P (snd (m s)) -> (forall a s', P s' -> P (snd (k a s'))) ->
  P (snd ((a ← m; k a) s)).
Proof.
  intros Hm Hk. unfold mbind, os_mbind, os_bind.
  destruct (m s) as [[r|a] s1]; cbn [snd] in *; [exact Hm | now apply Hk].
Qed.

(** Launching a script and recording its process keeps the run at work. *)
Lemma launch_at_work (cmd : list string) (env : gmap string string) (s : state) :
  Children.at_work s ->
  Children.at_work (snd ((p ← _launch_process cmd env; procs_append p) s)).
Proof.
  intros Hs. unfold _launch_process, mbind, os_mbind, os_bind.
  pose proof (perform_at_work (Say ("Starting " ++ String.concat " " cmd)) s I Hs)
    as Hsay.
  destruct (perform (Say ("Starting " ++ String.concat " " cmd)) s) as [[r|n] s1];
    cbn [snd] in *; [exact Hsay|].
  destruct Hsay as [Hprocs Hnone].
  unfold perform, procs_append, Children.at_work.
  destruct (raises (trace s1) (Popen cmd env)) as [r|] eqn:Eraise;
    cbn [snd procs trace]; rewrite launched_snoc, Eraise, List.forallb_app, Hnone;
    simpl; rewrite ?app_nil_r, Hprocs; auto.
Qed.

Lemma waits_at_work (ps : list nat) (s : state) :
  Children.at_work s ->
  Children.at_work (snd (for_each ps (fun p => _ ← perform (Wait p); mret tt) s)).
Proof.
  revert s. induction ps as [|p ps IH]; intros s Hs; [exact Hs|].
  cbn [for_each]. apply bind_keeps.
  - apply bind_keeps; [now apply perform_at_work | intros _ s' Hs'; exact Hs'].
  - intros _ s' Hs'. now apply IH.
Qed.

(** The [try] block keeps the run at work, however it is left. *)
Lemma try_at_work (a : args) (env : gmap string string) (s : state) :
  Children.at_work s -> Children.at_work (snd (main_try a env s)).
Proof.
  intros Hs. unfold main_try. apply bind_keeps.
  - destruct (no_thinker a); [exact Hs | now apply launch_at_work].
  - intros _ s1 Hs1. apply bind_keeps.
    + destruct (no_trader a); [exact Hs1 | now apply launch_at_work].
    + intros _ s2 Hs2. unfold for_procs. now apply waits_at_work.
Qed.

(** The [finally] block, when no [terminate] is interrupted: every
    process of [procs] is told to terminate, in order, and the block
    leaves normally. *)
Lemma finally_terminates (s : state) :
  (forall h p, raises h (Terminate p) <> Some KeyboardInterrupt) ->
  main_finally s
  = (inr tt, {| procs := procs s; trace := trace s ++ List.map Terminate (procs s) |}).
Proof.
  intros Hsafe. unfold main_finally, for_procs.
  assert (Hloop : forall ps s0,
             for_each ps
               (fun p => except_exception (_ ← perform (Terminate p); mret tt)) s0
             = (inr tt,
                {| procs := procs s0; trace := trace s0 ++ List.map Terminate ps |})).
  { induction ps as [|p ps IH]; intros s0.
    - destruct s0 as [ps0 h0]. simpl. now rewrite app_nil_r.
    - cbn [for_each]. unfold mbind, os_mbind, os_bind, except_exception, perform.
      specialize (Hsafe (trace s0) p).
      destruct (raises (trace s0) (Terminate p)) as [[e|]|]; try congruence;
        unfold mret, os_mret, os_ret; rewrite IH; cbn [procs trace List.map];
        now rewrite <- app_assoc. }
  apply Hloop.
Qed.

(** X15. When no [terminate] call is interrupted from the keyboard, the
    driver ends by telling every child it launched to terminate, in the
    order of the launches, whatever happened before; no child is told so
    earlier; and [KeyboardInterrupt] never leaves [main]. *)
Theorem driver_cleanup (a : args) :
  (forall h p, raises h (Terminate p) <> Some KeyboardInterrupt) ->
  exists before,
    trace (snd (run a))
    = before ++ List.map Terminate (launched (trace (snd (run a))))
    /\ List.forallb (fun c => negb (is_terminate c)) before = true
    /\ fst (run a) <> inl KeyboardInterrupt.
Proof.
  intros Hsafe. unfold run, main, try_finally, except_keyboard_interrupt.
  pose proof (try_at_work a (main_env a) {| procs := []; trace := [] |}) as Hwork.
  destruct (main_try a (main_env a) {| procs := []; trace := [] |}) as [r s1].
  cbn [snd] in Hwork. destruct Hwork as [Hprocs Hnone]; [now split|].
  assert (Hend : forall r0 : raised + unit,
             r0 <> inl KeyboardInterrupt ->
             exists before,
               trace (snd (let '(r1, s') := (r0, s1) in
                           match main_finally s' with
                           | (inl x, s'') => (inl x, s'')
                           | (inr _, s'') => (r1, s'')
                           end))
               = before
                 ++ List.map Terminate
                      (launched
                         (trace (snd (let '(r1, s') := (r0, s1) in
                                      match main_finally s' with
                                      | (inl x, s'') => (inl x, s'')
                                      | (inr _, s'') => (r1, s'')
                                      end))))
               /\ List.forallb (fun c => negb (is_terminate c)) before = true
               /\ fst (let '(r1, s') := (r0, s1) in
                       match main_finally s' with
                       | (inl x, s'') => (inl x, s'')
                       | (inr _, s'') => (r1, s'')
                       end) <> inl KeyboardInterrupt).
  { intros r0 Hr0. rewrite (finally_terminates s1 Hsafe). cbn [fst snd trace].
    exists (trace s1). rewrite launched_terminates, <- Hprocs. auto. }
  destruct r as [[e|]|[]]; apply Hend; discriminate.
Qed.

Lemma for_each_cons {A} (x : A) (l : list A) (body : A -> os unit) (s : state) :
  for_each (x :: l) body s
  = match body x s with
    | (inl r, s') => (inl r, s')
    | (inr _, s') => for_each l body s'
    end.
Proof. reflexivity. Qed.

(** One pass of the loop of the [finally] block. *)
Lemma terminate_step (p : nat) (s : state) :
  except_exception (_ ← perform (Terminate p); mret tt) s
  = (match raises (trace s) (Terminate p) with
     | Some KeyboardInterrupt => inl KeyboardInterrupt
     | Some (Exception _) | None => inr tt
     end,
     {| procs := procs s; trace := trace s ++ [Terminate p] |}).
Proof.
  unfold except_exception, mbind, os_mbind, os_bind, perform.
  now destruct (raises (trace s) (Terminate p)) as [[e|]|].
Qed.

(** One pass of the loop of waits. *)
Lemma wait_step (p : nat) (s : state) :
  (_ ← perform (Wait p); mret tt) s
  = (match raises (trace s) (Wait p) with
     | Some r => inl r
     | None => inr tt
     end,
     {| procs := procs s; trace := trace s ++ [Wait p] |}).
Proof.
  unfold mbind, os_mbind, os_bind, perform.
  now destruct (raises (trace s) (Wait p)).
Qed.

(** The [finally] block tells processes of [procs] to terminate, in
    order, and does nothing else. *)
Lemma finally_trace (s : state) :
  exists m,
    trace (snd (main_finally s))
    = trace s ++ List.map Terminate (List.firstn m (procs s)).
Proof.
  unfold main_finally, for_procs. generalize (procs s) as ps. revert s.
  intros s ps. revert s. induction ps as [|p ps IH]; intros s.
  - exists 0. simpl. now rewrite app_nil_r.
  - rewrite for_each_cons, terminate_step.
    destruct (IH {| procs := procs s; trace := trace s ++ [Terminate p] |}) as [m Hm].
    destruct (raises (trace s) (Terminate p)) as [[e|]|].
    + exists (S m). rewrite Hm. cbn [trace List.firstn List.map].
      now rewrite <- app_assoc.
    + exists 1. reflexivity.
    + exists (S m). rewrite Hm. cbn [trace List.firstn List.map].
      now rewrite <- app_assoc.
Qed.

(** The waits of the [try] block: the calls made are waits for the
    processes, in order, until one raises. *)
Lemma waits_trace (ps : list nat) (s : state) :
  trace (snd (for_each ps (fun p => _ ← perform (Wait p); mret tt) s))
  = trace s ++ Children.performed (trace s) (List.map Wait ps).
Proof.
  revert s. induction ps as [|p ps IH]; intros s.
  - simpl. now rewrite app_nil_r.
  - rewrite for_each_cons, wait_step. cbn [List.map Children.performed].
    destruct (raises (trace s) (Wait p)) as [r|]; [reflexivity|].
    rewrite IH. cbn [trace]. now rewrite <- app_assoc.
Qed.

(** Launching a script and recording its process, in full. *)
Lemma launch_step (cmd : list string) (env : gmap string string) (s : state) :
  (p ← _launch_process cmd env; procs_append p) s
  = match raises (trace s) (Say ("Starting " ++ String.concat " " cmd)) with
    | Some r =>
        (inl r,
         {| procs := procs s;
            trace := trace s ++ [Say ("Starting " ++ String.concat " " cmd)] |})
    | None =>
        match
          raises (trace s ++ [Say ("Starting " ++ String.concat " " cmd)])
            (Popen cmd env)
        with
        | Some r =>
            (inl r,
             {| procs := procs s;
                trace := trace s ++ [Say ("Starting " ++ String.concat " " cmd);
                                     Popen cmd env] |})
        | None =>
            (inr tt,
             {| procs := procs s ++ [S (List.length (trace s))];
                trace := trace s ++ [Say ("Starting " ++ String.concat " " cmd);
                                     Popen cmd env] |})
        end
    end.
Proof.
  unfold _launch_process, mbind, os_mbind, os_bind, perform, procs_append.
  cbn [trace procs].
  destruct (raises (trace s) _) as [r|]; [reflexivity|].
  destruct (raises (trace s ++ _) _) as [r|]; rewrite <- app_assoc;
    [reflexivity|].
  rewrite length_app, Nat.add_comm. reflexivity.
Qed.

Lemma ret_step (s : state) : (mret tt : os unit) s = (inr tt, s).
Proof. reflexivity. Qed.

(** The [try] block, step by step. *)
Lemma main_try_steps (a : args) (env : gmap string string) (s : state) :
  main_try a env s
  = match
      (if negb (no_thinker a)
       then p ← _launch_process [executable; "pt_thinker.py"] env; procs_append p
       else mret tt) s
    with
    | (inl r, s1) => (inl r, s1)
    | (inr _, s1) =>
        match
          (if negb (no_trader a)
           then p ← _launch_process [executable; "pt_trader.py"] env; procs_append p
           else mret tt) s1
        with
        | (inl r, s2) => (inl r, s2)
        | (inr _, s2) =>
            for_each (procs s2) (fun p => _ ← perform (Wait p); mret tt) s2
        end
    end.
Proof. reflexivity. Qed.

(** X16. The driver makes the calls of its plan, in order and with
    nothing in between, until one of them raises: the thinker's launch,
    the trader's launch, the waits for the children in the order of their
    launch, each launch with the driver's interpreter and the environment
    of [main]. After them it makes [terminate] calls only. *)
Theorem driver_follows_plan (a : args) :
  exists ps,
    trace (snd (run a))
    = Children.performed [] (Children.plan a) ++ List.map Terminate ps.
Proof.
  unfold run, main, try_finally, except_keyboard_interrupt.
  assert (Htry : trace (snd (main_try a (main_env a) {| procs := []; trace := [] |}))
                 = Children.performed [] (Children.plan a)).
  { rewrite main_try_steps. unfold Children.plan, Children.launch_calls.
    destruct (no_thinker a), (no_trader a); cbn [negb];
      rewrite ?ret_step, ?launch_step;
      cbn [trace procs app List.length Children.popens_from List.map
             Children.performed].
    - reflexivity.
    - destruct (raises [] _) as [r|]; [reflexivity|].
      destruct (raises [_] _) as [r|]; [reflexivity|].
      now rewrite waits_trace.
    - destruct (raises [] _) as [r|]; [reflexivity|].
      destruct (raises [_] _) as [r|]; [reflexivity|].
      rewrite ?ret_step. now rewrite waits_trace.
    - destruct (raises [] _) as [r|]; [reflexivity|].
      destruct (raises [_] _) as [r|]; [reflexivity|].
      rewrite launch_step.
      cbn [trace procs app List.length Children.popens_from List.map
             Children.performed].
      destruct (raises [_; _] _) as [r|]; [reflexivity|].
      destruct (raises [_; _; _] _) as [r|]; [reflexivity|].
      now rewrite waits_trace. }
  destruct (main_try a (main_env a) {| procs := []; trace := [] |}) as [r s1].
  cbn [snd] in Htry.
  destruct (finally_trace s1) as [m Hm].
  exists (List.firstn m (procs s1)). rewrite <- Htry, <- Hm.
  destruct r as [[e|]|[]]; destruct (main_finally s1) as [[x|[]] s2]; reflexivity.
Qed.

Lemma for_each_keeps {A} (P : state -> Prop) (l : list A) (body : A -> os unit)
    (s : state) :
  P s -> (forall x s', P s' -> P (snd (body x s'))) ->
  P (snd (for_each l body s)).
Proof.
  intros Hs Hbody. revert s Hs. induction l as [|x l IH]; intros s Hs; [exact Hs|].
  cbn [for_each]. apply bind_keeps; [now apply Hbody | intros _ s' Hs'; now apply IH].
Qed.

Lemma perform_keeps_launches (env : gmap string string) (c : call) (s : state) :
  Children.launches_with env c ->
  Forall (Children.launches_with env) (trace s) ->
  Forall (Children.launches_with env) (trace (snd (perform c s))).
Proof.
  intros Hc Hs. unfold perform. cbn [snd trace].
  apply List.Forall_app. split; [exact Hs | now constructor].
Qed.

Lemma launch_keeps_launches (env : gmap string string) (script : string) (s : state) :
  Forall (Children.launches_with env) (trace s) ->
  Forall (Children.launches_with env)
    (trace (snd ((p ← _launch_process [executable; script] env; procs_append p) s))).
Proof.
  intros Hs.
  apply (bind_keeps (fun s => Forall (Children.launches_with env) (trace s))).
  - unfold _launch_process.
    apply (bind_keeps (fun s => Forall (Children.launches_with env) (trace s))).
    + now apply perform_keeps_launches.
    + intros _ s' Hs'. apply perform_keeps_launches; [|exact Hs'].
      split; [reflexivity | now exists script].
  - intros p s' Hs'. exact Hs'.
Qed.

(** X17. The children get the environment of the driver with the four
    backtest settings set -- the mode, the absolute CSV root, the
    timeframe, the absolute output folder -- and the GUI settings path set
    when one is given and not empty; every other variable, and the GUI
    settings variable when no path is given, is handed down as the driver
    found it. Every child is launched with this environment and with the
    driver's interpreter. *)
Theorem driver_environment (a : args) :
  main_env a !! "POWERTRADER_MODE" = Some "backtest"
  /\ main_env a !! "POWERTRADER_BACKTEST_CSV_ROOT" = Some (abspath (csv_root a))
  /\ main_env a !! "POWERTRADER_BACKTEST_TIMEFRAME" = Some (timeframe a)
  /\ main_env a !! "POWERTRADER_BACKTEST_OUTPUT" = Some (abspath (output_dir a))
  /\ main_env a !! "POWERTRADER_GUI_SETTINGS"
     = match gui_settings a with
       | Some (String c g) => Some (abspath (String c g))
       | Some EmptyString | None => environ !! "POWERTRADER_GUI_SETTINGS"
       end
  /\ (forall k, ~ In k Children.settings -> main_env a !! k = environ !! k)
  /\ Forall (Children.launches_with (main_env a)) (trace (snd (run a))).
Proof.
  assert (Henv : forall k,
             main_env a !! k
             = if bool_decide (k = "POWERTRADER_GUI_SETTINGS")
               then match gui_settings a with
                    | Some (String c g) => Some (abspath (String c g))
                    | Some EmptyString | None => environ !! k
                    end
               else if bool_decide (k = "POWERTRADER_BACKTEST_OUTPUT")
               then Some (abspath (output_dir a))
               else if bool_decide (k = "POWERTRADER_BACKTEST_TIMEFRAME")
               then Some (timeframe a)
               else if bool_decide (k = "POWERTRADER_BACKTEST_CSV_ROOT")
               then Some (abspath (csv_root a))
               else if bool_decide (k = "POWERTRADER_MODE")
               then Some "backtest"
               else environ !! k).
  { intros k. unfold main_env.
    destruct (gui_settings a) as [[|c g]|];
      repeat case_bool_decide; subst;
      repeat (first [rewrite lookup_insert_eq | rewrite lookup_insert_ne by congruence]);
      try reflexivity; try congruence. }
  repeat split.
  - now rewrite Henv.
  - now rewrite Henv.
  - now rewrite Henv.
  - now rewrite Henv.
  - now rewrite Henv.
  - intros k Hk. rewrite Henv. unfold Children.settings in Hk. simpl in Hk.
    repeat case_bool_decide; subst; tauto.
  - unfold run, main, try_finally, except_keyboard_interrupt.
    assert (Htry : Forall (Children.launches_with (main_env a))
                     (trace (snd (main_try a (main_env a)
                                    {| procs := []; trace := [] |})))).
    { unfold main_try.
      apply (bind_keeps (fun s => Forall (Children.launches_with (main_env a)) (trace s))).
      - destruct (no_thinker a); [constructor|].
        apply launch_keeps_launches. constructor.
      - intros _ s1 Hs1.
        apply (bind_keeps
                 (fun s => Forall (Children.launches_with (main_env a)) (trace s))).
        + destruct (no_trader a); [exact Hs1|]. now apply launch_keeps_launches.
        + intros _ s2 Hs2. unfold for_procs.
          apply (for_each_keeps
                   (fun s => Forall (Children.launches_with (main_env a)) (trace s)));
            [exact Hs2|].
          intros p s' Hs'. rewrite wait_step. cbn [snd trace].
          apply List.Forall_app. split; [exact Hs' | now constructor]. }
    destruct (main_try a (main_env a) {| procs := []; trace := [] |}) as [r s1].
    cbn [snd] in Htry.
    assert (Hfin : Forall (Children.launches_with (main_env a))
                     (trace (snd (main_finally s1)))).
    { unfold main_finally, for_procs.
      apply (for_each_keeps
               (fun s => Forall (Children.launches_with (main_env a)) (trace s)));
        [exact Htry|].
      intros p s' Hs'. rewrite terminate_step. cbn [snd trace].
      apply List.Forall_app. split; [exact Hs' | now constructor]. }
    destruct r as [[e|]|[]]; destruct (main_finally s1) as [[x|[]] s2]; exact Hfin.
Qed.

End DriverFacts.

Lemma driver_cleanup_witness :
  exists before,
    pt_offline_driver.trace
      (snd (@pt_offline_driver.run (Fixture.host Fixture.market) (Console.machine [1])
              {| pt_offline_driver.csv_root := "/data";
                 pt_offline_driver.timeframe := "1hour";
                 pt_offline_driver.output_dir := "/signals";
                 pt_offline_driver.gui_settings := None;
                 pt_offline_driver.no_thinker := false;
                 pt_offline_driver.no_trader := false |}))
    = before ++ [pt_offline_driver.Terminate 1; pt_offline_driver.Terminate 3]
    /\ fst (@pt_offline_driver.run (Fixture.host Fixture.market) (Console.machine [1])
              {| pt_offline_driver.csv_root := "/data";
                 pt_offline_driver.timeframe := "1hour";
                 pt_offline_driver.output_dir := "/signals";
                 pt_offline_driver.gui_settings := None;
                 pt_offline_driver.no_thinker := false;
                 pt_offline_driver.no_trader := false |})
       <> inl pt_offline_driver.KeyboardInterrupt.
Proof.
  destruct (@driver_cleanup (Fixture.host Fixture.market) (Console.machine [1])
              {| pt_offline_driver.csv_root := "/data";
                 pt_offline_driver.timeframe := "1hour";
                 pt_offline_driver.output_dir := "/signals";
                 pt_offline_driver.gui_settings := None;
                 pt_offline_driver.no_thinker := false;
                 pt_offline_driver.no_trader := false |})
    as (before & Htrace & _ & Hout).
  - intros h p. simpl. discriminate.
  - exists before. split; [exact Htrace | exact Hout].
Defined.

(** ** Discovery and the order of a directory listing *)

Lemma string_leb_antisym (a b : string) :
  String.leb a b = true -> String.leb b a = true -> a = b.
Proof.
  unfold String.leb. rewrite (String.compare_antisym b a).
  destruct (String.compare a b) eqn:E; simpl; intros Hab Hba; try discriminate.
  now apply String.compare_eq_iff.
Qed.

(** Names in lexicographic order are in the only order they can be. *)
Lemma lexicographic_unique (l1 l2 : list string) :
  Spec.lexicographic l1 -> Spec.lexicographic l2 -> Permutation l1 l2 -> l1 = l2.
Proof.
  unfold Spec.lexicographic. intros Hs1. revert l2.
  induction Hs1 as [|x l1 Hs1 IH Hx]; intros l2 Hs2 Hperm.
  - apply Permutation_nil in Hperm. now subst.
  - destruct Hs2 as [|y l2 Hs2 Hy].
    + apply Permutation_sym, Permutation_nil in Hperm. discriminate.
    + assert (x = y) as <-.
      { rewrite List.Forall_forall in Hx, Hy.
        assert (Hin1 : In x (y :: l2))
          by (eapply Permutation_in; [exact Hperm | now left]).
        assert (Hin2 : In y (x :: l1))
          by (eapply Permutation_in; [symmetry; exact Hperm | now left]).
        destruct Hin1 as [-> | Hin1]; [reflexivity|].
        destruct Hin2 as [-> | Hin2]; [reflexivity|].
        apply string_leb_antisym; auto. }
      f_equal. apply IH; [exact Hs2|]. now apply Permutation_cons_inv in Hperm.
Qed.

(** [sorted] undoes any shuffle of names. *)
Lemma sorted_names_perm (names names' : list string) :
  Permutation names names' ->
  Py.sorted id String.ltb names = Py.sorted id String.ltb names'.
Proof.
  intros Hperm. apply lexicographic_unique; try apply sorted_names_lexicographic.
  now rewrite !(sorted_perm id String.ltb).
Qed.

Lemma discover_coins_hosts (H1 H2 : Host) (tf_path timeframe : string)
    (allowed : option (list string)) (coins : list string) (datasets : datasets_t) :
  (forall path, @isdir H1 path = @isdir H2 path) ->
  @discover_coins H1 tf_path timeframe allowed coins datasets
  = @discover_coins H2 tf_path timeframe allowed coins datasets.
Proof.
  intros Hdir. unfold discover_coins. revert datasets.
  induction coins as [|c coins IH]; intros datasets; [reflexivity|].
  simpl. rewrite Hdir. apply IH.
Qed.

Lemma discover_fold_hosts (H1 H2 : Host) (root : string)
    (allowed : option (list string)) (timeframes : list string)
    (acc : result datasets_t) :
  (forall path, @isdir H1 path = @isdir H2 path) ->
  (forall path, Extra.same_listing (@listdir H1 path) (@listdir H2 path)) ->
  List.fold_left
    (fun acc timeframe =>
       datasets ← acc;
       let tf_path := path_join root timeframe in
       if negb (@isdir H1 tf_path) then ret datasets
       else
         coins ← @listdir H1 tf_path;
         ret (@discover_coins H1 tf_path timeframe allowed
                (Py.sorted id String.ltb coins) datasets))
    timeframes acc
  = List.fold_left
      (fun acc timeframe =>
         datasets ← acc;
         let tf_path := path_join root timeframe in
         if negb (@isdir H2 tf_path) then ret datasets
         else
           coins ← @listdir H2 tf_path;
           ret (@discover_coins H2 tf_path timeframe allowed
                  (Py.sorted id String.ltb coins) datasets))
      timeframes acc.
Proof.
  intros Hdir Hlist. revert acc.
  induction timeframes as [|tf tfs IH]; intros acc; [reflexivity|].
  cbn [List.fold_left]. rewrite <- IH. f_equal.
  destruct acc as [e|datasets]; [reflexivity|]. simpl.
  rewrite Hdir. destruct (@isdir H2 (path_join root tf)); [|reflexivity]. simpl.
  pose proof (Hlist (path_join root tf)) as Htf. unfold Extra.same_listing in Htf.
  destruct (@listdir H1 (path_join root tf)) as [e1|coins1],
           (@listdir H2 (path_join root tf)) as [e2|coins2];
    try contradiction; [now subst|].
  simpl. rewrite (sorted_names_perm coins1 coins2 Htf).
  now rewrite (discover_coins_hosts H1 H2 _ _ _ _ _ Hdir).
Qed.

(** X18. The catalog does not depend on the order in which the system
    lists the names of a directory: two systems that agree on what is a
    directory and list the same names, in whatever order, give the same
    outcome of discovery, catalog or error. *)
Theorem discovery_listing_order (H1 H2 : Host) (root : string)
    (allowed : option (list string)) :
  (forall path, @isdir H1 path = @isdir H2 path) ->
  (forall path, Extra.same_listing (@listdir H1 path) (@listdir H2 path)) ->
  @discover_datasets H1 root allowed = @discover_datasets H2 root allowed.
Proof.
  intros Hdir Hlist. unfold discover_datasets.
  pose proof (Hlist root) as Hroot. unfold Extra.same_listing in Hroot.
  destruct (@listdir H1 root) as [e1|names1], (@listdir H2 root) as [e2|names2];
    try contradiction; [now subst|].
  simpl. rewrite (sorted_names_perm names1 names2 Hroot).
  now apply discover_fold_hosts.
Qed.

(** The data directory listed the other way round holds the same names. *)
Lemma reversed_entries (d : Fixture.disk) (path : string) :
  Fixture.entries (Reversed.disk d) path = (@List.rev string) <$> Fixture.entries d path.
Proof.
  unfold Fixture.entries, Reversed.disk. cbn [Fixture.folders].
  induction (Fixture.folders d) as [|[k v] l IH]; [reflexivity|].
  simpl. destruct (String.eqb k path); [reflexivity | exact IH].
Qed.

Lemma discovery_listing_order_witness :
  @discover_datasets (Fixture.host Fixture.market) "/data" None
  = @discover_datasets (Fixture.host (Reversed.disk Fixture.market)) "/data" None.
Proof.
  apply discovery_listing_order.
  - intros path. simpl. rewrite reversed_entries.
    now destruct (Fixture.entries Fixture.market path).
  - intros path. simpl. rewrite reversed_entries.
    destruct (Fixture.entries Fixture.market path); simpl; [|reflexivity].
    apply Permutation_rev.
Defined.
